(** * go_utils: the warm-up generators and the call-site probe

    A shallow embedding of
      - cmd/tools/warmup/main.go              (module [VariantA]),
      - the per-package generator that follows the container helpers in
        common_utils/map_slice_trans.go       (module [VariantB]),
      - common_utils/strings.go               (module [Commonutils]),
      - the reflecting package                (module [Reflecting]),
    together with the pieces of the Go standard library they call
    (modules [GoStrings], [Filepath], [Slices], [Ast]).

    Go strings are byte sequences: they are modelled by [string], whose
    characters are the 256 byte values.  Go maps with string keys are
    [gmap string _]; the unspecified order of a [range] over a map is an
    explicit oracle of the modelled world. *)

From Stdlib Require Import String Ascii List ZArith Lia Bool.
From Stdlib Require Import Numbers.DecimalString.
From Stdlib Require OrderedTypeEx.
From stdpp Require Import gmap strings list fin_maps sorting.

Open Scope string_scope.
Open Scope list_scope.
Set Warnings "-register-all".

(** ** The [strings] package *)
Module GoStrings.

(** [strings.HasPrefix(s, prefix)] *)
Definition HasPrefix (s pre : string) : bool := String.prefix pre s.

(** [s[n:]] for [n <= len(s)] *)
Fixpoint drop_bytes (n : nat) (s : string) : string :=
  match n, s with
  | O, _ => s
  | S n', String _ s' => drop_bytes n' s'
  | S _, EmptyString => EmptyString
  end.

(** [strings.TrimPrefix(s, prefix)] *)
Definition TrimPrefix (s pre : string) : string :=
  if HasPrefix s pre then drop_bytes (String.length pre) s else s.

(** [strings.Split(s, sep)] for a separator of one byte; the result is
    never empty: splitting the empty string gives one empty piece. *)
Fixpoint Split (s : string) (sep : ascii) : list string :=
  match s with
  | EmptyString => [EmptyString]
  | String c s' =>
      if Ascii.eqb c sep then EmptyString :: Split s' sep
      else match Split s' sep with
           | [] => [String c EmptyString]
           | x :: xs => String c x :: xs
           end
  end.

Fixpoint trimLeftByte (s : string) (c : ascii) : string :=
  match s with
  | EmptyString => EmptyString
  | String a s' => if Ascii.eqb a c then trimLeftByte s' c else s
  end.

Fixpoint trimRightByte (s : string) (c : ascii) : string :=
  match s with
  | EmptyString => EmptyString
  | String a s' =>
      match trimRightByte s' c with
      | EmptyString => if Ascii.eqb a c then EmptyString else String a EmptyString
      | r => String a r
      end
  end.

(** [strings.Trim(s, cutset)] for a cutset of one ASCII byte *)
Definition Trim (s : string) (c : ascii) : string :=
  trimLeftByte (trimRightByte s c) c.

Definition bytes (l : list nat) : string :=
  string_of_list_ascii (map ascii_of_nat l).

(** The UTF-8 encodings of the runes for which [unicode.IsSpace] holds:
    the six ASCII ones, U+0085, U+00A0, U+1680, U+2000..U+200A, U+2028,
    U+2029, U+202F, U+205F and U+3000. *)
Definition spaceEncodings : list string :=
  map bytes
    [ [9]; [10]; [11]; [12]; [13]; [32];
      [194; 133]; [194; 160]; [225; 154; 128];
      [226; 128; 128]; [226; 128; 129]; [226; 128; 130]; [226; 128; 131];
      [226; 128; 132]; [226; 128; 133]; [226; 128; 134]; [226; 128; 135];
      [226; 128; 136]; [226; 128; 137]; [226; 128; 138];
      [226; 128; 168]; [226; 128; 169]; [226; 128; 175];
      [226; 129; 159]; [227; 128; 128] ].

Fixpoint stripOne (encs : list string) (s : string) : option string :=
  match encs with
  | [] => None
  | e :: rest =>
      if String.prefix e s then Some (drop_bytes (String.length e) s)
      else stripOne rest s
  end.

Fixpoint trimLeftIn (encs : list string) (fuel : nat) (s : string) : string :=
  match fuel with
  | O => s
  | S n => match stripOne encs s with
           | Some s' => trimLeftIn encs n s'
           | None => s
           end
  end.

Definition reverse (s : string) : string :=
  string_of_list_ascii (rev (list_ascii_of_string s)).

Definition TrimLeftSpace (s : string) : string :=
  trimLeftIn spaceEncodings (String.length s) s.

Definition TrimRightSpace (s : string) : string :=
  reverse (trimLeftIn (map reverse spaceEncodings) (String.length s) (reverse s)).

(** [strings.TrimSpace(s)]: leading and trailing white space, as Unicode
    defines it, removed.  A whitespace rune is recognised at either end
    exactly when its (shortest-form) encoding is a prefix, respectively
    a suffix, of what is left. *)
Definition TrimSpace (s : string) : string :=
  TrimRightSpace (TrimLeftSpace s).

(** [fmt.Sprintf("%d", n)] *)
Definition itoa (n : Z) : string := NilZero.string_of_int (Z.to_int n).

(** Three-way comparison of strings, byte by byte: [strings.Compare],
    and the [<] / [==] chains written out in the first generator. *)
Definition Compare (a b : string) : Z :=
  match String.compare a b with
  | Lt => (-1)%Z
  | Eq => 0%Z
  | Gt => 1%Z
  end.

(** [strings.ReplaceAll] with the empty string as the replacement: the
    non-overlapping occurrences of [old] are deleted from left to right;
    with an empty [old] as well the string comes back unchanged.  [skip] counts
    the bytes of the occurrence being deleted that are still ahead. *)
Fixpoint deleteFrom (old : string) (skip : nat) (s : string) : string :=
  match s with
  | EmptyString => EmptyString
  | String c s' =>
      match skip with
      | S k => deleteFrom old k s'
      | O => if String.prefix old s
             then deleteFrom old (String.length old - 1) s'
             else String c (deleteFrom old 0 s')
      end
  end.

Definition ReplaceAllEmpty (s old : string) : string :=
  match old with
  | EmptyString => s
  | _ => deleteFrom old 0 s
  end.

(** [strings.Index(s, substr) >= 0] *)
Fixpoint Contains (s sub : string) : bool :=
  String.prefix sub s ||
  match s with
  | EmptyString => false
  | String _ s' => Contains s' sub
  end.

End GoStrings.

(** ** The [path/filepath] package, with [/] as the separator *)
Module Filepath.

Definition sep : ascii := "/"%char.

Fixpoint extFrom (s cand : string) : string :=
  match s with
  | EmptyString => cand
  | String c s' =>
      if Ascii.eqb c sep then extFrom s' EmptyString
      else if Ascii.eqb c "."%char then extFrom s' s
      else extFrom s' cand
  end.

(** [filepath.Ext(path)]: the suffix that starts at the last dot of the
    last element of [path], empty when that element has no dot. *)
Definition Ext (path : string) : string := extFrom path EmptyString.

(** [filepath.Base(path)] *)
Definition Base (path : string) : string :=
  match path with
  | EmptyString => "."
  | _ =>
      let p := GoStrings.trimRightByte path sep in
      match List.last (GoStrings.Split p sep) EmptyString with
      | EmptyString => "/"
      | b => b
      end
  end.

End Filepath.

(** ** The [slices] package *)
Module Slices.

(** One pass of the inner loop of [insertionSortCmpFunc]: [x] moves left
    while it is strictly less than its left neighbour.  [racc] is the
    sorted prefix, held right to left. *)
Fixpoint moveLeft {E : Type} (cmp : E -> E -> Z) (x : E) (racc : list E) : list E :=
  match racc with
  | [] => [x]
  | y :: r => if (cmp x y <? 0)%Z then y :: moveLeft cmp x r else x :: y :: r
  end.

(** [slices.SortFunc(x, cmp)].  The library promises an ascending
    permutation and no stability; it sorts slices of at most twelve
    elements by the insertion sort transcribed here, which is the
    representative the model runs.  The theorems below that speak about
    every order use only that the result is an ascending permutation. *)
Definition SortFunc {E : Type} (x : list E) (cmp : E -> E -> Z) : list E :=
  rev (fold_left (fun racc e => moveLeft cmp e racc) x []).

End Slices.

(** ** The [go/ast] syntax trees, as far as the generators look at them *)
Module Ast.

(** A syntax node.  The generators tell identifiers, selectors, calls
    and pointer types apart; every other kind of node (statements,
    blocks, literals, ...) only matters through its children, which
    [ast.Inspect] visits in order.  [LparenLine] is the line of
    [fs.Position(callExpr.Lparen)]. *)
Inductive node : Type :=
| Ident (Name : string)
| SelectorExpr (X : node) (Sel : string)
| CallExpr (Fun : node) (LparenLine : Z) (Args : list node)
| StarExpr (X : node)
| OtherNode (children : list node).

(** The nodes [ast.Inspect(n, f)] hands to an [f] that always answers
    [true], in the order of the visit (depth first, a node before its
    children; for a call the callee before the arguments). *)
Fixpoint Inspect (n : node) : list node :=
  n ::
  match n with
  | Ident _ => []
  | SelectorExpr x _ => Inspect x
  | CallExpr f _ args => Inspect f ++ flat_map Inspect args
  | StarExpr x => Inspect x
  | OtherNode cs => flat_map Inspect cs
  end.

(** [*ast.ImportSpec]: the optional local name and the path literal,
    quotes included. *)
Record ImportSpec : Type := {
  imp_Name : option string;
  imp_Path_Value : string
}.

(** [*ast.FuncDecl].  [Recv] lists the types of the receiver fields
    ([Recv.List[i].Type]); [TypeParams] is [Type.TypeParams].
    [PosFilename] is what a line directive in force at the declaration
    makes of the file name of [fs.Position(funcDecl.Pos())], and [None]
    where there is no such directive and the position has the name the
    file was parsed under. *)
Record FuncDecl : Type := {
  Recv : option (list node);
  Name : string;
  TypeParams : option (list node);
  Body : option node;
  PosFilename : option string
}.

(** [fs.Position(funcDecl.Pos()).Filename] for a declaration of the file
    that was parsed under the name [path] *)
Definition funcPosFilename (path : string) (funcDecl : FuncDecl) : string :=
  default path (PosFilename funcDecl).

Inductive Decl : Type :=
| FuncD (f : FuncDecl)
| OtherDecl.

(** [*ast.File]: [PkgName] is [Name.Name]. *)
Record File : Type := {
  PkgName : string;
  Imports : list ImportSpec;
  Decls : list Decl
}.

End Ast.

(** ** What both generators share *)
Module Gen.
Import Ast.

Record rawCall : Type := { rc_Expr : string; rc_Comment : string }.
Record warmupCall : Type := { Expr : string; Comments : list string }.
Record importLine : Type := { Alias : string; Path : string }.

(** How a run can end: normally, through [log.Fatal]/[log.Fatalf], or in
    a run-time panic (an index out of range). *)
Inductive outcome (A : Type) : Type :=
| Done (a : A)
| Fatal (msg : string)
| Panicked.
Arguments Done {A} a.
Arguments Fatal {A} msg.
Arguments Panicked {A}.

Definition obind {A B : Type} (o : outcome A) (k : A -> outcome B) : outcome B :=
  match o with
  | Done a => k a
  | Fatal m => Fatal m
  | Panicked => Panicked
  end.

(** What a run does to the outside: files written, formatter started. *)
Inductive event : Type :=
| WriteFile (path content : string)
| RunGoimports (path : string).

(** The emitting half of a run threads the events so far and may stop
    the process. *)
Definition M (A : Type) : Type := list event -> outcome A * list event.

Definition ret {A : Type} (a : A) : M A := fun evs => (Done a, evs).
Definition bind {A B : Type} (m : M A) (k : A -> M B) : M B :=
  fun evs => match m evs with
             | (Done a, evs') => k a evs'
             | (Fatal msg, evs') => (Fatal msg, evs')
             | (Panicked, evs') => (Panicked, evs')
             end.
Definition fatal {A : Type} (msg : string) : M A := fun evs => (Fatal msg, evs).
Definition emit (e : event) : M unit := fun evs => (Done tt, evs ++ [e]).
Definition lift {A : Type} (o : outcome A) : M A := fun evs => (o, evs).

(** [for _, x := range xs { body(x) }] in [M] *)
Fixpoint forEach {A : Type} (xs : list A) (body : A -> M unit) : M unit :=
  match xs with
  | [] => ret tt
  | x :: rest => bind (body x) (fun _ => forEach rest body)
  end.

(** The world a run happens in.  [filepath_Walk dir] lists the calls of
    the walk function in order: the path and whether [err != nil].
    [parser_ParseFile] answers [None] for [err != nil].
    [os_ReadFile] answers [None] for [err != nil].  [rangeOrder] is the
    order in which a [range] over a map with string keys yields its
    entries, given in some canonical listing.  [execTemplate] stands for
    [tpl.Execute] on the template text [warmupTemplateText], which is
    declared in a file of the package that is not part of the sources at
    hand and is taken to parse; [None] is an error of the execution.
    [T] is the template data of the variant.  The messages of
    [log.Printf] are not part of the model. *)
Record World (T : Type) : Type := {
  filepath_Walk : string -> list (string * bool);
  parser_ParseFile : string -> option File;
  filepath_Dir : string -> string;
  filepath_Rel : string -> string -> string;
  filepath_Join : string -> string -> string;
  os_ReadFile : string -> option string;
  rangeOrder : forall V : Type, list (string * V) -> list (string * V);
  execTemplate : T -> option string;
  format_Source : string -> option string;
  os_WriteFile : string -> string -> bool;
  goimports : string -> bool
}.
Arguments filepath_Walk {T} _ _.
Arguments parser_ParseFile {T} _ _.
Arguments filepath_Dir {T} _ _.
Arguments filepath_Rel {T} _ _ _.
Arguments filepath_Join {T} _ _ _.
Arguments os_ReadFile {T} _ _.
Arguments rangeOrder {T} _ {V} _.
Arguments execTemplate {T} _ _.
Arguments format_Source {T} _ _.
Arguments os_WriteFile {T} _ _ _.
Arguments goimports {T} _ _.

(** [for k, v := range m] *)
Definition range {T V : Type} (w : World T) (m : gmap string V) : list (string * V) :=
  rangeOrder w (map_to_list m).

(** A world whose map iteration yields every entry exactly once. *)
Definition fair {T : Type} (w : World T) : Prop :=
  forall (V : Type) (l : list (string * V)), @rangeOrder T w V l ≡ₚ l.

Definition probePath : string := "github.com/BetaGoRobot/go_utils/reflecting".

(** [containsGetCurrentFunc], the same text in both generators *)
Definition containsGetCurrentFunc (expr : node) (importMap : gmap string string) : bool :=
  match expr with
  | SelectorExpr (Ident ident) Sel =>
      String.eqb Sel "GetCurrentFunc" &&
      match importMap !! ident with
      | Some path => String.eqb path probePath
      | None => false
      end
  | CallExpr (SelectorExpr (Ident ident) Sel) _ _ =>
      String.eqb Sel "GetCurrentFunc" &&
      match importMap !! ident with
      | Some path => String.eqb path probePath
      | None => false
      end
  | _ => false
  end.

(** The byte of the double quote *)
Definition quote : ascii := ascii_of_nat 34.

(** The loop over [node.Imports] that fills the import map of one file *)
Definition addImport (importMap : gmap string string) (imp : ImportSpec) : gmap string string :=
  let importPath := GoStrings.Trim (imp_Path_Value imp) quote in
  match imp_Name imp with
  | Some name => <[name := importPath]> importMap
  | None =>
      let segments := GoStrings.Split importPath "/"%char in
      <[List.last segments EmptyString := importPath]> importMap
  end.

Definition fileImportMap (imports : list ImportSpec) (start : gmap string string) : gmap string string :=
  fold_left addImport imports start.

(** [deduplicateCalls], first loop: the comments grouped by expression *)
Definition addCall (callMap : gmap string (list string)) (c : rawCall) : gmap string (list string) :=
  <[rc_Expr c := default [] (callMap !! rc_Expr c) ++ [rc_Comment c]]> callMap.

Definition callMapOf (rawCalls : list rawCall) : gmap string (list string) :=
  fold_left addCall rawCalls ∅.

(** [deduplicateCalls], the same text in both generators *)
Definition deduplicateCalls {T : Type} (w : World T) (rawCalls : list rawCall) : list warmupCall :=
  map (fun kv => {| Expr := fst kv; Comments := snd kv |}) (range w (callMapOf rawCalls)).

(** [buildImportLines]; the module prefix is passed in by the second
    generator and looked up by the first. *)
Definition importLinesOf {T : Type} (w : World T) (importPaths : gmap string string)
    (modulePrefix : string) : list importLine :=
  map (fun kv => {| Alias := fst kv; Path := (modulePrefix ++ "/" ++ snd kv)%string |})
      (range w importPaths).

Definition cmpImport (a b : importLine) : Z := GoStrings.Compare (Path a) (Path b).
Definition cmpCall (a b : warmupCall) : Z := GoStrings.Compare (Expr a) (Expr b).

(** [getGoModModuleName], the same text in both generators *)
Definition getGoModModuleName {T : Type} (w : World T) (dir : string) : outcome string :=
  match os_ReadFile w (filepath_Join w dir "go.mod") with
  | None => Fatal "failed to read go.mod"
  | Some data =>
      match List.find (fun line => GoStrings.HasPrefix line "module ")
                      (GoStrings.Split data (ascii_of_nat 10)) with
      | Some line => Done (GoStrings.TrimSpace (GoStrings.TrimPrefix line "module "))
      | None => Fatal "module name not found in go.mod"
      end
  end.

(** The tail of [generateWarmupCode] from the template on: render,
    format, write, run the import fixer; each failure is fatal. *)
Definition renderAndWrite {T : Type} (w : World T) (tplData : T) (outputFile : string) : M unit :=
  match execTemplate w tplData with
  | None => fatal "template execution failed"
  | Some buf =>
      match format_Source w buf with
      | None => fatal "failed to format code"
      | Some formattedCode =>
          if os_WriteFile w outputFile formattedCode then
            bind (emit (WriteFile outputFile formattedCode)) (fun _ =>
            if goimports w outputFile then emit (RunGoimports outputFile)
            else fatal "goimports failed")
          else fatal "failed to write file"
      end
  end.

End Gen.

(** ** The scan of one function body *)
Module Scan.
Import Ast Gen.

(** [for _, x := range xs] gathering what each round appends, and
    stopping at the first round that does not end normally. *)
Fixpoint collect {A B : Type} (f : A -> outcome (list B)) (xs : list A) : outcome (list B) :=
  match xs with
  | [] => Done []
  | x :: rest =>
      obind (f x) (fun ys => obind (collect f rest) (fun zs => Done (ys ++ zs)))
  end.

(** The function literal handed to [ast.Inspect], at one node.  [build]
    is the variant's [buildFunctionCall]; it only runs for a match.
    [path] is the file name of [funcPos], the position of the enclosing
    declaration. *)
Definition visitNode {T : Type} (w : World T)
    (build : string -> FuncDecl -> outcome string)
    (dir path pkgName : string) (importMap : gmap string string)
    (funcDecl : FuncDecl) (n : node) : outcome (list rawCall) :=
  match n with
  | CallExpr f line _ =>
      if containsGetCurrentFunc f importMap then
        obind (build pkgName funcDecl) (fun fullCall =>
        let relPath := filepath_Rel w dir path in
        let comment := (relPath ++ ":" ++ GoStrings.itoa line)%string in
        Done [ {| rc_Expr := fullCall; rc_Comment := comment |} ])
      else Done []
  | _ => Done []
  end.

(** [ast.Inspect(funcDecl.Body, ...)] *)
Definition scanBody {T : Type} (w : World T)
    (build : string -> FuncDecl -> outcome string)
    (dir path pkgName : string) (importMap : gmap string string)
    (funcDecl : FuncDecl) (body : node) : outcome (list rawCall) :=
  collect (visitNode w build dir path pkgName importMap funcDecl) (Inspect body).

End Scan.

(** ** The generator of cmd/tools/warmup/main.go *)
Module VariantA.
Import Ast Gen Scan.

Record warmupTemplateData : Type := {
  tpl_Imports : list importLine;
  tpl_WarmupCalls : list warmupCall
}.

(** The name the walk compares [filepath.Base(path)] with. *)
Definition skippedName : string := "warmup_gen.go".
(** The name [generateWarmupCode] joins to the directory. *)
Definition outputName : string := "warmup.gen.go".

Definition buildFunctionCall (pkgName : string) (funcDecl : FuncDecl) : outcome string :=
  match Recv funcDecl with
  | None => Done (pkgName ++ "." ++ Name funcDecl)%string
  | Some [] => Panicked
  | Some (recvType :: _) =>
      let '(structName, isPointer) :=
        match recvType with
        | Ident name => (name, false)
        | StarExpr (Ident name) => (name, true)
        | _ => (EmptyString, false)
        end in
      if isPointer
      then Done ("(*" ++ pkgName ++ "." ++ structName ++ ")." ++ Name funcDecl)%string
      else Done (pkgName ++ "." ++ structName ++ "." ++ Name funcDecl)%string
  end.

(** One round of [for _, decl := range node.Decls], with [path] for the
    file name of the position of the declaration, [funcPos.Filename] *)
Definition scanDecl (w : World warmupTemplateData) (dir path pkgName : string)
    (importMap : gmap string string) (decl : Decl) : outcome (list rawCall) :=
  match decl with
  | FuncD funcDecl =>
      match Body funcDecl with
      | None => Done []
      | Some body => scanBody w buildFunctionCall dir path pkgName importMap funcDecl body
      end
  | OtherDecl => Done []
  end.

(** The same round for a declaration of the file parsed under [path]:
    the comments carry the file name of the position of the
    declaration. *)
Definition scanDeclOf (w : World warmupTemplateData) (dir path pkgName : string)
    (importMap : gmap string string) (decl : Decl) : outcome (list rawCall) :=
  match decl with
  | FuncD funcDecl => scanDecl w dir (funcPosFilename path funcDecl) pkgName importMap decl
  | OtherDecl => Done []
  end.

Definition analyzeFile (w : World warmupTemplateData) (path baseDir : string)
    : outcome (list rawCall * gmap string string * gmap string string) :=
  match parser_ParseFile w path with
  | None => Done ([], ∅, ∅)
  | Some node =>
      if String.eqb (PkgName node) "main" then Done ([], ∅, ∅)
      else
        let pkgName := PkgName node in
        let relImportPath := filepath_Rel w baseDir (filepath_Dir w path) in
        let importPaths : gmap string string := <[pkgName := relImportPath]> ∅ in
        let importMap := fileImportMap (Imports node) ∅ in
        obind (collect (scanDeclOf w baseDir path pkgName importMap) (Decls node))
              (fun results => Done (results, importPaths, importMap))
  end.

(** The walk function of [scanGoFiles], on the state it closes over.
    Copying [pkgImport] over [importPaths] key by key is the union that
    prefers [pkgImport]. *)
Definition visit (w : World warmupTemplateData) (dir : string)
    (acc : list rawCall * gmap string string * gmap string string)
    (v : string * bool) : outcome (list rawCall * gmap string string * gmap string string) :=
  let '(path, err) := v in
  if err || negb (String.eqb (Filepath.Ext path) ".go")
         || String.eqb (Filepath.Base path) skippedName
  then Done acc
  else
    obind (analyzeFile w path dir) (fun r =>
      let '(fileCalls, pkgImport, fileImports) := r in
      let '(rawCalls, importPaths, importMap) := acc in
      Done (rawCalls ++ fileCalls, pkgImport ∪ importPaths, fileImports ∪ importMap)).

Fixpoint walkFrom (w : World warmupTemplateData) (dir : string)
    (acc : list rawCall * gmap string string * gmap string string)
    (visits : list (string * bool))
    : outcome (list rawCall * gmap string string * gmap string string) :=
  match visits with
  | [] => Done acc
  | v :: rest => obind (visit w dir acc v) (fun acc' => walkFrom w dir acc' rest)
  end.

Definition scanGoFiles (w : World warmupTemplateData) (dir : string)
    : outcome (list rawCall * gmap string string * gmap string string) :=
  walkFrom w dir ([], ∅, ∅) (filepath_Walk w dir).

Definition buildImportLines (w : World warmupTemplateData)
    (importPaths : gmap string string) (baseDir : string) : outcome (list importLine) :=
  obind (getGoModModuleName w baseDir) (fun modulePrefix =>
    Done (importLinesOf w importPaths modulePrefix)).

(** What [generateWarmupCode] hands to the template *)
Definition templateData (imports : list importLine) (calls : list warmupCall)
    : warmupTemplateData :=
  {| tpl_Imports := Slices.SortFunc imports cmpImport;
     tpl_WarmupCalls := Slices.SortFunc calls cmpCall |}.

Definition generateWarmupCode (w : World warmupTemplateData) (dir : string)
    (imports : list importLine) (calls : list warmupCall) : M unit :=
  renderAndWrite w (templateData imports calls) (filepath_Join w dir outputName).

Definition generate (w : World warmupTemplateData) (dir : string) : M unit :=
  bind (lift (scanGoFiles w dir)) (fun scanned =>
    let '(rawCalls, importPaths, _) := scanned in
    bind (lift (buildImportLines w importPaths dir)) (fun imports =>
      let uniqueCalls := deduplicateCalls w rawCalls in
      generateWarmupCode w dir imports uniqueCalls)).

(** A whole run, from no event at all. *)
Definition run (w : World warmupTemplateData) (dir : string) : outcome unit * list event :=
  generate w dir [].

End VariantA.

(** ** The per-package generator kept in common_utils/map_slice_trans.go *)
Module VariantB.
Import Ast Gen Scan.

Record packageData : Type := {
  PackageName : string;
  Dir : string;
  RawCalls : list rawCall;
  ImportPaths : gmap string string
}.

Record warmupTemplateData : Type := {
  tpl_PackageName : string;
  tpl_Imports : list importLine;
  tpl_WarmupCalls : list warmupCall
}.

Definition skippedName : string := "warmup.gen.go".
Definition outputName : string := "warmup.gen.go".

Definition buildFunctionCall (currentPkg : string) (funcDecl : FuncDecl) : outcome string :=
  match Recv funcDecl with
  | None => Done (Name funcDecl)
  | Some [] => Panicked
  | Some (recvType :: _) =>
      let '(structName, isPointer) :=
        match recvType with
        | Ident name => (name, false)
        | StarExpr (Ident name) => (name, true)
        | _ => (EmptyString, false)
        end in
      if isPointer
      then Done ("(*" ++ structName ++ ")." ++ Name funcDecl)%string
      else Done (structName ++ "." ++ Name funcDecl)%string
  end.

(** One round of [for _, decl := range node.Decls], with [path] for the
    file name of the position of the declaration, [funcPos.Filename];
    generic functions are passed over. *)
Definition scanDecl (w : World warmupTemplateData) (dir path pkgName : string)
    (importMap : gmap string string) (decl : Decl) : outcome (list rawCall) :=
  match decl with
  | FuncD funcDecl =>
      match Body funcDecl with
      | None => Done []
      | Some body =>
          match TypeParams funcDecl with
          | Some _ => Done []
          | None => scanBody w buildFunctionCall dir path pkgName importMap funcDecl body
          end
      end
  | OtherDecl => Done []
  end.

(** The same round for a declaration of the file parsed under [path]:
    the comments carry the file name of the position of the
    declaration. *)
Definition scanDeclOf (w : World warmupTemplateData) (dir path pkgName : string)
    (importMap : gmap string string) (decl : Decl) : outcome (list rawCall) :=
  match decl with
  | FuncD funcDecl => scanDecl w dir (funcPosFilename path funcDecl) pkgName importMap decl
  | OtherDecl => Done []
  end.

(** The walk function of [scanPackages], on the [pkgMap] it closes
    over.  The package record is reached through a pointer held in the
    map, so updating it is updating the map entry. *)
Definition visit (w : World warmupTemplateData) (dir : string)
    (pkgMap : gmap string packageData) (v : string * bool)
    : outcome (gmap string packageData) :=
  let '(path, err) := v in
  if err || negb (String.eqb (Filepath.Ext path) ".go")
         || String.eqb (Filepath.Base path) skippedName
  then Done pkgMap
  else
    match parser_ParseFile w path with
    | None => Done pkgMap
    | Some node =>
        if String.eqb (PkgName node) "main" then Done pkgMap
        else
          let pkgDir := filepath_Dir w path in
          let pkgName := PkgName node in
          let pkg :=
            match pkgMap !! pkgDir with
            | Some pkg => pkg
            | None => {| PackageName := pkgName; Dir := pkgDir;
                         RawCalls := []; ImportPaths := ∅ |}
            end in
          let relImportPath := filepath_Rel w dir pkgDir in
          let importPaths := <[pkgName := relImportPath]> (ImportPaths pkg) in
          let importMap := fileImportMap (Imports node) ∅ in
          obind (collect (scanDeclOf w dir path pkgName importMap) (Decls node))
                (fun found =>
                   Done (<[pkgDir := {| PackageName := PackageName pkg; Dir := Dir pkg;
                                        RawCalls := RawCalls pkg ++ found;
                                        ImportPaths := importPaths |}]> pkgMap))
    end.

Fixpoint walkFrom (w : World warmupTemplateData) (dir : string)
    (pkgMap : gmap string packageData) (visits : list (string * bool))
    : outcome (gmap string packageData) :=
  match visits with
  | [] => Done pkgMap
  | v :: rest => obind (visit w dir pkgMap v) (fun pkgMap' => walkFrom w dir pkgMap' rest)
  end.

Definition scanPackages (w : World warmupTemplateData) (dir : string)
    : outcome (list packageData) :=
  obind (walkFrom w dir ∅ (filepath_Walk w dir)) (fun pkgMap =>
    Done (map snd (range w pkgMap))).

Definition buildImportLines (w : World warmupTemplateData)
    (importPaths : gmap string string) (modulePrefix : string) : list importLine :=
  importLinesOf w importPaths modulePrefix.

Definition templateData (pkg : packageData) (imports : list importLine)
    (calls : list warmupCall) : warmupTemplateData :=
  {| tpl_PackageName := PackageName pkg;
     tpl_Imports := Slices.SortFunc imports cmpImport;
     tpl_WarmupCalls := Slices.SortFunc calls cmpCall |}.

Definition generateWarmupCode (w : World warmupTemplateData) (pkg : packageData)
    (imports : list importLine) (calls : list warmupCall) : M unit :=
  match Slices.SortFunc calls cmpCall with
  | [] => ret tt
  | _ => renderAndWrite w (templateData pkg imports calls)
                        (filepath_Join w (Dir pkg) outputName)
  end.

(** The body of the loop over the packages in [generate] *)
Definition generatePackage (w : World warmupTemplateData) (modulePrefix : string)
    (pkg : packageData) : M unit :=
  match RawCalls pkg with
  | [] => ret tt
  | _ =>
      let imports := buildImportLines w (ImportPaths pkg) modulePrefix in
      let uniqueCalls := deduplicateCalls w (RawCalls pkg) in
      generateWarmupCode w pkg imports uniqueCalls
  end.

Definition generate (w : World warmupTemplateData) (dir : string) : M unit :=
  bind (lift (scanPackages w dir)) (fun pkgs =>
    bind (lift (getGoModModuleName w dir)) (fun modulePrefix =>
      forEach pkgs (generatePackage w modulePrefix))).

Definition run (w : World warmupTemplateData) (dir : string) : outcome unit * list event :=
  generate w dir [].

End VariantB.

(** ** Runes *)
Module Utf8.

Definition byte (z : Z) : ascii := ascii_of_N (Z.to_N z).

(** [string(r)] for a rune [r]: its UTF-8 encoding, and the encoding of
    U+FFFD for a value that is no Unicode code point. *)
Definition encodeRune (r : Z) : string :=
  if ((r <? 0) || (1114111 <? r) || ((55296 <=? r) && (r <=? 57343)))%Z
  then String (byte 239) (String (byte 191) (String (byte 189) EmptyString))
  else if (r <=? 127)%Z then String (byte r) EmptyString
  else if (r <=? 2047)%Z then
    String (byte (Z.lor 192 (Z.shiftr r 6)))
      (String (byte (Z.lor 128 (Z.land r 63))) EmptyString)
  else if (r <=? 65535)%Z then
    String (byte (Z.lor 224 (Z.shiftr r 12)))
      (String (byte (Z.lor 128 (Z.land (Z.shiftr r 6) 63)))
         (String (byte (Z.lor 128 (Z.land r 63))) EmptyString))
  else
    String (byte (Z.lor 240 (Z.shiftr r 18)))
      (String (byte (Z.lor 128 (Z.land (Z.shiftr r 12) 63)))
         (String (byte (Z.lor 128 (Z.land (Z.shiftr r 6) 63)))
            (String (byte (Z.lor 128 (Z.land r 63))) EmptyString))).

(** [strings.ContainsRune(s, r)] for a valid rune [r]: a search for its
    encoding. *)
Definition ContainsRune (s : string) (r : Z) : bool :=
  GoStrings.Contains s (encodeRune r).

End Utf8.

(** ** common_utils/strings.go *)
Module Commonutils.

Definition RemoveFromStringRune (s : string) (charsToRemove : list Z) : string :=
  fold_left (fun s r => GoStrings.ReplaceAllEmpty s (Utf8.encodeRune r)) charsToRemove s.

End Commonutils.

(** ** The reflecting package *)
Module Reflecting.

(** [*runtime.Func]: what [Name()] and [Entry()] answer. *)
Record Func : Type := { fn_Name : string; fn_Entry : N }.

(** The program the probe runs in: [runtime.FuncForPC]. *)
Record Runtime : Type := { FuncForPC : N -> option Func }.

(** [pcCache], a [sync.Map] from program counters to names. *)
Abbreviation cache := (gmap N string).

Definition getLastPathElement (s : string) : string :=
  let parts := GoStrings.Split s "/"%char in
  if (0 <? length parts)%nat then List.last parts EmptyString else s.

(** The runes ['*'], ['('] and [')'] *)
Definition illegalRunes : list Z := [42; 40; 41]%Z.

Definition legalize (s : string) : string :=
  Commonutils.RemoveFromStringRune s illegalRunes.

(** [Name()] of a [runtime.Func] pointer, which answers the empty
    string on a nil receiver *)
Definition nameOf (fn : option Func) : string :=
  match fn with
  | Some f => fn_Name f
  | None => EmptyString
  end.

(** [GetCurrentFunc]; [frames skip] is what [runtime.Caller(skip)]
    reports at the place of the call, [None] for [ok == false]. *)
Definition GetCurrentFunc (rt : Runtime) (frames : Z -> option N) (c : cache)
    : string * cache :=
  match frames 1%Z with
  | None => (EmptyString, c)
  | Some pc =>
      match c !! pc with
      | Some cached => (cached, c)
      | None =>
          match FuncForPC rt pc with
          | None => (EmptyString, c)
          | Some fn =>
              let rawName := fn_Name fn in
              let funcName := legalize (getLastPathElement rawName) in
              (funcName, <[pc := funcName]> c)
          end
      end
  end.

(** [GetCurrentFuncDepth]; the [ok] of [runtime.Caller] is dropped and
    the program counter is zero when there is no such frame. *)
Definition GetCurrentFuncDepth (rt : Runtime) (frames : Z -> option N) (depth : Z)
    (c : cache) : string * cache :=
  let pc := default 0%N (frames depth) in
  match c !! pc with
  | Some name => (name, c)
  | None =>
      let fresh := legalize (getLastPathElement (nameOf (FuncForPC rt pc))) in
      match c !! pc with
      | Some name => (name, c)
      | None => (fresh, <[pc := fresh]> c)
      end
  end.

(** [GetFunctionName]; [ptr] is [reflect.ValueOf(f).Pointer()], [None]
    when that call panics (a value of a kind without a pointer). *)
Definition GetFunctionName (rt : Runtime) (ptr : option N) (c : cache)
    : option (string * cache) :=
  match ptr with
  | None => None
  | Some p =>
      match FuncForPC rt p with
      | None => Some (EmptyString, c)
      | Some fn =>
          let pc := fn_Entry fn in
          match c !! pc with
          | Some name => Some (name, c)
          | None =>
              let rawName := fn_Name fn in
              let name := legalize (getLastPathElement rawName) in
              Some (name, <[pc := name]> c)
          end
      end
  end.

(** A use of the probe *)
Inductive call : Type :=
| CallGetCurrentFunc (frames : Z -> option N)
| CallGetCurrentFuncDepth (frames : Z -> option N) (depth : Z)
| CallGetFunctionName (ptr : option N).

Definition exec (rt : Runtime) (cl : call) (c : cache) : option (string * cache) :=
  match cl with
  | CallGetCurrentFunc frames => Some (GetCurrentFunc rt frames c)
  | CallGetCurrentFuncDepth frames depth => Some (GetCurrentFuncDepth rt frames depth c)
  | CallGetFunctionName ptr => GetFunctionName rt ptr c
  end.

(** A sequence of uses, starting from the cache [c]; [None] when one of
    them panics. *)
Fixpoint execAll (rt : Runtime) (cls : list call) (c : cache)
    : option (list string * cache) :=
  match cls with
  | [] => Some ([], c)
  | cl :: rest =>
      match exec rt cl c with
      | None => None
      | Some (name, c') =>
          match execAll rt rest c' with
          | None => None
          | Some (names, c'') => Some (name :: names, c'')
          end
      end
  end.

(** A name free of the three runes *)
Definition legal (s : string) : Prop :=
  forall r, In r illegalRunes -> Utf8.ContainsRune s r = false.

(** Every name held by the cache is free of the three runes. *)
Definition cacheLegal (c : cache) : Prop :=
  forall pc name, c !! pc = Some name -> legal name.

(** The writes the three functions make to the shared map, each one
    atomic: [Store] of a freshly legalized name, and [LoadOrStore] of one,
    which keeps an entry that is already there. *)
Inductive cacheWrite : cache -> cache -> Prop :=
| write_Store (c : cache) (pc : N) (rawName : string) :
    cacheWrite c (<[pc := legalize (getLastPathElement rawName)]> c)
| write_LoadOrStore (c : cache) (pc : N) (rawName : string) :
    cacheWrite c (match c !! pc with
                  | Some _ => c
                  | None => <[pc := legalize (getLastPathElement rawName)]> c
                  end).

(** Any number of such writes, in any interleaving. *)
Inductive cacheWrites : cache -> cache -> Prop :=
| writes_none (c : cache) : cacheWrites c c
| writes_more (c c1 c2 : cache) : cacheWrite c c1 -> cacheWrites c1 c2 -> cacheWrites c c2.

End Reflecting.

(** ** What the matching rule is meant to accept *)
Module Matching.
Import Ast Gen.

(** The callee is [alias.GetCurrentFunc], bare or applied once more,
    and the import map sends [alias] to the probe's path. *)
Definition isProbeCallee (importMap : gmap string string) (f : node) : Prop :=
  exists alias : string,
    (f = SelectorExpr (Ident alias) "GetCurrentFunc" \/
     exists line args, f = CallExpr (SelectorExpr (Ident alias) "GetCurrentFunc") line args)
    /\ importMap !! alias = Some probePath.

(** The node is a call whose callee is accepted. *)
Definition isProbeCall (importMap : gmap string string) (n : node) : Prop :=
  exists f line args, n = CallExpr f line args /\ isProbeCallee importMap f.

(** The same test as a boolean, and the line of a call. *)
Definition matchesCall (importMap : gmap string string) (n : node) : bool :=
  match n with
  | CallExpr f _ _ => containsGetCurrentFunc f importMap
  | _ => false
  end.

Definition callLine (n : node) : Z :=
  match n with
  | CallExpr _ line _ => line
  | _ => 0%Z
  end.

(** The comments recorded for the expression [e], in the order of the
    raw call sites. *)
Definition commentsOf (e : string) (rawCalls : list rawCall) : list string :=
  map rc_Comment (List.filter (fun c => String.eqb (rc_Expr c) e) rawCalls).

(** The other way round: every entry is at least the ones after it. *)
Definition descending {E : Type} (cmp : E -> E -> Z) : relation E :=
  fun a b => (cmp b a <= 0)%Z.

(** The reference begins with the package name and a dot, bare or
    behind an opening parenthesis and a star. *)
Definition qualifiedBy (P ref : string) : Prop :=
  (exists rest, ref = (P ++ "." ++ rest)%string) \/
  (exists rest, ref = ("(*" ++ P ++ "." ++ rest)%string).

(** Ascending for a three-way comparison. *)
Definition ascending {E : Type} (cmp : E -> E -> Z) (l : list E) : Prop :=
  StronglySorted (fun a b => (cmp a b <= 0)%Z) l.

(** Which declarations a generator looks into: all of them, or those
    without type parameters. *)
Definition anyDecl (fd : FuncDecl) : Prop := True.
Definition nonGeneric (fd : FuncDecl) : Prop := TypeParams fd = None.

(** The raw call site [c] stems from a use of the probe in a function of
    the file [file], parsed under [path]: a node in the body of one of
    its declarations that the generator looks into is a call that the
    import map of this very file resolves to the probe, the expression
    is the reference built for that declaration, and the comment names
    the file of the position of the declaration, relative to [dir], and
    the line of that call. *)
Definition foundIn {T : Type} (w : World T) (build : string -> FuncDecl -> outcome string)
    (scanned : FuncDecl -> Prop) (dir path : string) (file : File) (c : rawCall) : Prop :=
  exists fd body n,
    In (FuncD fd) (Decls file) /\ scanned fd /\ Body fd = Some body /\
    In n (Inspect body) /\
    isProbeCall (fileImportMap (Imports file) ∅) n /\
    build (PkgName file) fd = Done (rc_Expr c) /\
    rc_Comment c = (filepath_Rel w dir (funcPosFilename path fd) ++ ":"
                    ++ GoStrings.itoa (callLine n))%string.

(** What makes the analysis pass over a file: it does not parse, or it
    declares the main package. *)
Definition passedOver {T : Type} (w : World T) (path : string) : Prop :=
  parser_ParseFile w path = None \/
  exists node, parser_ParseFile w path = Some node /\ PkgName node = "main".

(** The declaration with its type parameters replaced *)
Definition withTypeParams (fd : FuncDecl) (tp : option (list node)) : FuncDecl :=
  {| Recv := Recv fd; Name := Name fd; TypeParams := tp; Body := Body fd;
     PosFilename := PosFilename fd |}.

Definition freeFunc (F : string) (tp : option (list node)) (body : option node) : FuncDecl :=
  {| Recv := None; Name := F; TypeParams := tp; Body := body; PosFilename := None |}.

Definition valueMethod (T M : string) (more : list node) (body : option node) : FuncDecl :=
  {| Recv := Some (Ident T :: more); Name := M; TypeParams := None; Body := body;
     PosFilename := None |}.

Definition pointerMethod (T M : string) (more : list node) (body : option node) : FuncDecl :=
  {| Recv := Some (StarExpr (Ident T) :: more); Name := M; TypeParams := None; Body := body;
     PosFilename := None |}.

End Matching.

(** ** Concrete worlds and inputs for the examples *)
Module Samples.
Import Ast Gen.

(** Two iteration orders: the canonical listing, and its reverse. *)
Definition inOrder (V : Type) (l : list (string * V)) : list (string * V) := l.
Definition backwards (V : Type) (l : list (string * V)) : list (string * V) := rev l.

(** A scan rooted at [.] of a tree whose source files all sit in the
    directory [pkg]: on those paths [filepath.Dir] answers [pkg],
    [filepath.Rel] from the root leaves a path as it is and
    [filepath.Join] with the root gives the bare file name.  Every
    step after the template succeeds; the template renders [text]. *)
Definition world {T : Type} (visits : list (string * bool))
    (parse : string -> option File) (gomod : option string)
    (order : forall V : Type, list (string * V) -> list (string * V))
    (text : T -> option string) : World T :=
  {| filepath_Walk := fun _ => visits;
     parser_ParseFile := parse;
     filepath_Dir := fun _ => "pkg";
     filepath_Rel := fun _ target => target;
     filepath_Join := fun d name =>
       if String.eqb d "." then name else (d ++ "/" ++ name)%string;
     os_ReadFile := fun name => if String.eqb name "go.mod" then gomod else None;
     rangeOrder := order;
     execTemplate := text;
     format_Source := fun src => Some src;
     os_WriteFile := fun _ _ => true;
     goimports := fun _ => true |}.

Definition goMod : string :=
  ("module example.com/m" ++ String (ascii_of_nat 10) "go 1.24" ++ String (ascii_of_nat 10) "")%string.

(** [reflecting.GetCurrentFunc()] at the given line *)
Definition probeCall (line : Z) : node :=
  CallExpr (SelectorExpr (Ident "reflecting") "GetCurrentFunc") line [].

Definition probeImport : ImportSpec :=
  {| imp_Name := None;
     imp_Path_Value := (String quote probePath ++ String quote "")%string |}.

(** Two uses of the probe in one function, at lines 9 and 10 *)
Definition twoCalls : list rawCall :=
  [ {| rc_Expr := "pkg.F"; rc_Comment := "pkg/x.go:9" |};
    {| rc_Expr := "pkg.F"; rc_Comment := "pkg/x.go:10" |} ].

Definition threeCalls : list rawCall :=
  [ {| rc_Expr := "pkg.G"; rc_Comment := "pkg/x.go:3" |};
    {| rc_Expr := "pkg.F"; rc_Comment := "pkg/x.go:9" |};
    {| rc_Expr := "pkg.G"; rc_Comment := "pkg/y.go:4" |} ].

(** A package and its external test package share a directory. *)
Definition sharedDir : gmap string string :=
  <["foo" := "pkg"]> (<["foo_test" := "pkg"]> ∅).

Definition onePackage : gmap string string := <["foo" := "pkg"]> ∅.

(** [package pkg], importing the reflecting package, with the generic
    function [F] that uses the probe at line 9 *)
Definition probedFile : File :=
  {| PkgName := "pkg";
     Imports := [probeImport];
     Decls := [ FuncD {| Recv := None; Name := "F"; TypeParams := Some [Ident "K"];
                         Body := Some (OtherNode [probeCall 9]); PosFilename := None |} ] |}.

(** [package pkg] with one function that calls nothing *)
Definition quietFile : File :=
  {| PkgName := "pkg";
     Imports := [];
     Decls := [ FuncD {| Recv := None; Name := "G"; TypeParams := None;
                         Body := Some (OtherNode []); PosFilename := None |} ] |}.

(** [package pkg] with the method [M] on a pointer to [T], which uses
    the probe at line 5 *)
Definition methodFile : File :=
  {| PkgName := "pkg";
     Imports := [probeImport];
     Decls := [ FuncD {| Recv := Some [StarExpr (Ident "T")]; Name := "M"; TypeParams := None;
                         Body := Some (OtherNode [probeCall 5]); PosFilename := None |} ] |}.

(** [package main] *)
Definition mainFile : File :=
  {| PkgName := "main"; Imports := [probeImport];
     Decls := [ FuncD {| Recv := None; Name := "main"; TypeParams := None;
                         Body := Some (OtherNode [probeCall 3]); PosFilename := None |} ] |}.

(** A tree with the one source file [pkg/x.go], holding [file]. *)
Definition oneFileTree (T : Type) (file : File) (gomod : option string) : World T :=
  world [("pkg/x.go", false)] (fun _ => Some file) gomod inOrder
        (fun _ => Some "package warmup").

(** A tree in which [pkg/warmup.gen.go] is found, holding [file]. *)
Definition rerunTree (T : Type) (file : File) : World T :=
  world [("pkg/warmup.gen.go", false)] (fun _ => Some file) (Some goMod) inOrder
        (fun _ => Some "package warmup").

(** A tree with a file that does not parse, a file of the main package
    and then [pkg/x.go]. *)
Definition mixedTree (T : Type) : World T :=
  world [("pkg/broken.go", false); ("pkg/main.go", false); ("pkg/x.go", false)]
        (fun path => if String.eqb path "pkg/broken.go" then None
                     else if String.eqb path "pkg/main.go" then Some mainFile
                     else Some methodFile)
        (Some goMod) inOrder (fun _ => Some "package warmup").

(** A program with the method [M] on a pointer to [T] of package
    [github.com/x/pkg], entered at 96. *)
Definition runtime : Reflecting.Runtime :=
  {| Reflecting.FuncForPC := fun pc =>
       if ((96 <=? pc) && (pc <? 128))%N
       then Some {| Reflecting.fn_Name := "github.com/x/pkg.(*T).M"; Reflecting.fn_Entry := 96%N |}
       else None |}.

(** The probe called from within that method, at 100 *)
Definition inMethod (skip : Z) : option N :=
  if (skip =? 1)%Z then Some 100%N else None.

Definition probeUses : list Reflecting.call :=
  [ Reflecting.CallGetCurrentFunc inMethod;
    Reflecting.CallGetCurrentFuncDepth inMethod 1;
    Reflecting.CallGetFunctionName (Some 96%N);
    Reflecting.CallGetCurrentFunc inMethod ].

(** [package foo] with the function [F], which uses the probe at line 7,
    and its external test package [foo_test], which does not *)
Definition fooFile : File :=
  {| PkgName := "foo";
     Imports := [probeImport];
     Decls := [ FuncD {| Recv := None; Name := "F"; TypeParams := None;
                         Body := Some (OtherNode [probeCall 7]); PosFilename := None |} ] |}.

Definition fooTestFile : File :=
  {| PkgName := "foo_test"; Imports := []; Decls := [OtherDecl] |}.

(** A template that lists the aliases of the imports in the order in
    which they are handed over. *)
Definition aliasesOf (imports : list importLine) : string :=
  fold_right (fun line acc => (Alias line ++ ";" ++ acc)%string) EmptyString imports.

(** The directory [pkg] with [a.go] of package [foo] and [a_test.go] of
    package [foo_test], under the given iteration order and template. *)
Definition sharedDirTree {T : Type}
    (order : forall V : Type, list (string * V) -> list (string * V))
    (text : T -> option string) : World T :=
  world [("pkg/a.go", false); ("pkg/a_test.go", false)]
        (fun path => if String.eqb path "pkg/a.go" then Some fooFile else Some fooTestFile)
        (Some goMod) order text.

Definition emptyTree (T : Type) (order : forall V : Type, list (string * V) -> list (string * V))
    : World T :=
  world [] (fun _ => None) (Some goMod) order (fun _ => Some "package warmup").

End Samples.

(** ** The container helpers of common_utils/map_slice_trans.go

    A Go map with keys of a comparable type is a [gmap]; [order] is the
    order in which one [range] over a map yields its entries, applied to
    a canonical listing of them.  A Go [error] is [None] for [nil].  The
    functions that return a map or a slice together with an error return
    the pair as it is: [None] in the first place is the [nil] map or
    slice that comes with an error. *)
Module Containers.

Section Maps.
Context {K : Type} `{Countable K} {RK : Type} `{Countable RK} {V RV E : Type}.
Variable order : list (K * V) -> list (K * V).

(** [for k, v := range m] *)
Definition rangeOf (m : gmap K V) : list (K * V) := order (map_to_list m).

Definition TransMapByValue (m : gmap K V) (fun_ : V -> RV) : gmap K RV :=
  fold_left (fun res kv => <[fst kv := fun_ (snd kv)]> res) (rangeOf m) ∅.

Fixpoint byValueWithErrFrom (f : V -> RV * option E) (entries : list (K * V))
    (res : gmap K RV) : option (gmap K RV) * option E :=
  match entries with
  | [] => (Some res, None)
  | (k, v) :: rest =>
      let '(tgt, err) := f v in
      match err with
      | Some e => (None, Some e)
      | None => byValueWithErrFrom f rest (<[k := tgt]> res)
      end
  end.

Definition TransMapByValueWithErr (m : gmap K V) (f : V -> RV * option E)
    : option (gmap K RV) * option E :=
  byValueWithErrFrom f (rangeOf m) ∅.

Definition TransMap (m : gmap K V) (f : K -> V -> RK * RV) : gmap RK RV :=
  fold_left (fun res kv =>
               let '(tgtKey, tgtValue) := f (fst kv) (snd kv) in
               <[tgtKey := tgtValue]> res)
            (rangeOf m) ∅.

Fixpoint withErrFrom (f : K -> V -> RK * RV * option E) (entries : list (K * V))
    (res : gmap RK RV) : option (gmap RK RV) * option E :=
  match entries with
  | [] => (Some res, None)
  | (k, v) :: rest =>
      let '(tgtKey, tgtValue, err) := f k v in
      match err with
      | Some e => (None, Some e)
      | None => withErrFrom f rest (<[tgtKey := tgtValue]> res)
      end
  end.

Definition TransMapWithErr (m : gmap K V) (f : K -> V -> RK * RV * option E)
    : option (gmap RK RV) * option E :=
  withErrFrom f (rangeOf m) ∅.

Definition TransMapWithSkip (m : gmap K V) (f : K -> V -> RK * RV * bool)
    : gmap RK RV * option E :=
  (fold_left (fun res kv =>
                let '(tgtKey, tgtValue, skip) := f (fst kv) (snd kv) in
                if skip then res else <[tgtKey := tgtValue]> res)
             (rangeOf m) ∅,
   None).

End Maps.

Section Slices.
Context {T K E : Type}.

Definition TransSlice (s : list T) (f : T -> K) : list K :=
  fold_left (fun res item => res ++ [f item]) s [].

Fixpoint sliceWithErrFrom (f : T -> K * option E) (s : list T) (res : list K)
    : option (list K) * option E :=
  match s with
  | [] => (Some res, None)
  | item :: rest =>
      let '(ni, err) := f item in
      match err with
      | Some e => (None, Some e)
      | None => sliceWithErrFrom f rest (res ++ [ni])
      end
  end.

Definition TransSliceWithErr (s : list T) (f : T -> K * option E)
    : option (list K) * option E :=
  sliceWithErrFrom f s [].

Definition TransSliceWithSkip (s : list T) (extractFun : T -> K * bool) : list K :=
  fold_left (fun res item =>
               let '(tgt, skip) := extractFun item in
               if skip then res else res ++ [tgt])
            s [].

End Slices.

End Containers.

(** ** The iterator helpers of common_utils/map_slice_trans_go124.go

    An [iter.Seq[V]] is a function that is handed [yield] and calls it
    for one value after the other until it answers [false].  What
    [yield] does besides answering is a change of a state of the
    consumer's choosing, which the sequence threads through the calls.
    In the body of a [range] over such a function, [return] makes the
    function handed to the sequence answer [false], [continue] makes it
    answer [true]. *)
Module Iter.

Definition Seq (V : Type) : Type :=
  forall S : Type, (V -> S -> bool * S) -> S -> S.

Definition Seq2 (K V : Type) : Type :=
  forall S : Type, (K -> V -> S -> bool * S) -> S -> S.

(** [slices.Values(l)] *)
Fixpoint Values {V : Type} (l : list V) (S : Type) (yield : V -> S -> bool * S) (st : S) : S :=
  match l with
  | [] => st
  | x :: rest =>
      let '(more, st') := yield x st in
      if more then Values rest S yield st' else st'
  end.

(** A sequence of pairs that yields the given entries in order;
    [maps.All(m)] is the one of the entries of [m] in the order of one
    iteration. *)
Fixpoint Pairs {K V : Type} (l : list (K * V)) (S : Type)
    (yield : K -> V -> S -> bool * S) (st : S) : S :=
  match l with
  | [] => st
  | (k, v) :: rest =>
      let '(more, st') := yield k v st in
      if more then Pairs rest S yield st' else st'
  end.

(** [slices.Collect(seq)] *)
Definition Collect {V : Type} (seq : Seq V) : list V :=
  seq (list V) (fun v acc => (true, acc ++ [v])) [].

(** [maps.Collect(seq)] *)
Definition Collect2 {K : Type} `{Countable K} {V : Type} (seq : Seq2 K V) : gmap K V :=
  seq (gmap K V) (fun k v acc => (true, <[k := v]> acc)) ∅.

Definition TransMapByValueSeq {K V R : Type} (m : Seq2 K V) (fun_ : V -> R) : Seq2 K R :=
  fun S yield st => m S (fun k v st' => yield k (fun_ v) st') st.

Definition TransMapSeq {K RK V RV : Type} (m : Seq2 K V) (f : K -> V -> RK * RV) : Seq2 RK RV :=
  fun S yield st =>
    m S (fun k v st' => let '(tgtKey, tgtValue) := f k v in yield tgtKey tgtValue st') st.

Definition TransMapWithSkipSeq {K RK V RV : Type} (m : Seq2 K V)
    (f : K -> V -> RK * RV * bool) : Seq2 RK RV :=
  fun S yield st =>
    m S (fun k v st' =>
           let '(tgtKey, tgtValue, skip) := f k v in
           if skip then (true, st') else yield tgtKey tgtValue st') st.

Definition TransSliceSeq {T K : Type} (s : Seq T) (f : T -> K) : Seq K :=
  fun S yield st => s S (fun item st' => yield (f item) st') st.

Definition TransSliceWithSkipSeq {T K : Type} (s : Seq T) (extractFun : T -> K * bool) : Seq K :=
  fun S yield st =>
    s S (fun item st' =>
           let '(tgt, skip) := extractFun item in
           if skip then (true, st') else yield tgt st') st.

End Iter.

(** ** Notions used to state further properties *)
Module Extra.
Import Ast Gen.

(** The entries of [l] put into [acc] one after the other *)
Definition insertAll {K : Type} `{Countable K} {V : Type} (l : list (K * V)) (acc : gmap K V)
    : gmap K V :=
  fold_left (fun res kv => <[fst kv := snd kv]> res) l acc.

(** The entries that an error-returning transformation lets through *)
Definition succeeds {A B E : Type} (f : A -> B * option E) (a : A) : Prop :=
  snd (f a) = None.

(** [strings.Join(parts, sep)] for a separator of one byte *)
Fixpoint joinWith (sep : ascii) (parts : list string) : string :=
  match parts with
  | [] => EmptyString
  | [x] => x
  | x :: rest => (x ++ String sep (joinWith sep rest))%string
  end.

(** The bytes of [s] for which [p] answers [true], in their order *)
Fixpoint keep (p : ascii -> bool) (s : string) : string :=
  match s with
  | EmptyString => EmptyString
  | String a s' => if p a then String a (keep p s') else keep p s'
  end.

(** The byte is not the star nor a parenthesis. *)
Definition allowed (a : ascii) : bool :=
  negb (Ascii.eqb a "*"%char || Ascii.eqb a "("%char || Ascii.eqb a ")"%char).

(** The name the probe computes for a program counter when it has to
    ask the run time. *)
Definition freshName (rt : Reflecting.Runtime) (pc : N) : string :=
  Reflecting.legalize
    (Reflecting.getLastPathElement (Reflecting.nameOf (Reflecting.FuncForPC rt pc))).

(** What a use of the probe answers when nothing is cached; [None] for
    the panic of [reflect.Value.Pointer]. *)
Definition answer (rt : Reflecting.Runtime) (cl : Reflecting.call) : option string :=
  match cl with
  | Reflecting.CallGetCurrentFunc frames =>
      Some (match frames 1%Z with
            | None => EmptyString
            | Some pc => freshName rt pc
            end)
  | Reflecting.CallGetCurrentFuncDepth frames depth =>
      Some (freshName rt (default 0%N (frames depth)))
  | Reflecting.CallGetFunctionName None => None
  | Reflecting.CallGetFunctionName (Some p) =>
      Some (match Reflecting.FuncForPC rt p with
            | None => EmptyString
            | Some fn => Reflecting.legalize (Reflecting.getLastPathElement (Reflecting.fn_Name fn))
            end)
  end.

(** Every cached name is the one the run time would give. *)
Definition coherent (rt : Reflecting.Runtime) (c : gmap N string) : Prop :=
  forall pc name, c !! pc = Some name -> name = freshName rt pc.

(** The entry address of a function belongs to a function of the same
    name. *)
Definition entriesNamed (rt : Reflecting.Runtime) : Prop :=
  forall p fn, Reflecting.FuncForPC rt p = Some fn ->
    Reflecting.nameOf (Reflecting.FuncForPC rt (Reflecting.fn_Entry fn)) = Reflecting.fn_Name fn.

(** The walk hands [path] over without an error and the file there is
    analysed: a Go file not named [skipped] that parses and does not
    declare the main package. *)
Definition analysed {T : Type} (w : Gen.World T) (skipped dir path : string) (file : Ast.File)
    : Prop :=
  In (path, false) (Gen.filepath_Walk w dir) /\
  Filepath.Ext path = ".go" /\ Filepath.Base path <> skipped /\
  Gen.parser_ParseFile w path = Some file /\ Ast.PkgName file <> "main".

(** The raw call site recorded for the call [n] in a function whose
    reference is [ref] and whose position has the file name [path]. *)
Definition siteOf {T : Type} (w : Gen.World T) (dir path ref : string) (n : Ast.node)
    : Gen.rawCall :=
  {| Gen.rc_Expr := ref;
     Gen.rc_Comment := (Gen.filepath_Rel w dir path ++ ":"
                        ++ GoStrings.itoa (Matching.callLine n))%string |}.

(** The call [n] sits in the body of the declaration [fd] of [file] and
    the imports of [file] resolve it to the probe. *)
Definition usesProbe (file : Ast.File) (fd : Ast.FuncDecl) (n : Ast.node) : Prop :=
  exists body,
    In (Ast.FuncD fd) (Ast.Decls file) /\ Ast.Body fd = Some body /\
    In n (Ast.Inspect body) /\
    Matching.matchesCall (Gen.fileImportMap (Ast.Imports file) ∅) n = true.

(** Everything the first generator's scan holds stems from a file that
    was analysed: each raw call site from a use of the probe in it, each
    package name from its package clause, each alias from its imports. *)
Definition scanSound (w : Gen.World VariantA.warmupTemplateData) (dir : string)
    (acc : list Gen.rawCall * gmap string string * gmap string string) : Prop :=
  let '(rc, ip, im) := acc in
  (forall c, In c rc ->
     exists path file, analysed w VariantA.skippedName dir path file /\
       Matching.foundIn w VariantA.buildFunctionCall Matching.anyDecl dir path file c) /\
  (forall k rel, ip !! k = Some rel ->
     exists path file, analysed w VariantA.skippedName dir path file /\
       Ast.PkgName file = k /\ rel = Gen.filepath_Rel w dir (Gen.filepath_Dir w path)) /\
  (forall alias p, im !! alias = Some p ->
     exists path file, analysed w VariantA.skippedName dir path file /\
       Gen.fileImportMap (Ast.Imports file) ∅ !! alias = Some p).


(** The package record a visit of the second generator works on: the
    one held for the directory, or a new one named after the file. *)
Definition packageAt (pkgMap : gmap string VariantB.packageData) (pkgDir pkgName : string)
    : VariantB.packageData :=
  match pkgMap !! pkgDir with
  | Some pkg => pkg
  | None => {| VariantB.PackageName := pkgName; VariantB.Dir := pkgDir;
               VariantB.RawCalls := []; VariantB.ImportPaths := ∅ |}
  end.

(** Every package record sits under its own directory and holds only
    what analysed files of that directory give. *)
Definition packagesSound (w : Gen.World VariantB.warmupTemplateData) (dir : string)
    (pkgMap : gmap string VariantB.packageData) : Prop :=
  forall d pkg, pkgMap !! d = Some pkg ->
    VariantB.Dir pkg = d /\
    (exists path file, analysed w VariantB.skippedName dir path file /\
       Gen.filepath_Dir w path = d /\ Ast.PkgName file = VariantB.PackageName pkg) /\
    (forall c, In c (VariantB.RawCalls pkg) ->
       exists path file, analysed w VariantB.skippedName dir path file /\
         Gen.filepath_Dir w path = d /\
         Matching.foundIn w VariantB.buildFunctionCall Matching.nonGeneric dir path file c) /\
    (forall k rel, VariantB.ImportPaths pkg !! k = Some rel ->
       rel = Gen.filepath_Rel w dir d /\
       exists path file, analysed w VariantB.skippedName dir path file /\
         Gen.filepath_Dir w path = d /\ Ast.PkgName file = k).


(** The byte is the encoding of one of the runes [cs]. *)
Definition removed (cs : list Z) (a : ascii) : bool :=
  existsb (fun r => Ascii.eqb a (Utf8.byte r)) cs.

(** The receiver type is a type name or a pointer to a type name. *)
Definition plainReceiver (recvType : Ast.node) : bool :=
  match recvType with
  | Ast.Ident _ => true
  | Ast.StarExpr (Ast.Ident _) => true
  | _ => false
  end.

(** The path an import names, and the name it can be used under: its
    local name if it has one, else the last segment of the path. *)
Definition pathOf (imp : Ast.ImportSpec) : string :=
  GoStrings.Trim (Ast.imp_Path_Value imp) Gen.quote.

Definition aliasOf (imp : Ast.ImportSpec) : string :=
  match Ast.imp_Name imp with
  | Some name => name
  | None => List.last (GoStrings.Split (pathOf imp) "/"%char) EmptyString
  end.

(** The deduplicated calls spelled out again, one raw call site for
    each comment. *)
Definition expand (calls : list Gen.warmupCall) : list Gen.rawCall :=
  flat_map (fun wc => map (fun cm => {| Gen.rc_Expr := Gen.Expr wc; Gen.rc_Comment := cm |})
                          (Gen.Comments wc))
           calls.

End Extra.

(** ** More sample inputs *)
Module Cases.
Import Ast Gen.

(** Two people and their ages *)
Definition ages : gmap string nat := <["ann" := 31]> (<["bob" := 48]> ∅).

(** An iteration that hands the entries over last first *)
Definition lastFirst (l : list (string * nat)) : list (string * nat) := rev l.

(** Halving, which fails on an odd number *)
Definition halve (v : nat) : nat * option string :=
  (Nat.div2 v, if Nat.even v then None else Some "odd"%string).

(** An entry filed under the first letter of its key *)
Definition byInitial (k : string) (v : nat) : string * nat := (String.substring 0 1 k, v).

Definition byInitialEven (k : string) (v : nat) : string * nat * option string :=
  (String.substring 0 1 k, v, if Nat.even v then None else Some "odd"%string).

Definition byInitialSkipOdd (k : string) (v : nat) : string * nat * bool :=
  (String.substring 0 1 k, v, Nat.odd v).

(** The method [M] of [Samples.methodFile] *)
Definition methodM : FuncDecl :=
  {| Recv := Some [StarExpr (Ident "T")]; Name := "M"; TypeParams := None;
     Body := Some (OtherNode [Samples.probeCall 5]); PosFilename := None |}.

(** What the scans find in the tree of [Samples.methodFile] *)
Definition methodSite : rawCall := {| rc_Expr := "(*pkg.T).M"; rc_Comment := "pkg/x.go:5" |}.

Definition methodPackage : VariantB.packageData :=
  {| VariantB.PackageName := "pkg"; VariantB.Dir := "pkg";
     VariantB.RawCalls := [ {| rc_Expr := "(*T).M"; rc_Comment := "pkg/x.go:5" |} ];
     VariantB.ImportPaths := <["pkg" := "pkg"]> ∅ |}.

(** A tree with the two directories [a] and [b], one source file in
    each, both using the probe; the template writes the package clause
    and [fixer] stands for the import fixer. *)
Definition siblings (fixer : string -> bool) : World VariantB.warmupTemplateData :=
  {| filepath_Walk := fun _ => [("a/x.go", false); ("b/y.go", false)];
     parser_ParseFile := fun path =>
       if String.eqb path "a/x.go" then Some Samples.fooFile else Some Samples.methodFile;
     filepath_Dir := fun path => if String.eqb path "a/x.go" then "a" else "b";
     filepath_Rel := fun _ target => target;
     filepath_Join := fun d name =>
       if String.eqb d "." then name else (d ++ "/" ++ name)%string;
     os_ReadFile := fun name => if String.eqb name "go.mod" then Some Samples.goMod else None;
     rangeOrder := Samples.inOrder;
     execTemplate := fun data => Some ("package " ++ VariantB.tpl_PackageName data)%string;
     format_Source := fun src => Some src;
     os_WriteFile := fun _ _ => true;
     goimports := fixer |}.

(** A fixer that works in the directory [a] alone *)
Definition fixesA (out : string) : bool := String.eqb out "a/warmup.gen.go".

Definition packageA : VariantB.packageData :=
  {| VariantB.PackageName := "foo"; VariantB.Dir := "a";
     VariantB.RawCalls := [ {| rc_Expr := "F"; rc_Comment := "a/x.go:7" |} ];
     VariantB.ImportPaths := <["foo" := "a"]> ∅ |}.

Definition packageB : VariantB.packageData :=
  {| VariantB.PackageName := "pkg"; VariantB.Dir := "b";
     VariantB.RawCalls := [ {| rc_Expr := "(*T).M"; rc_Comment := "b/y.go:5" |} ];
     VariantB.ImportPaths := <["pkg" := "b"]> ∅ |}.

(** The method [M] on the generic receiver type [T[K]] and on a pointer
    to it; an index expression is a node of another kind. *)
Definition genericReceiver : node := OtherNode [Ident "T"; Ident "K"].

Definition onGenericValue : FuncDecl :=
  {| Recv := Some [genericReceiver]; Name := "M"; TypeParams := None;
     Body := None; PosFilename := None |}.

Definition onGenericPointer : FuncDecl :=
  {| Recv := Some [StarExpr genericReceiver]; Name := "M"; TypeParams := None;
     Body := None; PosFilename := None |}.

(** [package pkg] whose function [F] stands under a line directive that
    names [pkg/gen/y.go], and uses the probe at what is line 101 there *)
Definition directedFile : File :=
  {| PkgName := "pkg";
     Imports := [Samples.probeImport];
     Decls := [ FuncD {| Recv := None; Name := "F"; TypeParams := None;
                         Body := Some (OtherNode [Samples.probeCall 101]);
                         PosFilename := Some "pkg/gen/y.go"%string |} ] |}.

(** What the scans find in the tree of [directedFile] *)
Definition directedSite : rawCall :=
  {| rc_Expr := "pkg.F"; rc_Comment := "pkg/gen/y.go:101" |}.

Definition directedPackage : VariantB.packageData :=
  {| VariantB.PackageName := "pkg"; VariantB.Dir := "pkg";
     VariantB.RawCalls := [ {| rc_Expr := "F"; rc_Comment := "pkg/gen/y.go:101" |} ];
     VariantB.ImportPaths := <["pkg" := "pkg"]> ∅ |}.

End Cases.

(** * Properties *)

(** ** Callable references *)
Section CallableReference.
Import Ast Gen Matching.

Lemma shifted_copy_head (P X Y : string) (a b : ascii) :
  String a (String b (P ++ X)) = (P ++ Y)%string ->
  exists Y', Y = String a Y' \/ Y = String b Y'.
Proof.
  revert a b. induction P as [|c P IH]; intros a b H; simpl in H.
  - exists (String b X). left. symmetry. exact H.
  - injection H as Hc Hrest. subst c.
    destruct (IH b a Hrest) as [Y' [HY | HY]]; exists Y'; [right | left]; exact HY.
Qed.

Lemma pointer_form_differs (P X Y : string) :
  ("(*" ++ P ++ X)%string <> (P ++ "." ++ Y)%string.
Proof.
  intros H.
  destruct (shifted_copy_head P X ("." ++ Y)%string "("%char "*"%char H) as [Y' [E | E]];
    discriminate E.
Qed.

Lemma first_generator_qualifies (P : string) (fd : FuncDecl) (ref : string) :
  VariantA.buildFunctionCall P fd = Done ref -> qualifiedBy P ref.
Proof.
  unfold VariantA.buildFunctionCall.
  destruct (Recv fd) as [[|recvType rest]|].
  - discriminate.
  - destruct recvType as [name | X sel | f line args | X | cs];
      try (intros [= <-]; left; eexists; reflexivity).
    destruct X as [name | X' sel | f line args | X' | cs];
      intros [= <-]; first [right; eexists; reflexivity | left; eexists; reflexivity].
  - intros [= <-]. left. eexists. reflexivity.
Qed.

(** C2, as the code has it.  The generator of cmd/tools/warmup builds a
    package-qualified reference: [P.F] for a free function, [P.T.M] for
    a method whose receiver type is the type name [T], and for a method
    whose receiver type is a pointer to the type name [T] it builds [P.T]
    with a star in front, in parentheses, before [.M].  The per-package
    generator builds the same three shapes without the package: [F],
    [T.M], and the starred [T] in parentheses before [.M].  Whatever the
    declaration, a reference the first generator builds begins with the
    package name.  For these receivers, in either generator, the
    reference of a pointer-receiver method differs from the reference of
    every value-receiver method on the same type name.  For a first
    receiver type of any other kind (a generic receiver type, a pointer
    to one) the type name stays empty and no star is written: the first
    generator answers the package name, two dots and the method name,
    the per-package one a dot and the method name, so that the
    references of two such methods of one name are the same, pointer or
    not.  A receiver list without a field makes either one panic, and
    nothing else does. *)
Theorem C2_callable_reference_forms :
  forall (P F T M M' : string) tp more more' body body',
    VariantA.buildFunctionCall P (freeFunc F tp body) = Done (P ++ "." ++ F)%string /\
    VariantA.buildFunctionCall P (valueMethod T M more body)
      = Done (P ++ "." ++ T ++ "." ++ M)%string /\
    VariantA.buildFunctionCall P (pointerMethod T M more body)
      = Done ("(*" ++ P ++ "." ++ T ++ ")." ++ M)%string /\
    VariantB.buildFunctionCall P (freeFunc F tp body) = Done F /\
    VariantB.buildFunctionCall P (valueMethod T M more body) = Done (T ++ "." ++ M)%string /\
    VariantB.buildFunctionCall P (pointerMethod T M more body)
      = Done ("(*" ++ T ++ ")." ++ M)%string /\
    VariantA.buildFunctionCall P (pointerMethod T M more body)
      <> VariantA.buildFunctionCall P (valueMethod T M' more' body') /\
    VariantB.buildFunctionCall P (pointerMethod T M more body)
      <> VariantB.buildFunctionCall P (valueMethod T M' more' body') /\
    (forall fd ref, VariantA.buildFunctionCall P fd = Done ref -> qualifiedBy P ref) /\
    (forall fd recvType rest,
        Recv fd = Some (recvType :: rest) -> Extra.plainReceiver recvType = false ->
        VariantA.buildFunctionCall P fd = Done (P ++ ".." ++ Name fd)%string /\
        VariantB.buildFunctionCall P fd = Done ("." ++ Name fd)%string) /\
    (forall fd fd' recvType recvType' rest rest',
        Recv fd = Some (recvType :: rest) -> Recv fd' = Some (recvType' :: rest') ->
        Extra.plainReceiver recvType = false -> Extra.plainReceiver recvType' = false ->
        Name fd = Name fd' ->
        VariantA.buildFunctionCall P fd = VariantA.buildFunctionCall P fd' /\
        VariantB.buildFunctionCall P fd = VariantB.buildFunctionCall P fd') /\
    (forall fd,
        (VariantA.buildFunctionCall P fd = Panicked <-> Recv fd = Some []) /\
        (VariantB.buildFunctionCall P fd = Panicked <-> Recv fd = Some [])).
Proof.
  intros.
  assert (Other : forall fd recvType rest,
             Recv fd = Some (recvType :: rest) -> Extra.plainReceiver recvType = false ->
             VariantA.buildFunctionCall P fd = Done (P ++ ".." ++ Name fd)%string /\
             VariantB.buildFunctionCall P fd = Done ("." ++ Name fd)%string).
  { intros fd recvType rest R Hp.
    unfold VariantA.buildFunctionCall, VariantB.buildFunctionCall. rewrite R.
    destruct recvType as [name | X sel | f line args | X | cs]; try discriminate;
      try (split; reflexivity).
    destruct X; try discriminate; split; reflexivity. }
  split; [reflexivity|]. split; [reflexivity|]. split; [reflexivity|].
  split; [reflexivity|]. split; [reflexivity|]. split; [reflexivity|].
  split; [simpl; intros H; injection H as H; exact (pointer_form_differs _ _ _ H)|].
  split; [simpl; intros H; injection H as H; exact (pointer_form_differs _ _ _ H)|].
  split; [intros fd ref; apply first_generator_qualifies|].
  split; [exact Other|]. split.
  - intros fd fd' r r' rest rest' R R' Hp Hp' Hn.
    destruct (Other fd r rest R Hp) as [-> ->].
    destruct (Other fd' r' rest' R' Hp') as [-> ->]. now rewrite Hn.
  - intros fd. unfold VariantA.buildFunctionCall, VariantB.buildFunctionCall.
    destruct (Recv fd) as [[|recvType rest]|].
    + tauto.
    + destruct recvType as [name | X sel | f line args | X | cs];
        try (split; split; discriminate).
      destruct X; split; split; discriminate.
    + split; split; discriminate.
Qed.

(** C2, as the claim words it, fails twice.  The per-package generator
    leaves the package out: for the free function [F] of package [P] it
    answers [F], not [P.F].  And neither generator keeps the pointer
    marker of a receiver that is not a type name: for the method [M] on
    a pointer to the generic type [T[K]] the first one answers the
    package name, two dots and [M], the per-package one a dot and [M],
    which is what they answer for [M] on [T[K]] itself. *)
Lemma C2_unqualified_in_per_package_generator :
  VariantB.buildFunctionCall "P" (freeFunc "F" None None) = Done "F" /\
  VariantB.buildFunctionCall "P" (freeFunc "F" None None) <> Done "P.F" /\
  VariantB.buildFunctionCall "P" (valueMethod "T" "M" [] None) <> Done "P.T.M" /\
  VariantB.buildFunctionCall "P" (pointerMethod "T" "M" [] None) <> Done "(*P.T).M" /\
  VariantA.buildFunctionCall "P" Cases.onGenericPointer = Done "P..M" /\
  VariantA.buildFunctionCall "P" Cases.onGenericPointer
    = VariantA.buildFunctionCall "P" Cases.onGenericValue /\
  VariantB.buildFunctionCall "P" Cases.onGenericPointer = Done ".M" /\
  VariantB.buildFunctionCall "P" Cases.onGenericPointer
    = VariantB.buildFunctionCall "P" Cases.onGenericValue.
Proof. repeat split; discriminate. Qed.

End CallableReference.

(** ** The matching rule *)
Section MatchingRule.
Import Ast Gen Scan Matching.

Lemma probe_lookup_true (importMap : gmap string string) (alias : string) :
  match importMap !! alias with
  | Some path => String.eqb path probePath
  | None => false
  end = true <-> importMap !! alias = Some probePath.
Proof.
  destruct (importMap !! alias) as [p|]; split; intros H; try discriminate.
  - apply String.eqb_eq in H. now subst.
  - injection H as ->. apply String.eqb_refl.
Qed.

Lemma containsGetCurrentFunc_spec (f : node) (importMap : gmap string string) :
  containsGetCurrentFunc f importMap = true <-> isProbeCallee importMap f.
Proof.
  split.
  - intros H. destruct f as [x | X sel | g line args | X | cs]; try discriminate.
    + destruct X as [alias | | | |]; try discriminate. simpl in H.
      apply andb_true_iff in H as [Hs Hp].
      apply String.eqb_eq in Hs. apply probe_lookup_true in Hp. subst sel.
      exists alias. split; [left; reflexivity | exact Hp].
    + destruct g as [| X sel | | |]; try discriminate.
      destruct X as [alias | | | |]; try discriminate. simpl in H.
      apply andb_true_iff in H as [Hs Hp].
      apply String.eqb_eq in Hs. apply probe_lookup_true in Hp. subst sel.
      exists alias. split; [right; eauto | exact Hp].
  - intros [alias [[-> | [line [args ->]]] Hp]]; simpl; now apply probe_lookup_true.
Qed.

Lemma visitNode_no_match {T : Type} (w : World T) build dir path pkgName importMap fd n :
  ~ isProbeCall importMap n ->
  visitNode w build dir path pkgName importMap fd n = Done [].
Proof.
  intros Hn. destruct n as [x | X sel | f line args | X | cs]; try reflexivity.
  simpl. destruct (containsGetCurrentFunc f importMap) eqn:E; [|reflexivity].
  exfalso. apply Hn. exists f, line, args. split; [reflexivity|].
  now apply containsGetCurrentFunc_spec.
Qed.

Lemma visitNode_match {T : Type} (w : World T) build dir path pkgName importMap fd f line args :
  isProbeCallee importMap f ->
  visitNode w build dir path pkgName importMap fd (CallExpr f line args)
  = obind (build pkgName fd) (fun fullCall =>
      Done [ {| rc_Expr := fullCall;
                rc_Comment := (filepath_Rel w dir path ++ ":" ++ GoStrings.itoa line)%string |} ]).
Proof.
  intros H. apply containsGetCurrentFunc_spec in H. simpl. rewrite H. reflexivity.
Qed.

Lemma matchesCall_spec (importMap : gmap string string) (n : node) :
  matchesCall importMap n = true <-> isProbeCall importMap n.
Proof.
  split.
  - destruct n as [x | X sel | f line args | X | cs]; try discriminate.
    intros H. exists f, line, args. split; [reflexivity|].
    now apply containsGetCurrentFunc_spec.
  - intros [f [line [args [-> H]]]]. now apply containsGetCurrentFunc_spec.
Qed.

Lemma collect_done {A B : Type} (f : A -> outcome (list B)) (g : A -> list B) (xs : list A) :
  (forall x, In x xs -> f x = Done (g x)) ->
  collect f xs = Done (flat_map g xs).
Proof.
  induction xs as [|x xs IH]; intros H; [reflexivity|].
  simpl. rewrite (H x) by (left; reflexivity). simpl.
  rewrite IH by (intros y Hy; apply H; right; exact Hy). reflexivity.
Qed.

Lemma flat_map_filter_map {A B : Type} (p : A -> bool) (h : A -> B) (xs : list A) :
  flat_map (fun x => if p x then [h x] else []) xs = map h (List.filter p xs).
Proof.
  induction xs as [|x xs IH]; [reflexivity|].
  simpl. destruct (p x); simpl; now rewrite IH.
Qed.

(** The visit of a whole body: one raw call site for each node that is
    a matching call, in the order of the visit. *)
Lemma scanBody_done {T : Type} (w : World T) build dir path pkgName importMap fd body fullCall :
  build pkgName fd = Done fullCall ->
  scanBody w build dir path pkgName importMap fd body
  = Done (map (fun n => {| rc_Expr := fullCall;
                           rc_Comment := (filepath_Rel w dir path ++ ":"
                                          ++ GoStrings.itoa (callLine n))%string |})
              (List.filter (matchesCall importMap) (Inspect body))).
Proof.
  intros Hb. unfold scanBody. rewrite <- flat_map_filter_map.
  apply collect_done. intros n _.
  destruct n as [x | X sel | f line args | X | cs]; try reflexivity.
  simpl. destruct (containsGetCurrentFunc f importMap); [|reflexivity].
  rewrite Hb. reflexivity.
Qed.

Lemma collect_In {A B : Type} (f : A -> outcome (list B)) (xs : list A) (zs : list B) (z : B) :
  collect f xs = Done zs -> In z zs ->
  exists x ys, In x xs /\ f x = Done ys /\ In z ys.
Proof.
  revert zs. induction xs as [|x xs IH]; intros zs H Hz; simpl in H.
  - injection H as <-. contradiction.
  - destruct (f x) as [ys| |] eqn:Fx; try discriminate. simpl in H.
    destruct (collect f xs) as [zs'| |] eqn:C; try discriminate. simpl in H.
    injection H as <-. apply in_app_or in Hz as [Hz | Hz].
    + exists x, ys. split; [now left|]. split; [exact Fx | exact Hz].
    + destruct (IH zs' eq_refl Hz) as [x' [ys' [Hx' [Fx' Hz']]]].
      exists x', ys'. split; [now right|]. split; [exact Fx' | exact Hz'].
Qed.

Lemma visitNode_sound {T : Type} (w : World T) build dir path pkgName importMap fd n ys c :
  visitNode w build dir path pkgName importMap fd n = Done ys -> In c ys ->
  isProbeCall importMap n /\
  build pkgName fd = Done (rc_Expr c) /\
  rc_Comment c = (filepath_Rel w dir path ++ ":" ++ GoStrings.itoa (callLine n))%string.
Proof.
  destruct n as [x | X sel | f line args | X | cs]; simpl;
    try (intros [= <-] []).
  destruct (containsGetCurrentFunc f importMap) eqn:E; [|intros [= <-] []].
  destruct (build pkgName fd) as [fullCall| |]; simpl; try discriminate.
  intros [= <-] [<- | []]. simpl. repeat split.
  exists f, line, args. split; [reflexivity | now apply containsGetCurrentFunc_spec].
Qed.

Lemma scanBody_sound {T : Type} (w : World T) build dir path pkgName importMap fd body ys c :
  scanBody w build dir path pkgName importMap fd body = Done ys -> In c ys ->
  exists n, In n (Inspect body) /\ isProbeCall importMap n /\
            build pkgName fd = Done (rc_Expr c) /\
            rc_Comment c = (filepath_Rel w dir path ++ ":" ++ GoStrings.itoa (callLine n))%string.
Proof.
  intros H Hc. destruct (collect_In _ _ _ _ H Hc) as [n [zs [Hn [Hv Hz]]]].
  exists n. split; [exact Hn|]. eapply visitNode_sound; eassumption.
Qed.

(** A loop that ends normally ran every round to a normal end, and what
    each round appended is part of the whole. *)
Lemma collect_complete {A B : Type} (f : A -> outcome (list B)) (xs : list A) (zs : list B)
    (x : A) :
  collect f xs = Done zs -> In x xs ->
  exists ys, f x = Done ys /\ forall y, In y ys -> In y zs.
Proof.
  revert zs. induction xs as [|a xs IH]; intros zs H Hx; [contradiction|].
  simpl in H. destruct (f a) as [ys| |] eqn:Fa; try discriminate. simpl in H.
  destruct (collect f xs) as [zs'| |] eqn:C; try discriminate. simpl in H.
  injection H as <-. destruct Hx as [<- | Hx].
  - exists ys. split; [exact Fa|]. intros y Hy. apply in_or_app. now left.
  - destruct (IH zs' eq_refl Hx) as [ys' [Fx Hsub]]. exists ys'. split; [exact Fx|].
    intros y Hy. apply in_or_app. right. now apply Hsub.
Qed.

Lemma collect_exact {A B : Type} (f : A -> outcome (list B)) (xs : list A) (zs : list B) :
  collect f xs = Done zs ->
  forall z, In z zs <-> exists x ys, In x xs /\ f x = Done ys /\ In z ys.
Proof.
  intros H z. split; [now apply collect_In|].
  intros [x [ys [Hx [Fx Hz]]]]. destruct (collect_complete _ _ _ _ H Hx) as [ys' [Fx' Hsub]].
  rewrite Fx in Fx'. injection Fx' as <-. now apply Hsub.
Qed.

(** What one visit of a body yields, from both sides: the entries are
    exactly the matching calls of the body, each with the reference of
    the declaration and the place of the call. *)
Lemma scanBody_exact {T : Type} (w : World T) build dir path pkgName importMap fd body ys :
  scanBody w build dir path pkgName importMap fd body = Done ys ->
  forall c, In c ys <->
    exists n, In n (Inspect body) /\ isProbeCall importMap n /\
              build pkgName fd = Done (rc_Expr c) /\
              rc_Comment c = (filepath_Rel w dir path ++ ":" ++ GoStrings.itoa (callLine n))%string.
Proof.
  intros H c. split; [now apply scanBody_sound|].
  intros [n [Hn [Hp [Hb Hc]]]]. rewrite (scanBody_done _ _ _ _ _ _ _ _ _ Hb) in H.
  injection H as <-. apply in_map_iff. exists n. split.
  - destruct c as [e cm]. simpl in *. now subst cm.
  - apply List.filter_In. split; [exact Hn | now apply matchesCall_spec].
Qed.

Lemma first_generator_scanDeclOf_exact (w : World VariantA.warmupTemplateData)
    dir path pkgName importMap decl ys :
  VariantA.scanDeclOf w dir path pkgName importMap decl = Done ys ->
  forall c, In c ys <->
    exists fd body n, decl = FuncD fd /\ anyDecl fd /\ Body fd = Some body /\
      In n (Inspect body) /\ isProbeCall importMap n /\
      VariantA.buildFunctionCall pkgName fd = Done (rc_Expr c) /\
      rc_Comment c = (filepath_Rel w dir (funcPosFilename path fd) ++ ":"
                      ++ GoStrings.itoa (callLine n))%string.
Proof.
  destruct decl as [fd|]; cbn [VariantA.scanDeclOf VariantA.scanDecl].
  - destruct (Body fd) as [body|] eqn:B.
    + intros H c. rewrite (scanBody_exact _ _ _ _ _ _ _ _ _ H c). split.
      * intros [n [Hn [Hp [Hb Hc]]]]. exists fd, body, n. unfold anyDecl. auto 10.
      * intros [fd' [body' [n [[= <-] [_ [B' [Hn [Hp [Hb Hc]]]]]]]]]. rewrite B in B'.
        injection B' as <-. eauto.
    + intros [= <-] c. split; [intros []|].
      intros [fd' [body' [n [[= <-] [_ [B' _]]]]]]. congruence.
  - intros [= <-] c. split; [intros [] | intros [fd [body [n [H _]]]]; discriminate H].
Qed.

Lemma second_generator_scanDeclOf_exact (w : World VariantB.warmupTemplateData)
    dir path pkgName importMap decl ys :
  VariantB.scanDeclOf w dir path pkgName importMap decl = Done ys ->
  forall c, In c ys <->
    exists fd body n, decl = FuncD fd /\ nonGeneric fd /\ Body fd = Some body /\
      In n (Inspect body) /\ isProbeCall importMap n /\
      VariantB.buildFunctionCall pkgName fd = Done (rc_Expr c) /\
      rc_Comment c = (filepath_Rel w dir (funcPosFilename path fd) ++ ":"
                      ++ GoStrings.itoa (callLine n))%string.
Proof.
  destruct decl as [fd|]; cbn [VariantB.scanDeclOf VariantB.scanDecl].
  - destruct (Body fd) as [body|] eqn:B.
    + destruct (TypeParams fd) as [tps|] eqn:Tp.
      * intros [= <-] c. split; [intros []|].
        intros [fd' [body' [n [[= <-] [Hg _]]]]]. unfold nonGeneric in Hg. congruence.
      * intros H c. rewrite (scanBody_exact _ _ _ _ _ _ _ _ _ H c). split.
        -- intros [n [Hn [Hp [Hb Hc]]]]. exists fd, body, n. unfold nonGeneric. auto 10.
        -- intros [fd' [body' [n [[= <-] [_ [B' [Hn [Hp [Hb Hc]]]]]]]]]. rewrite B in B'.
           injection B' as <-. eauto.
    + intros [= <-] c. split; [intros []|].
      intros [fd' [body' [n [[= <-] [_ [B' _]]]]]]. congruence.
  - intros [= <-] c. split; [intros [] | intros [fd [body [n [H _]]]]; discriminate H].
Qed.

(** The loop over the declarations of a file, from both sides. *)
Lemma first_generator_decls_exact (w : World VariantA.warmupTemplateData)
    (dir path : string) (file : File) (calls : list rawCall) :
  collect (VariantA.scanDeclOf w dir path (PkgName file) (fileImportMap (Imports file) ∅))
          (Decls file) = Done calls ->
  forall c, In c calls <-> foundIn w VariantA.buildFunctionCall anyDecl dir path file c.
Proof.
  intros C c. rewrite (collect_exact _ _ _ C c). unfold foundIn. split.
  - intros [decl [ys [Hd [S Hc]]]].
    apply (first_generator_scanDeclOf_exact _ _ _ _ _ _ _ S c) in Hc
      as [fd [body [n [-> H]]]].
    exists fd, body, n. tauto.
  - intros [fd [body [n [Hd H]]]].
    destruct (collect_complete _ _ _ _ C Hd) as [ys [S _]].
    exists (FuncD fd), ys. split; [exact Hd|]. split; [exact S|].
    apply (first_generator_scanDeclOf_exact _ _ _ _ _ _ _ S c). exists fd, body, n. tauto.
Qed.

Lemma second_generator_decls_exact (w : World VariantB.warmupTemplateData)
    (dir path : string) (file : File) (found : list rawCall) :
  collect (VariantB.scanDeclOf w dir path (PkgName file) (fileImportMap (Imports file) ∅))
          (Decls file) = Done found ->
  forall c, In c found <-> foundIn w VariantB.buildFunctionCall nonGeneric dir path file c.
Proof.
  intros C c. rewrite (collect_exact _ _ _ C c). unfold foundIn. split.
  - intros [decl [ys [Hd [S Hc]]]].
    apply (second_generator_scanDeclOf_exact _ _ _ _ _ _ _ S c) in Hc
      as [fd [body [n [-> H]]]].
    exists fd, body, n. tauto.
  - intros [fd [body [n [Hd H]]]].
    destruct (collect_complete _ _ _ _ C Hd) as [ys [S _]].
    exists (FuncD fd), ys. split; [exact Hd|]. split; [exact S|].
    apply (second_generator_scanDeclOf_exact _ _ _ _ _ _ _ S c). exists fd, body, n. tauto.
Qed.

(** What the first generator takes from a file it analyses is exactly
    what the uses of the probe in that file give. *)
Lemma first_generator_file_exact (w : World VariantA.warmupTemplateData)
    (path dir : string) (file : File) calls importPaths importMap :
  parser_ParseFile w path = Some file -> PkgName file <> "main" ->
  VariantA.analyzeFile w path dir = Done (calls, importPaths, importMap) ->
  forall c, In c calls <-> foundIn w VariantA.buildFunctionCall anyDecl dir path file c.
Proof.
  intros P Hm. unfold VariantA.analyzeFile. rewrite P.
  apply String.eqb_neq in Hm. rewrite Hm.
  destruct (collect _ (Decls file)) as [results| |] eqn:C; simpl; try discriminate.
  intros [= <- _ _]. now apply first_generator_decls_exact.
Qed.

(** Every raw call site the first generator takes from a file stems
    from a use of the probe in that file, under that file's imports. *)
Lemma first_generator_file_sound (w : World VariantA.warmupTemplateData)
    (path dir : string) calls importPaths importMap c :
  VariantA.analyzeFile w path dir = Done (calls, importPaths, importMap) -> In c calls ->
  exists file, parser_ParseFile w path = Some file /\ PkgName file <> "main" /\
               foundIn w VariantA.buildFunctionCall anyDecl dir path file c.
Proof.
  intros A Hc. destruct (parser_ParseFile w path) as [file|] eqn:P.
  - destruct (String.eqb_spec (PkgName file) "main") as [Hm|Hm].
    + unfold VariantA.analyzeFile in A. rewrite P in A.
      apply String.eqb_eq in Hm. rewrite Hm in A. injection A as <- _ _. contradiction.
    + exists file. split; [reflexivity|]. split; [exact Hm|].
      now apply (first_generator_file_exact w path dir file _ _ _ P Hm A).
  - unfold VariantA.analyzeFile in A. rewrite P in A. injection A as <- _ _. contradiction.
Qed.

(** A visit of the second generator to a file it analyses puts the
    record of the directory of the file into the map, with the raw call
    sites it held before followed by exactly what the uses of the probe
    in the file give. *)
Lemma second_generator_file_exact (w : World VariantB.warmupTemplateData)
    (dir path : string) (file : File) (pkgMap pkgMap' : gmap string VariantB.packageData) :
  Filepath.Ext path = ".go" -> Filepath.Base path <> VariantB.skippedName ->
  parser_ParseFile w path = Some file -> PkgName file <> "main" ->
  VariantB.visit w dir pkgMap (path, false) = Done pkgMap' ->
  exists pkg' found,
    pkgMap' !! filepath_Dir w path = Some pkg' /\
    VariantB.RawCalls pkg'
    = match pkgMap !! filepath_Dir w path with
      | Some pkg => VariantB.RawCalls pkg
      | None => []
      end ++ found /\
    forall c, In c found <-> foundIn w VariantB.buildFunctionCall nonGeneric dir path file c.
Proof.
  intros Hx Hb P Hm. unfold VariantB.visit.
  rewrite Hx. apply String.eqb_neq in Hb, Hm. rewrite Hb, P, Hm. cbn [negb orb String.eqb].
  destruct (collect _ (Decls file)) as [found| |] eqn:C; simpl; try discriminate.
  intros [= <-]. eexists. exists found. rewrite lookup_insert_eq.
  split; [reflexivity|]. split.
  - simpl. now destruct (pkgMap !! filepath_Dir w path).
  - now apply second_generator_decls_exact.
Qed.

(** The same for any visit: what it adds to the raw call sites of a
    package stems from the file visited. *)
Lemma second_generator_file_sound (w : World VariantB.warmupTemplateData)
    (dir path : string) (err : bool) (pkgMap pkgMap' : gmap string VariantB.packageData)
    (pkgDir : string) (pkg' : VariantB.packageData) (c : rawCall) :
  VariantB.visit w dir pkgMap (path, err) = Done pkgMap' ->
  pkgMap' !! pkgDir = Some pkg' -> In c (VariantB.RawCalls pkg') ->
  (exists pkg, pkgMap !! pkgDir = Some pkg /\ In c (VariantB.RawCalls pkg)) \/
  (exists file, parser_ParseFile w path = Some file /\ PkgName file <> "main" /\
                foundIn w VariantB.buildFunctionCall nonGeneric dir path file c).
Proof.
  unfold VariantB.visit. destruct (err || _ || _); [intros [= <-]; eauto|].
  destruct (parser_ParseFile w path) as [file|]; [|intros [= <-]; eauto].
  destruct (String.eqb_spec (PkgName file) "main") as [Hm|Hm]; [intros [= <-]; eauto|].
  destruct (collect _ (Decls file)) as [found| |] eqn:C; simpl; try discriminate.
  intros [= <-] Hl Hc.
  destruct (decide (filepath_Dir w path = pkgDir)) as [<-|Hne].
  - rewrite lookup_insert_eq in Hl. injection Hl as <-. simpl in Hc.
    apply in_app_or in Hc as [Hc | Hc].
    + destruct (pkgMap !! filepath_Dir w path) as [pkg|] eqn:E; [|contradiction].
      left. exists pkg. auto.
    + right. exists file. split; [reflexivity|]. split; [exact Hm|].
      now apply (second_generator_decls_exact w dir path file found C c).
  - rewrite lookup_insert_ne in Hl by exact Hne. left. exists pkg'. auto.
Qed.

(** C3.  The callee test answers [true] exactly for [alias.GetCurrentFunc]
    (bare, or applied once more) with [alias] bound by the import map of
    the file to the path of the reflecting package.  A bare identifier is
    never accepted, nor is a selector on an alias that the map does not
    send to that path.  During the visit of a body a node yields a raw
    call site exactly when it is such a call: nothing for any other node,
    one entry (the reference built for the enclosing declaration, and
    the place of the call) for a call that matches; the visit of a whole
    body gives one entry for each node that is such a call.  For a whole
    file the rule holds from both sides.  What the first generator takes
    from a file stems from a file that parses and is not of the main
    package, and for such a file a raw call site is taken exactly when a
    function body of the file holds such a call, resolved through the
    imports of that file alone; the entry carries the reference of the
    declaration and, as its place, the file name of the position of the
    declaration and the line of the call.  In the per-package generator
    a visit adds to the record of the directory exactly the entries of
    such calls in the bodies of the functions without type parameters,
    and whatever a record holds after a visit it held before or stems
    from the file visited. *)
Theorem C3_matching_soundness :
  forall (T : Type) (w : World T) (build : string -> FuncDecl -> outcome string)
         (dir path pkgName : string) (importMap : gmap string string) (fd : FuncDecl),
    (forall f, containsGetCurrentFunc f importMap = true <-> isProbeCallee importMap f) /\
    (forall name, containsGetCurrentFunc (Ident name) importMap = false) /\
    (forall alias sel line args,
        importMap !! alias <> Some probePath ->
        containsGetCurrentFunc (SelectorExpr (Ident alias) sel) importMap = false /\
        containsGetCurrentFunc (CallExpr (SelectorExpr (Ident alias) sel) line args) importMap
          = false) /\
    (forall n, ~ isProbeCall importMap n ->
        visitNode w build dir path pkgName importMap fd n = Done []) /\
    (forall f line args fullCall,
        isProbeCallee importMap f ->
        build pkgName fd = Done fullCall ->
        visitNode w build dir path pkgName importMap fd (CallExpr f line args)
        = Done [ {| rc_Expr := fullCall;
                    rc_Comment := (filepath_Rel w dir path ++ ":" ++ GoStrings.itoa line)%string |} ]) /\
    (forall body fullCall,
        build pkgName fd = Done fullCall ->
        scanBody w build dir path pkgName importMap fd body
        = Done (map (fun n => {| rc_Expr := fullCall;
                                 rc_Comment := (filepath_Rel w dir path ++ ":"
                                                ++ GoStrings.itoa (callLine n))%string |})
                    (List.filter (matchesCall importMap) (Inspect body)))) /\
    (forall n, matchesCall importMap n = true <-> isProbeCall importMap n) /\
    (forall (wA : World VariantA.warmupTemplateData) calls importPaths fileImports c,
        VariantA.analyzeFile wA path dir = Done (calls, importPaths, fileImports) ->
        In c calls ->
        exists file, parser_ParseFile wA path = Some file /\ PkgName file <> "main" /\
                     foundIn wA VariantA.buildFunctionCall anyDecl dir path file c) /\
    (forall (wA : World VariantA.warmupTemplateData) file calls importPaths fileImports,
        parser_ParseFile wA path = Some file -> PkgName file <> "main" ->
        VariantA.analyzeFile wA path dir = Done (calls, importPaths, fileImports) ->
        forall c, In c calls <->
                  foundIn wA VariantA.buildFunctionCall anyDecl dir path file c) /\
    (forall (wB : World VariantB.warmupTemplateData) err pkgMap pkgMap' pkgDir pkg' c,
        VariantB.visit wB dir pkgMap (path, err) = Done pkgMap' ->
        pkgMap' !! pkgDir = Some pkg' -> In c (VariantB.RawCalls pkg') ->
        (exists pkg, pkgMap !! pkgDir = Some pkg /\ In c (VariantB.RawCalls pkg)) \/
        (exists file, parser_ParseFile wB path = Some file /\ PkgName file <> "main" /\
                      foundIn wB VariantB.buildFunctionCall nonGeneric dir path file c)) /\
    (forall (wB : World VariantB.warmupTemplateData) file pkgMap pkgMap',
        Filepath.Ext path = ".go" -> Filepath.Base path <> VariantB.skippedName ->
        parser_ParseFile wB path = Some file -> PkgName file <> "main" ->
        VariantB.visit wB dir pkgMap (path, false) = Done pkgMap' ->
        exists pkg' found,
          pkgMap' !! filepath_Dir wB path = Some pkg' /\
          VariantB.RawCalls pkg'
          = match pkgMap !! filepath_Dir wB path with
            | Some pkg => VariantB.RawCalls pkg
            | None => []
            end ++ found /\
          forall c, In c found <->
                    foundIn wB VariantB.buildFunctionCall nonGeneric dir path file c).
Proof.
  intros. split; [intros f; apply containsGetCurrentFunc_spec|]. split; [reflexivity|].
  split.
  { intros alias sel line args Hne.
    assert (E : match importMap !! alias with
                | Some p => String.eqb p probePath
                | None => false
                end = false).
    { destruct (importMap !! alias) as [p|] eqn:E; [|reflexivity].
      apply String.eqb_neq. intros ->. now apply Hne. }
    split; simpl; rewrite E; apply andb_false_r. }
  split; [intros n Hn; now apply visitNode_no_match|]. split.
  { intros f line args fullCall Hf Hb. rewrite visitNode_match by exact Hf.
    now rewrite Hb. }
  split; [intros; now apply scanBody_done|]. split; [intros n; apply matchesCall_spec|].
  split; [intros; eapply first_generator_file_sound; eassumption|].
  split; [intros; eapply first_generator_file_exact; eassumption|].
  split; [intros; eapply second_generator_file_sound; eassumption|].
  intros; eapply second_generator_file_exact; eassumption.
Qed.

End MatchingRule.

(** ** Sorting *)
Section InsertionSort.
Context {E : Type} (cmp : E -> E -> Z).
Hypothesis cmp_total : forall a b, (cmp a b < 0)%Z \/ (cmp b a <= 0)%Z.
Hypothesis cmp_trans : forall a b c, (cmp a b <= 0)%Z -> (cmp b c <= 0)%Z -> (cmp a c <= 0)%Z.

Lemma moveLeft_perm (x : E) (racc : list E) : Slices.moveLeft cmp x racc ≡ₚ x :: racc.
Proof.
  induction racc as [|y r IH]; simpl; [reflexivity|].
  destruct (cmp x y <? 0)%Z; [|reflexivity].
  rewrite IH. apply Permutation_swap.
Qed.

Lemma moveLeft_sorted (x : E) (racc : list E) :
  StronglySorted (Matching.descending cmp) racc ->
  StronglySorted (Matching.descending cmp) (Slices.moveLeft cmp x racc).
Proof.
  induction 1 as [|y r Hr IH Hy]; simpl.
  - repeat constructor.
  - destruct (cmp x y <? 0)%Z eqn:Hlt.
    + apply Z.ltb_lt in Hlt. constructor; [exact IH|].
      rewrite moveLeft_perm. constructor; [unfold Matching.descending; lia | exact Hy].
    + apply Z.ltb_ge in Hlt.
      assert (Hyx : (cmp y x <= 0)%Z) by (destruct (cmp_total x y); [lia | assumption]).
      constructor; [constructor; assumption|].
      constructor; [exact Hyx|].
      eapply Forall_impl; [exact Hy|]. intros z Hz. unfold Matching.descending in *.
      eapply cmp_trans; eassumption.
Qed.

Lemma insertion_loop_perm (x racc : list E) :
  fold_left (fun racc e => Slices.moveLeft cmp e racc) x racc ≡ₚ x ++ racc.
Proof.
  revert racc. induction x as [|e x IH]; intros racc; simpl; [reflexivity|].
  rewrite IH, moveLeft_perm. symmetry. apply Permutation_middle.
Qed.

Lemma insertion_loop_sorted (x racc : list E) :
  StronglySorted (Matching.descending cmp) racc ->
  StronglySorted (Matching.descending cmp) (fold_left (fun racc e => Slices.moveLeft cmp e racc) x racc).
Proof.
  revert racc. induction x as [|e x IH]; intros racc H; simpl; [exact H|].
  apply IH, moveLeft_sorted, H.
Qed.

Lemma StronglySorted_rev_desc (l : list E) :
  StronglySorted (Matching.descending cmp) l -> StronglySorted (fun a b => (cmp a b <= 0)%Z) (rev l).
Proof.
  induction 1 as [|y r Hr IH Hy]; simpl; [constructor|].
  apply StronglySorted_app_2; [|exact IH|repeat constructor].
  intros a b Ha Hb. apply list_elem_of_In in Ha, Hb.
  apply in_rev in Ha. destruct Hb as [<- | []].
  rewrite Forall_forall in Hy. apply Hy. apply list_elem_of_In. exact Ha.
Qed.

Lemma SortFunc_perm (x : list E) : Slices.SortFunc x cmp ≡ₚ x.
Proof.
  unfold Slices.SortFunc. rewrite <- Permutation_rev, insertion_loop_perm.
  now rewrite app_nil_r.
Qed.

Lemma SortFunc_ascending (x : list E) : Matching.ascending cmp (Slices.SortFunc x cmp).
Proof.
  apply StronglySorted_rev_desc, insertion_loop_sorted. constructor.
Qed.

(** Two ascending arrangements of lists with the same entries agree
    when entries that compare equal are equal. *)
Lemma ascending_unique (l1 l2 : list E) :
  (forall a b, In a l1 -> In b l1 -> (cmp a b <= 0)%Z -> (cmp b a <= 0)%Z -> a = b) ->
  l1 ≡ₚ l2 ->
  Slices.SortFunc l1 cmp = Slices.SortFunc l2 cmp.
Proof.
  intros Hinj Hp.
  apply (StronglySorted_unique_strong (fun a b => (cmp a b <= 0)%Z)).
  - intros a b Ha Hb. apply Hinj.
    + apply list_elem_of_In. now rewrite <- (SortFunc_perm l1).
    + apply list_elem_of_In. rewrite Hp. now rewrite <- (SortFunc_perm l2).
  - apply SortFunc_ascending.
  - apply SortFunc_ascending.
  - now rewrite !SortFunc_perm.
Qed.

End InsertionSort.

Section StringOrder.

Lemma Compare_le_iff (a b : string) :
  (GoStrings.Compare a b <= 0)%Z <-> String.compare a b <> Gt.
Proof.
  unfold GoStrings.Compare.
  destruct (String.compare a b); split; intros H; first [lia | congruence].
Qed.

Lemma Compare_total (a b : string) :
  (GoStrings.Compare a b < 0)%Z \/ (GoStrings.Compare b a <= 0)%Z.
Proof.
  unfold GoStrings.Compare. rewrite (String.compare_antisym a b).
  destruct (String.compare b a); simpl; lia.
Qed.

Lemma compare_lt_trans (a b c : string) :
  String.compare a b = Lt -> String.compare b c = Lt -> String.compare a c = Lt.
Proof.
  intros H1 H2. apply OrderedTypeEx.String_as_OT.cmp_lt.
  apply OrderedTypeEx.String_as_OT.cmp_lt in H1, H2.
  eapply OrderedTypeEx.String_as_OT.lt_trans; eassumption.
Qed.

Lemma Compare_trans (a b c : string) :
  (GoStrings.Compare a b <= 0)%Z -> (GoStrings.Compare b c <= 0)%Z ->
  (GoStrings.Compare a c <= 0)%Z.
Proof.
  rewrite !Compare_le_iff. intros H1 H2.
  destruct (String.compare a b) eqn:E1; [| |congruence].
  - apply String.compare_eq_iff in E1. now subst.
  - destruct (String.compare b c) eqn:E2; [| |congruence].
    + apply String.compare_eq_iff in E2. subst. now rewrite E1.
    + now rewrite (compare_lt_trans a b c).
Qed.

Lemma Compare_antisym (a b : string) :
  (GoStrings.Compare a b <= 0)%Z -> (GoStrings.Compare b a <= 0)%Z -> a = b.
Proof.
  intros H1 H2. apply Compare_le_iff in H1, H2.
  rewrite (String.compare_antisym b a) in H2.
  destruct (String.compare a b) eqn:E; simpl in *; try congruence.
  now apply String.compare_eq_iff.
Qed.

End StringOrder.

(** ** Deduplication *)
Section Deduplication.
Import Gen Matching.

Lemma lookup_addCall (m : gmap string (list string)) (c : rawCall) (e : string) :
  addCall m c !! e
  = if String.eqb (rc_Expr c) e
    then Some (default [] (m !! e) ++ [rc_Comment c])
    else m !! e.
Proof.
  unfold addCall. destruct (String.eqb_spec (rc_Expr c) e) as [->|Hne].
  - now rewrite lookup_insert_eq.
  - now rewrite lookup_insert_ne.
Qed.

Lemma commentsOf_snoc (e : string) (l : list rawCall) (c : rawCall) :
  commentsOf e (l ++ [c])
  = commentsOf e l ++ (if String.eqb (rc_Expr c) e then [rc_Comment c] else []).
Proof.
  unfold commentsOf. rewrite List.filter_app, map_app. simpl.
  now destruct (String.eqb (rc_Expr c) e).
Qed.

Lemma callMapOf_lookup (l : list rawCall) (e : string) :
  callMapOf l !! e = match commentsOf e l with [] => None | cs => Some cs end.
Proof.
  induction l as [|c l IH] using rev_ind; [reflexivity|].
  unfold callMapOf in *. rewrite fold_left_app. simpl.
  rewrite lookup_addCall, commentsOf_snoc, IH.
  destruct (String.eqb (rc_Expr c) e).
  - destruct (commentsOf e l); reflexivity.
  - now rewrite app_nil_r.
Qed.

Lemma commentsOf_nonempty (e : string) (l : list rawCall) :
  commentsOf e l <> [] <-> In e (map rc_Expr l).
Proof.
  unfold commentsOf. induction l as [|c l IH]; simpl; [tauto|].
  destruct (String.eqb_spec (rc_Expr c) e) as [->|Hne]; simpl.
  - split; [auto | discriminate].
  - rewrite IH. split; [auto | intros [H|H]; [contradiction | exact H]].
Qed.

Lemma In_commentsOf (e cm : string) (l : list rawCall) :
  In cm (commentsOf e l) <-> In {| rc_Expr := e; rc_Comment := cm |} l.
Proof.
  unfold commentsOf. rewrite in_map_iff. split.
  - intros [c [<- Hc]]. apply List.filter_In in Hc as [Hc He].
    apply String.eqb_eq in He. subst e. now destruct c.
  - intros H. eexists. split; [|apply List.filter_In; split; [exact H|]]; simpl;
      [reflexivity | apply String.eqb_refl].
Qed.

Context {T : Type} (w : World T).
Hypothesis w_fair : fair w.

Lemma deduplicateCalls_perm (l : list rawCall) :
  deduplicateCalls w l
  ≡ₚ map (fun kv => {| Expr := fst kv; Comments := snd kv |}) (map_to_list (callMapOf l)).
Proof. unfold deduplicateCalls, range. now rewrite w_fair. Qed.

Lemma In_deduplicateCalls (l : list rawCall) (wc : warmupCall) :
  In wc (deduplicateCalls w l) <-> callMapOf l !! Expr wc = Some (Comments wc).
Proof.
  rewrite <- list_elem_of_In, deduplicateCalls_perm, list_elem_of_In, in_map_iff.
  split.
  - intros [[e cs] [<- H]]. simpl. apply list_elem_of_In in H.
    now apply elem_of_map_to_list in H.
  - intros H. exists (Expr wc, Comments wc). split; [now destruct wc|].
    apply list_elem_of_In. now apply elem_of_map_to_list.
Qed.

Lemma deduplicateCalls_comments (l : list rawCall) (wc : warmupCall) :
  In wc (deduplicateCalls w l) ->
  Comments wc = commentsOf (Expr wc) l /\ Comments wc <> [].
Proof.
  intros H. apply In_deduplicateCalls in H. rewrite callMapOf_lookup in H.
  destruct (commentsOf (Expr wc) l) eqn:E; [discriminate|].
  injection H as <-. split; [reflexivity | discriminate].
Qed.

Lemma deduplicateCalls_NoDup (l : list rawCall) :
  NoDup (map Expr (deduplicateCalls w l)).
Proof.
  rewrite deduplicateCalls_perm, map_map. simpl.
  apply (NoDup_fst_map_to_list (callMapOf l)).
Qed.

Lemma deduplicateCalls_keys (l : list rawCall) (e : string) :
  In e (map Expr (deduplicateCalls w l)) <-> In e (map rc_Expr l).
Proof.
  rewrite in_map_iff. split.
  - intros [wc [<- H]]. apply deduplicateCalls_comments in H as [H1 H2].
    apply commentsOf_nonempty. now rewrite <- H1.
  - intros H. apply commentsOf_nonempty in H.
    exists {| Expr := e; Comments := commentsOf e l |}. split; [reflexivity|].
    apply In_deduplicateCalls. simpl. rewrite callMapOf_lookup.
    destruct (commentsOf e l); [contradiction | reflexivity].
Qed.

Lemma deduplicateCalls_key_inj (l : list rawCall) (a b : warmupCall) :
  In a (deduplicateCalls w l) -> In b (deduplicateCalls w l) -> Expr a = Expr b -> a = b.
Proof.
  intros Ha Hb E. apply deduplicateCalls_comments in Ha as [Ha _], Hb as [Hb _].
  destruct a, b; simpl in *. subst. reflexivity.
Qed.

End Deduplication.

Section Provenance.
Import Gen Matching.

(** C5.  When the iteration over the map yields each entry once, the
    list that [deduplicateCalls] returns has no two entries with the
    same expression, has an entry for exactly the expressions of the raw
    call sites, and the comments found in its entries are exactly the
    comments of the raw call sites; each entry carries the comments of
    its own expression, all of them, in the order of the raw call
    sites. *)
Theorem C5_deduplication_keys_and_provenance :
  forall (T : Type) (w : World T) (rawCalls : list rawCall),
    fair w ->
    NoDup (map Expr (deduplicateCalls w rawCalls)) /\
    (forall e, In e (map Expr (deduplicateCalls w rawCalls)) <-> In e (map rc_Expr rawCalls)) /\
    (forall cm, (exists wc, In wc (deduplicateCalls w rawCalls) /\ In cm (Comments wc))
                <-> In cm (map rc_Comment rawCalls)) /\
    (forall wc, In wc (deduplicateCalls w rawCalls) ->
                Comments wc = commentsOf (Expr wc) rawCalls).
Proof.
  intros T w rawCalls Hw. split; [|split; [|split]].
  - now apply deduplicateCalls_NoDup.
  - intros e. now apply deduplicateCalls_keys.
  - intros cm. split.
    + intros [wc [Hwc Hcm]].
      apply (deduplicateCalls_comments w Hw) in Hwc as [E _]. rewrite E in Hcm.
      apply In_commentsOf in Hcm. apply in_map_iff. eexists. split; [|exact Hcm]. reflexivity.
    + intros H. apply in_map_iff in H as [c [<- Hc]].
      exists {| Expr := rc_Expr c; Comments := commentsOf (rc_Expr c) rawCalls |}. split.
      * apply (In_deduplicateCalls w Hw). simpl. rewrite callMapOf_lookup.
        assert (Hne : commentsOf (rc_Expr c) rawCalls <> []).
        { apply commentsOf_nonempty. apply in_map. exact Hc. }
        destruct (commentsOf (rc_Expr c) rawCalls); [contradiction | reflexivity].
      * simpl. apply In_commentsOf. now destruct c.
  - intros wc Hwc. now apply (deduplicateCalls_comments w Hw) in Hwc as [E _].
Qed.

Lemma C5_witness :
  NoDup (map Expr (deduplicateCalls (Samples.emptyTree unit Samples.backwards) Samples.threeCalls)) /\
  (forall e, In e (map Expr (deduplicateCalls (Samples.emptyTree unit Samples.backwards) Samples.threeCalls))
             <-> In e (map rc_Expr Samples.threeCalls)) /\
  (forall cm, (exists wc, In wc (deduplicateCalls (Samples.emptyTree unit Samples.backwards) Samples.threeCalls)
                          /\ In cm (Comments wc))
              <-> In cm (map rc_Comment Samples.threeCalls)) /\
  (forall wc, In wc (deduplicateCalls (Samples.emptyTree unit Samples.backwards) Samples.threeCalls) ->
              Comments wc = commentsOf (Expr wc) Samples.threeCalls).
Proof.
  apply (C5_deduplication_keys_and_provenance unit
           (Samples.emptyTree unit Samples.backwards) Samples.threeCalls).
  intros V l. simpl. unfold Samples.backwards. symmetry. apply Permutation_rev.
Defined.

End Provenance.

(** ** What reaches the template *)
Section Emission.
Import Gen Matching.

Lemma cmpCall_total (a b : warmupCall) : (cmpCall a b < 0)%Z \/ (cmpCall b a <= 0)%Z.
Proof. apply Compare_total. Qed.

Lemma cmpCall_trans (a b c : warmupCall) :
  (cmpCall a b <= 0)%Z -> (cmpCall b c <= 0)%Z -> (cmpCall a c <= 0)%Z.
Proof. apply Compare_trans. Qed.

Lemma cmpImport_total (a b : importLine) : (cmpImport a b < 0)%Z \/ (cmpImport b a <= 0)%Z.
Proof. apply Compare_total. Qed.

Lemma cmpImport_trans (a b c : importLine) :
  (cmpImport a b <= 0)%Z -> (cmpImport b c <= 0)%Z -> (cmpImport a c <= 0)%Z.
Proof. apply Compare_trans. Qed.

Lemma In_sorted_calls (calls : list warmupCall) (wc : warmupCall) :
  In wc (Slices.SortFunc calls cmpCall) <-> In wc calls.
Proof. rewrite <- !list_elem_of_In. now rewrite (SortFunc_perm cmpCall). Qed.

Lemma append_cancel_l (p a b : string) : (p ++ a)%string = (p ++ b)%string -> a = b.
Proof.
  induction p as [|c p IH]; intros H; [exact H|].
  injection H as H. auto.
Qed.

Lemma sorted_calls_agree {T : Type} (w1 w2 : World T) (rawCalls : list rawCall) :
  fair w1 -> fair w2 ->
  Slices.SortFunc (deduplicateCalls w1 rawCalls) cmpCall
  = Slices.SortFunc (deduplicateCalls w2 rawCalls) cmpCall.
Proof.
  intros H1 H2. apply ascending_unique.
  - apply cmpCall_total.
  - apply cmpCall_trans.
  - intros a b Ha Hb Hab Hba. apply (deduplicateCalls_key_inj w1 H1 rawCalls); trivial.
    now apply Compare_antisym.
  - now rewrite (deduplicateCalls_perm w1 H1), (deduplicateCalls_perm w2 H2).
Qed.

Lemma importLinesOf_perm {T : Type} (w : World T) (m : gmap string string) (prefix : string) :
  fair w ->
  importLinesOf w m prefix
  ≡ₚ map (fun kv => {| Alias := fst kv; Path := (prefix ++ "/" ++ snd kv)%string |})
         (map_to_list m).
Proof. intros H. unfold importLinesOf, range. now rewrite H. Qed.

Lemma In_importLinesOf {T : Type} (w : World T) (m : gmap string string) (prefix : string)
    (line : importLine) :
  fair w ->
  In line (importLinesOf w m prefix) ->
  exists rel, m !! Alias line = Some rel /\ Path line = (prefix ++ "/" ++ rel)%string.
Proof.
  intros H Hin. apply list_elem_of_In in Hin. rewrite (importLinesOf_perm w m prefix H) in Hin.
  apply list_elem_of_In, in_map_iff in Hin as [[alias rel] [<- Hkv]]. simpl.
  exists rel. split; [|reflexivity].
  apply list_elem_of_In in Hkv. now apply elem_of_map_to_list in Hkv.
Qed.

Lemma sorted_imports_agree {T : Type} (w1 w2 : World T) (m : gmap string string)
    (prefix : string) :
  fair w1 -> fair w2 ->
  (forall a1 a2 rel, m !! a1 = Some rel -> m !! a2 = Some rel -> a1 = a2) ->
  Slices.SortFunc (importLinesOf w1 m prefix) cmpImport
  = Slices.SortFunc (importLinesOf w2 m prefix) cmpImport.
Proof.
  intros H1 H2 Hinj. apply ascending_unique.
  - apply cmpImport_total.
  - apply cmpImport_trans.
  - intros a b Ha Hb Hab Hba.
    apply (In_importLinesOf w1 m prefix a H1) in Ha as [ra [Ha Pa]].
    apply (In_importLinesOf w1 m prefix b H1) in Hb as [rb [Hb Pb]].
    assert (E : Path a = Path b) by now apply Compare_antisym.
    rewrite Pa, Pb in E. apply append_cancel_l in E.
    change ("/" ++ ra = "/" ++ rb)%string in E. apply append_cancel_l in E. subst rb.
    destruct a as [aa pa], b as [ab pb]; simpl in *.
    rewrite (Hinj aa ab ra Ha Hb). congruence.
  - now rewrite (importLinesOf_perm w1 m prefix H1), (importLinesOf_perm w2 m prefix H2).
Qed.

(** C6, as the code has it.  The comments of a call that reaches the
    template of either generator are the comments of the raw call sites
    with that expression, in the order in which those were found; sorting
    the calls moves whole entries and leaves each list of comments as
    [deduplicateCalls] built it. *)
Theorem C6_comments_in_discovery_order :
  forall (T : Type) (w : World T) (rawCalls : list rawCall)
         (imports : list importLine) (pkg : VariantB.packageData) (wc : warmupCall),
    fair w ->
    In wc (VariantA.tpl_WarmupCalls (VariantA.templateData imports (deduplicateCalls w rawCalls)))
    \/ In wc (VariantB.tpl_WarmupCalls
                (VariantB.templateData pkg imports (deduplicateCalls w rawCalls))) ->
    Comments wc = commentsOf (Expr wc) rawCalls.
Proof.
  intros T w rawCalls imports pkg wc Hw H. simpl in H.
  assert (Hin : In wc (deduplicateCalls w rawCalls)).
  { destruct H as [H | H]; exact (proj1 (In_sorted_calls _ _) H). }
  now apply (deduplicateCalls_comments w Hw) in Hin as [E _].
Qed.

Lemma C6_witness :
  Comments {| Expr := "pkg.F"; Comments := ["pkg/x.go:9"; "pkg/x.go:10"] |}
  = commentsOf (Expr {| Expr := "pkg.F"; Comments := ["pkg/x.go:9"; "pkg/x.go:10"] |})
               Samples.twoCalls.
Proof.
  apply (C6_comments_in_discovery_order unit (Samples.emptyTree unit Samples.inOrder)
           Samples.twoCalls []
           {| VariantB.PackageName := "pkg"; VariantB.Dir := "pkg";
              VariantB.RawCalls := Samples.twoCalls; VariantB.ImportPaths := ∅ |}
           {| Expr := "pkg.F"; Comments := ["pkg/x.go:9"; "pkg/x.go:10"] |}).
  - intros V l. reflexivity.
  - left. vm_compute. left. reflexivity.
Defined.

(** C6, as the claim words it, fails: a function that uses the probe at
    lines 9 and 10 of one file reaches the template with its comments in
    that order, and as strings the second sorts before the first. *)
Lemma C6_comments_not_sorted :
  VariantA.tpl_WarmupCalls
    (VariantA.templateData [] (deduplicateCalls (Samples.emptyTree unit Samples.inOrder)
                                                Samples.twoCalls))
  = [ {| Expr := "pkg.F"; Comments := ["pkg/x.go:9"; "pkg/x.go:10"] |} ] /\
  GoStrings.Compare "pkg/x.go:9" "pkg/x.go:10" = 1%Z /\
  ~ (forall wc,
       In wc (VariantA.tpl_WarmupCalls
                (VariantA.templateData [] (deduplicateCalls (Samples.emptyTree unit Samples.inOrder)
                                                            Samples.twoCalls))) ->
       ascending GoStrings.Compare (Comments wc)).
Proof.
  assert (E : VariantA.tpl_WarmupCalls
    (VariantA.templateData [] (deduplicateCalls (Samples.emptyTree unit Samples.inOrder)
                                                Samples.twoCalls))
  = [ {| Expr := "pkg.F"; Comments := ["pkg/x.go:9"; "pkg/x.go:10"] |} ])
    by (vm_compute; reflexivity).
  split; [exact E|]. split; [vm_compute; reflexivity|].
  intros H. rewrite E in H.
  specialize (H {| Expr := "pkg.F"; Comments := ["pkg/x.go:9"; "pkg/x.go:10"] |}
                (or_introl eq_refl)).
  simpl in H. unfold ascending in H. inversion H as [|? ? _ Hall]. subst.
  inversion Hall as [|? ? Hle _]. subst. vm_compute in Hle. apply Hle. reflexivity.
Qed.

End Emission.

Section Determinism.
Import Gen Matching.

Lemma NoDup_key_inj {A K : Type} (key : A -> K) (l : list A) (a b : A) :
  NoDup (map key l) -> In a l -> In b l -> key a = key b -> a = b.
Proof.
  induction l as [|x l IH]; simpl; intros Hnd Ha Hb E; [contradiction|].
  apply NoDup_cons in Hnd as [Hx Hnd]. rewrite list_elem_of_In in Hx.
  destruct Ha as [-> | Ha], Hb as [-> | Hb]; trivial.
  - exfalso. apply Hx. rewrite E. now apply in_map.
  - exfalso. apply Hx. rewrite <- E. now apply in_map.
  - now apply IH.
Qed.

Lemma sorted_calls_any_order (calls calls' : list warmupCall) :
  NoDup (map Expr calls) -> calls ≡ₚ calls' ->
  Slices.SortFunc calls cmpCall = Slices.SortFunc calls' cmpCall.
Proof.
  intros Hnd Hp. apply ascending_unique; trivial.
  - apply cmpCall_total.
  - apply cmpCall_trans.
  - intros a b Ha Hb Hab Hba. apply (NoDup_key_inj Expr calls); trivial.
    now apply Compare_antisym.
Qed.

Lemma sorted_imports_any_order (imports imports' : list importLine) :
  NoDup (map Path imports) -> imports ≡ₚ imports' ->
  Slices.SortFunc imports cmpImport = Slices.SortFunc imports' cmpImport.
Proof.
  intros Hnd Hp. apply ascending_unique; trivial.
  - apply cmpImport_total.
  - apply cmpImport_trans.
  - intros a b Ha Hb Hab Hba. apply (NoDup_key_inj Path imports); trivial.
    now apply Compare_antisym.
Qed.

(** C7, as the code has it.  In both generators the imports reach the
    template in ascending order of their paths and the calls in ascending
    order of their expressions, each list a rearrangement of what was
    collected.  The calls that reach the template do not depend on the
    order in which they were collected, as no two deduplicated calls
    share an expression; the imports do not depend on it either as long
    as no two of them have the same path.  In particular the calls are
    the same whatever order the iterations over the maps take, and so
    are the imports when no two package names are bound to one directory. *)
Theorem C7_sorted_and_order_independent :
  forall (T : Type) (w1 w2 : World T) (rawCalls : list rawCall) (pkg : VariantB.packageData)
         (imports imports' : list importLine) (calls calls' : list warmupCall),
    fair w1 -> fair w2 -> imports ≡ₚ imports' -> calls ≡ₚ calls' ->
    (ascending cmpImport (VariantA.tpl_Imports (VariantA.templateData imports calls)) /\
     ascending cmpCall (VariantA.tpl_WarmupCalls (VariantA.templateData imports calls)) /\
     ascending cmpImport (VariantB.tpl_Imports (VariantB.templateData pkg imports calls)) /\
     ascending cmpCall (VariantB.tpl_WarmupCalls (VariantB.templateData pkg imports calls))) /\
    (VariantA.tpl_Imports (VariantA.templateData imports calls) ≡ₚ imports /\
     VariantA.tpl_WarmupCalls (VariantA.templateData imports calls) ≡ₚ calls /\
     VariantB.tpl_Imports (VariantB.templateData pkg imports calls) ≡ₚ imports /\
     VariantB.tpl_WarmupCalls (VariantB.templateData pkg imports calls) ≡ₚ calls) /\
    (NoDup (map Expr calls) ->
     VariantA.tpl_WarmupCalls (VariantA.templateData imports calls)
     = VariantA.tpl_WarmupCalls (VariantA.templateData imports' calls') /\
     VariantB.tpl_WarmupCalls (VariantB.templateData pkg imports calls)
     = VariantB.tpl_WarmupCalls (VariantB.templateData pkg imports' calls')) /\
    (NoDup (map Path imports) ->
     VariantA.tpl_Imports (VariantA.templateData imports calls)
     = VariantA.tpl_Imports (VariantA.templateData imports' calls') /\
     VariantB.tpl_Imports (VariantB.templateData pkg imports calls)
     = VariantB.tpl_Imports (VariantB.templateData pkg imports' calls')) /\
    (VariantA.tpl_WarmupCalls (VariantA.templateData imports (deduplicateCalls w1 rawCalls))
     = VariantA.tpl_WarmupCalls (VariantA.templateData imports' (deduplicateCalls w2 rawCalls)) /\
     VariantB.tpl_WarmupCalls (VariantB.templateData pkg imports (deduplicateCalls w1 rawCalls))
     = VariantB.tpl_WarmupCalls (VariantB.templateData pkg imports' (deduplicateCalls w2 rawCalls))) /\
    (forall (importPaths : gmap string string) (modulePrefix : string),
        (forall a1 a2 rel, importPaths !! a1 = Some rel -> importPaths !! a2 = Some rel -> a1 = a2) ->
        VariantA.tpl_Imports
          (VariantA.templateData (importLinesOf w1 importPaths modulePrefix) calls)
        = VariantA.tpl_Imports
            (VariantA.templateData (importLinesOf w2 importPaths modulePrefix) calls') /\
        VariantB.tpl_Imports
          (VariantB.templateData pkg (importLinesOf w1 importPaths modulePrefix) calls)
        = VariantB.tpl_Imports
            (VariantB.templateData pkg (importLinesOf w2 importPaths modulePrefix) calls')).
Proof.
  intros T w1 w2 rawCalls pkg imports imports' calls calls' H1 H2 Hi Hc. simpl.
  split; [|split; [|split; [|split; [|split]]]]; cycle 5.
  { intros importPaths modulePrefix Hinj. split; now apply sorted_imports_agree. }
  - repeat split;
      first [ apply (SortFunc_ascending cmpImport cmpImport_total cmpImport_trans)
            | apply (SortFunc_ascending cmpCall cmpCall_total cmpCall_trans) ].
  - repeat split; apply SortFunc_perm.
  - intros Hnd. split; now apply sorted_calls_any_order.
  - intros Hnd. split; now apply sorted_imports_any_order.
  - split; now apply sorted_calls_agree.
Qed.

Lemma C7_witness :
  VariantA.tpl_Imports
    (VariantA.templateData
       (importLinesOf (Samples.emptyTree unit Samples.inOrder) Samples.onePackage "example.com/m")
       (deduplicateCalls (Samples.emptyTree unit Samples.inOrder) Samples.threeCalls))
  = VariantA.tpl_Imports
      (VariantA.templateData
         (importLinesOf (Samples.emptyTree unit Samples.backwards) Samples.onePackage "example.com/m")
         (deduplicateCalls (Samples.emptyTree unit Samples.backwards) Samples.threeCalls))
  /\
  VariantA.tpl_WarmupCalls
    (VariantA.templateData
       (importLinesOf (Samples.emptyTree unit Samples.inOrder) Samples.onePackage "example.com/m")
       (deduplicateCalls (Samples.emptyTree unit Samples.inOrder) Samples.threeCalls))
  = VariantA.tpl_WarmupCalls
      (VariantA.templateData
         (importLinesOf (Samples.emptyTree unit Samples.backwards) Samples.onePackage "example.com/m")
         (deduplicateCalls (Samples.emptyTree unit Samples.backwards) Samples.threeCalls)).
Proof.
  pose proof (C7_sorted_and_order_independent unit
    (Samples.emptyTree unit Samples.inOrder) (Samples.emptyTree unit Samples.backwards)
    Samples.threeCalls
    {| VariantB.PackageName := "pkg"; VariantB.Dir := "pkg";
       VariantB.RawCalls := Samples.threeCalls; VariantB.ImportPaths := Samples.onePackage |}
    (importLinesOf (Samples.emptyTree unit Samples.inOrder) Samples.onePackage "example.com/m")
    (importLinesOf (Samples.emptyTree unit Samples.backwards) Samples.onePackage "example.com/m")
    (deduplicateCalls (Samples.emptyTree unit Samples.inOrder) Samples.threeCalls)
    (deduplicateCalls (Samples.emptyTree unit Samples.backwards) Samples.threeCalls)) as H.
  destruct H as [_ [_ [_ [Himports [[Hcalls _] _]]]]].
  - intros V l. reflexivity.
  - intros V l. symmetry. apply Permutation_rev.
  - vm_compute. reflexivity.
  - vm_compute. apply Permutation_swap.
  - split.
    + apply Himports. vm_compute. repeat constructor. intros H. inversion H.
    + exact Hcalls.
Defined.

(** C7, as the claim words it, fails on the imports.  A package and its
    external test package live in one directory, so both names are bound
    to one path; the comparison sees a tie and the two entries reach the
    template in the order of the iteration over the map, which differs
    from run to run.  With a template that lists the imports as they
    come, two runs of either generator over the same tree write
    different files. *)
Lemma C7_import_order_follows_iteration :
  fair (Samples.emptyTree unit Samples.inOrder) /\
  fair (Samples.emptyTree unit Samples.backwards) /\
  VariantA.tpl_Imports
    (VariantA.templateData
       (importLinesOf (Samples.emptyTree unit Samples.inOrder) Samples.sharedDir "example.com/m") [])
  = [ {| Alias := "foo_test"; Path := "example.com/m/pkg" |};
      {| Alias := "foo"; Path := "example.com/m/pkg" |} ] /\
  VariantA.tpl_Imports
    (VariantA.templateData
       (importLinesOf (Samples.emptyTree unit Samples.backwards) Samples.sharedDir "example.com/m") [])
  = [ {| Alias := "foo"; Path := "example.com/m/pkg" |};
      {| Alias := "foo_test"; Path := "example.com/m/pkg" |} ] /\
  VariantA.templateData
    (importLinesOf (Samples.emptyTree unit Samples.inOrder) Samples.sharedDir "example.com/m") []
  <> VariantA.templateData
       (importLinesOf (Samples.emptyTree unit Samples.backwards) Samples.sharedDir "example.com/m") [] /\
  VariantA.run (Samples.sharedDirTree Samples.inOrder
                  (fun d => Some (Samples.aliasesOf (VariantA.tpl_Imports d)))) "."
  = (Done tt, [WriteFile "warmup.gen.go" "foo_test;foo;"; RunGoimports "warmup.gen.go"]) /\
  VariantA.run (Samples.sharedDirTree Samples.backwards
                  (fun d => Some (Samples.aliasesOf (VariantA.tpl_Imports d)))) "."
  = (Done tt, [WriteFile "warmup.gen.go" "foo;foo_test;"; RunGoimports "warmup.gen.go"]) /\
  VariantB.run (Samples.sharedDirTree Samples.inOrder
                  (fun d => Some (Samples.aliasesOf (VariantB.tpl_Imports d)))) "."
  = (Done tt, [WriteFile "pkg/warmup.gen.go" "foo_test;foo;"; RunGoimports "pkg/warmup.gen.go"]) /\
  VariantB.run (Samples.sharedDirTree Samples.backwards
                  (fun d => Some (Samples.aliasesOf (VariantB.tpl_Imports d)))) "."
  = (Done tt, [WriteFile "pkg/warmup.gen.go" "foo;foo_test;"; RunGoimports "pkg/warmup.gen.go"]).
Proof.
  split; [intros V l; reflexivity|].
  split; [intros V l; symmetry; apply Permutation_rev|].
  split; [vm_compute; reflexivity|].
  split; [vm_compute; reflexivity|].
  split; [vm_compute; discriminate|].
  repeat split; vm_compute; reflexivity.
Qed.

End Determinism.

(** ** Generic functions *)
Section GenericFunctions.
Import Ast Gen Scan Matching.

Lemma scanBody_build_ext {T : Type} (w : World T) build dir path pkgName importMap fd fd' body :
  build pkgName fd = build pkgName fd' ->
  scanBody w build dir path pkgName importMap fd body
  = scanBody w build dir path pkgName importMap fd' body.
Proof.
  intros E. unfold scanBody. induction (Inspect body) as [|n ns IH]; [reflexivity|].
  simpl. rewrite IH. f_equal.
  destruct n as [x | X sel | f line args | X | cs]; try reflexivity.
  simpl. now rewrite E.
Qed.

(** C8.  The per-package generator passes over every function
    declaration that has type parameters: whatever its body holds, it
    yields no raw call site.  The generator of cmd/tools/warmup does not
    look at the type parameters: a declaration yields what it would yield
    with any other type parameters or with none, and a generic free
    function whose body uses the probe yields one raw call site for each
    use. *)
Theorem C8_generic_functions_skipped_in_one_variant :
  forall (wA : World VariantA.warmupTemplateData) (wB : World VariantB.warmupTemplateData)
         (dir path pkgName : string) (importMap : gmap string string)
         (fd : FuncDecl) (tps : list node) (tp : option (list node)) (F : string) (body : node),
    VariantB.scanDecl wB dir path pkgName importMap (FuncD (withTypeParams fd (Some tps)))
    = Done [] /\
    VariantA.scanDecl wA dir path pkgName importMap (FuncD (withTypeParams fd tp))
    = VariantA.scanDecl wA dir path pkgName importMap (FuncD fd) /\
    VariantA.scanDecl wA dir path pkgName importMap (FuncD (freeFunc F (Some tps) (Some body)))
    = Done (map (fun n => {| rc_Expr := (pkgName ++ "." ++ F)%string;
                             rc_Comment := (filepath_Rel wA dir path ++ ":"
                                            ++ GoStrings.itoa (callLine n))%string |})
                (List.filter (matchesCall importMap) (Inspect body))) /\
    VariantB.scanDecl wB dir path pkgName importMap (FuncD (freeFunc F None (Some body)))
    = Done (map (fun n => {| rc_Expr := F;
                             rc_Comment := (filepath_Rel wB dir path ++ ":"
                                            ++ GoStrings.itoa (callLine n))%string |})
                (List.filter (matchesCall importMap) (Inspect body))).
Proof.
  intros. split; [|split; [|split]].
  - simpl. now destruct (Body fd).
  - simpl. destruct (Body fd) as [b|]; [|reflexivity]. now apply scanBody_build_ext.
  - simpl. now apply scanBody_done.
  - simpl. now apply scanBody_done.
Qed.

(** The two generators on the generic function of [Samples.probedFile]. *)
Example generic_function_scanned_and_skipped :
  VariantA.scanGoFiles (Samples.oneFileTree _ Samples.probedFile None) "."
  = Done ([ {| rc_Expr := "pkg.F"; rc_Comment := "pkg/x.go:9" |} ],
          <["pkg" := "pkg"]> ∅, <["reflecting" := probePath]> ∅) /\
  VariantB.scanPackages (Samples.oneFileTree _ Samples.probedFile None) "."
  = Done [ {| VariantB.PackageName := "pkg"; VariantB.Dir := "pkg";
              VariantB.RawCalls := []; VariantB.ImportPaths := <["pkg" := "pkg"]> ∅ |} ].
Proof. split; vm_compute; reflexivity. Qed.

End GenericFunctions.

(** ** The generated file as input *)
Section SelfExclusion.
Import Ast Gen Scan Matching.

(** The per-package generator tests the walk against the name it writes
    to, and a file of that name leaves the scan as it was. *)
Lemma second_generator_skips_its_output
    (w : World VariantB.warmupTemplateData) (dir path : string) (err : bool)
    (pkgMap : gmap string VariantB.packageData) :
  VariantB.skippedName = VariantB.outputName /\
  (Filepath.Base path = VariantB.outputName ->
   VariantB.visit w dir pkgMap (path, err) = Done pkgMap).
Proof.
  split; [reflexivity|]. intros H. simpl.
  rewrite H. simpl. now rewrite !orb_true_r.
Qed.

(** C1 fails on the generator of cmd/tools/warmup.  The walk compares
    the base name with [warmup_gen.go], the emitter writes
    [warmup.gen.go]; a file of the latter name is analysed like any other
    and its package, its imports and its uses of the probe enter the
    scan, as they do for the file [pkg/warmup.gen.go] of the example.
    The per-package generator, which tests for the name it writes,
    finds nothing there. *)
Theorem C1_first_generator_scans_file_named_as_output :
  VariantA.skippedName <> VariantA.outputName /\
  (forall (w : World VariantA.warmupTemplateData) (dir path : string) acc,
      Filepath.Base path = VariantA.outputName ->
      Filepath.Ext path = ".go" ->
      VariantA.visit w dir acc (path, false)
      = obind (VariantA.analyzeFile w path dir) (fun r =>
          Done (fst (fst acc) ++ fst (fst r), snd (fst r) ∪ snd (fst acc), snd r ∪ snd acc))) /\
  Filepath.Base "pkg/warmup.gen.go" = VariantA.outputName /\
  VariantA.scanGoFiles (Samples.rerunTree _ Samples.methodFile) "."
  = Done ([ {| rc_Expr := "(*pkg.T).M"; rc_Comment := "pkg/warmup.gen.go:5" |} ],
          <["pkg" := "pkg"]> ∅, <["reflecting" := probePath]> ∅) /\
  VariantB.scanPackages (Samples.rerunTree _ Samples.methodFile) "." = Done [].
Proof.
  split; [discriminate|]. split.
  { intros w dir path [[rawCalls importPaths] importMap] Hb He.
    unfold VariantA.visit. rewrite Hb, He. simpl.
    destruct (VariantA.analyzeFile w path dir) as [[[fileCalls pkgImport] fileImports]| |];
      reflexivity. }
  split; [reflexivity|]. split; vm_compute; reflexivity.
Qed.

End SelfExclusion.

(** ** The module manifest *)
Section Manifest.
Import Ast Gen Scan Matching.

Lemma prefix_split (p s : string) :
  String.prefix p s = true <-> exists rest, s = (p ++ rest)%string.
Proof.
  revert s. induction p as [|c p IH]; intros s.
  - simpl. destruct s; split; eauto.
  - destruct s as [|d s]; [split; [discriminate | intros [r H]; discriminate H]|].
    cbn [String.prefix]. destruct (Ascii.ascii_dec c d) as [->|Hne].
    + rewrite IH. split; intros [r H]; exists r; [now rewrite H | now injection H].
    + split; [discriminate | intros [r H]; injection H as E _; congruence].
Qed.

Lemma drop_bytes_append (p rest : string) :
  GoStrings.drop_bytes (String.length p) (p ++ rest) = rest.
Proof. induction p as [|c p IH]; [now destruct rest | exact IH]. Qed.

Lemma TrimPrefix_append (p rest : string) : GoStrings.TrimPrefix (p ++ rest) p = rest.
Proof.
  unfold GoStrings.TrimPrefix, GoStrings.HasPrefix.
  rewrite (proj2 (prefix_split p (p ++ rest)) (ex_intro _ rest eq_refl)).
  apply drop_bytes_append.
Qed.

Lemma find_first {A : Type} (f : A -> bool) (l : list A) (x : A) :
  List.find f l = Some x <->
  exists before after, l = before ++ x :: after /\ Forall (fun y => f y = false) before /\ f x = true.
Proof.
  induction l as [|y l IH]; simpl.
  - split; [discriminate | intros [[|b before] [after [H _]]]; discriminate H].
  - destruct (f y) eqn:Fy.
    + split.
      * intros [= ->]. exists [], l. repeat split; [constructor | exact Fy].
      * intros [[|b before] [after [H [Hall Hx]]]].
        -- now injection H as -> _.
        -- injection H as -> _. apply Forall_cons in Hall as [Hb _]. congruence.
    + rewrite IH. split.
      * intros [before [after [-> [Hall Hx]]]]. exists (y :: before), after.
        repeat split; [constructor; assumption | exact Hx].
      * intros [[|b before] [after [H [Hall Hx]]]].
        -- injection H as -> _. congruence.
        -- injection H as -> ->. apply Forall_cons in Hall as [_ Hall]. eauto.
Qed.

Lemma find_nothing {A : Type} (f : A -> bool) (l : list A) :
  List.find f l = None <-> Forall (fun y => f y = false) l.
Proof.
  induction l as [|y l IH]; simpl; [split; [constructor | reflexivity]|].
  destruct (f y) eqn:Fy.
  - split; [discriminate | intros H; apply Forall_cons in H as [H _]; congruence].
  - rewrite IH. split; [now constructor | intros H; now apply Forall_cons in H as [_ H]].
Qed.

Lemma getGoModModuleName_done {T : Type} (w : World T) (dir r : string) :
  getGoModModuleName w dir = Done r <->
  exists data before rest after,
    os_ReadFile w (filepath_Join w dir "go.mod") = Some data /\
    GoStrings.Split data (ascii_of_nat 10) = before ++ ("module " ++ rest)%string :: after /\
    Forall (fun line => GoStrings.HasPrefix line "module " = false) before /\
    r = GoStrings.TrimSpace rest.
Proof.
  unfold getGoModModuleName. destruct (os_ReadFile w _) as [data|].
  - destruct (List.find _ _) as [line|] eqn:F.
    + apply find_first in F as [before [after [Hs [Hb Hl]]]].
      apply prefix_split in Hl as [rest ->]. rewrite TrimPrefix_append. split.
      * intros [= <-]. exists data, before, rest, after. auto.
      * intros [data' [before' [rest' [after' [[= <-] [Hs' [Hb' ->]]]]]]].
        assert (Hf : List.find (fun line => GoStrings.HasPrefix line "module ")
                       (GoStrings.Split data (ascii_of_nat 10))
                     = Some ("module " ++ rest')%string).
        { apply find_first. exists before', after'. repeat split; trivial.
          apply prefix_split. now exists rest'. }
        assert (Hg : List.find (fun line => GoStrings.HasPrefix line "module ")
                       (GoStrings.Split data (ascii_of_nat 10))
                     = Some ("module " ++ rest)%string).
        { apply find_first. exists before, after. repeat split; trivial.
          apply prefix_split. now exists rest. }
        rewrite Hf in Hg. injection Hg as Hg. apply append_cancel_l in Hg. now subst.
    + split; [discriminate|].
      intros [data' [before' [rest' [after' [[= <-] [Hs' [Hb' ->]]]]]]].
      apply find_nothing in F. rewrite Hs' in F.
      apply Forall_app in F as [_ F]. apply Forall_cons in F as [F _].
      unfold GoStrings.HasPrefix in F.
      rewrite (proj2 (prefix_split "module " _) (ex_intro _ rest' eq_refl)) in F. discriminate.
  - split; [discriminate|]. intros [data [_ [_ [_ [H _]]]]]. discriminate.
Qed.

Lemma getGoModModuleName_fatal {T : Type} (w : World T) (dir : string) :
  (exists msg, getGoModModuleName w dir = Fatal msg) <->
  os_ReadFile w (filepath_Join w dir "go.mod") = None \/
  exists data, os_ReadFile w (filepath_Join w dir "go.mod") = Some data /\
               Forall (fun line => GoStrings.HasPrefix line "module " = false)
                      (GoStrings.Split data (ascii_of_nat 10)).
Proof.
  unfold getGoModModuleName. destruct (os_ReadFile w _) as [data|].
  - destruct (List.find _ _) as [line|] eqn:F.
    + split; [intros [msg H]; discriminate|].
      intros [H | [data' [[= <-] H]]]; [discriminate|].
      apply find_nothing in H. congruence.
    + split; [|eauto]. intros _. right. exists data. split; [reflexivity|].
      now apply find_nothing.
  - split; eauto.
Qed.

Lemma getGoModModuleName_total {T : Type} (w : World T) (dir : string) :
  (exists r, getGoModModuleName w dir = Done r) \/ (exists msg, getGoModModuleName w dir = Fatal msg).
Proof.
  unfold getGoModModuleName. destruct (os_ReadFile w _); [|eauto].
  destruct (List.find _ _); eauto.
Qed.

Lemma first_generator_stops_on_manifest (w : World VariantA.warmupTemplateData) (dir msg : string) :
  getGoModModuleName w dir = Fatal msg ->
  snd (VariantA.run w dir) = [] /\
  fst (VariantA.run w dir) <> Done tt /\
  (forall scanned, VariantA.scanGoFiles w dir = Done scanned ->
                   VariantA.run w dir = (Fatal msg, [])).
Proof.
  intros H. unfold VariantA.run, VariantA.generate, bind, lift, VariantA.buildImportLines.
  destruct (VariantA.scanGoFiles w dir) as [[[rawCalls importPaths] im]| |]; simpl;
    rewrite ?H; simpl; repeat split; try discriminate; intros scanned E;
    try discriminate E; reflexivity.
Qed.

Lemma second_generator_stops_on_manifest (w : World VariantB.warmupTemplateData) (dir msg : string) :
  getGoModModuleName w dir = Fatal msg ->
  snd (VariantB.run w dir) = [] /\
  fst (VariantB.run w dir) <> Done tt /\
  (forall pkgs, VariantB.scanPackages w dir = Done pkgs ->
                VariantB.run w dir = (Fatal msg, [])).
Proof.
  intros H. unfold VariantB.run, VariantB.generate, bind, lift.
  destruct (VariantB.scanPackages w dir) as [pkgs| |]; simpl;
    rewrite ?H; simpl; repeat split; try discriminate; intros scanned E;
    try discriminate E; reflexivity.
Qed.

Lemma first_generator_passes_over (w : World VariantA.warmupTemplateData) (dir path : string)
    (err : bool) acc rest :
  passedOver w path ->
  VariantA.visit w dir acc (path, err) = Done acc /\
  VariantA.walkFrom w dir acc ((path, err) :: rest) = VariantA.walkFrom w dir acc rest.
Proof.
  intros H.
  assert (E : VariantA.visit w dir acc (path, err) = Done acc).
  { destruct acc as [[rawCalls importPaths] importMap]. unfold VariantA.visit.
    destruct (err || _ || _); [reflexivity|].
    assert (Ea : VariantA.analyzeFile w path dir = Done ([], ∅, ∅)).
    { unfold VariantA.analyzeFile. destruct H as [-> | [node [-> Hm]]]; [reflexivity|].
      now rewrite Hm. }
    rewrite Ea. simpl. now rewrite app_nil_r, !(left_id_L ∅ (∪)). }
  split; [exact E|]. cbn [VariantA.walkFrom]. now rewrite E.
Qed.

Lemma second_generator_passes_over (w : World VariantB.warmupTemplateData) (dir path : string)
    (err : bool) pkgMap rest :
  passedOver w path ->
  VariantB.visit w dir pkgMap (path, err) = Done pkgMap /\
  VariantB.walkFrom w dir pkgMap ((path, err) :: rest) = VariantB.walkFrom w dir pkgMap rest.
Proof.
  intros H.
  assert (E : VariantB.visit w dir pkgMap (path, err) = Done pkgMap).
  { unfold VariantB.visit. destruct (err || _ || _); [reflexivity|].
    destruct H as [-> | [node [-> Hm]]]; [reflexivity|]. now rewrite Hm. }
  split; [exact E|]. cbn [VariantB.walkFrom]. now rewrite E.
Qed.

End Manifest.

Section FatalSetup.
Import Ast Gen Scan Matching.

(** C9.  [getGoModModuleName] answers the white-space-trimmed remainder
    of the first line of go.mod that begins with the module keyword and a
    blank; it ends the process through the fatal logger exactly when the
    file cannot be read or has no such line, and it never panics.  In
    both generators that fatal end is the end of the run: the run does
    not end normally and no file has been written for any package.  A
    source file that does not parse, or that declares the main package,
    leaves the scan as it was and the walk goes on with the next file. *)
Theorem C9_manifest_is_the_fatal_setup_error :
  forall (T : Type) (w : World T)
         (wA : World VariantA.warmupTemplateData) (wB : World VariantB.warmupTemplateData)
         (dir : string),
    (forall r, getGoModModuleName w dir = Done r <->
       exists data before rest after,
         os_ReadFile w (filepath_Join w dir "go.mod") = Some data /\
         GoStrings.Split data (ascii_of_nat 10) = before ++ ("module " ++ rest)%string :: after /\
         Forall (fun line => GoStrings.HasPrefix line "module " = false) before /\
         r = GoStrings.TrimSpace rest) /\
    ((exists msg, getGoModModuleName w dir = Fatal msg) <->
       os_ReadFile w (filepath_Join w dir "go.mod") = None \/
       exists data, os_ReadFile w (filepath_Join w dir "go.mod") = Some data /\
                    Forall (fun line => GoStrings.HasPrefix line "module " = false)
                           (GoStrings.Split data (ascii_of_nat 10))) /\
    ((exists r, getGoModModuleName w dir = Done r) \/
     (exists msg, getGoModModuleName w dir = Fatal msg)) /\
    (forall msg, getGoModModuleName wA dir = Fatal msg ->
       snd (VariantA.run wA dir) = [] /\
       fst (VariantA.run wA dir) <> Done tt /\
       (forall scanned, VariantA.scanGoFiles wA dir = Done scanned ->
                        VariantA.run wA dir = (Fatal msg, []))) /\
    (forall msg, getGoModModuleName wB dir = Fatal msg ->
       snd (VariantB.run wB dir) = [] /\
       fst (VariantB.run wB dir) <> Done tt /\
       (forall pkgs, VariantB.scanPackages wB dir = Done pkgs ->
                     VariantB.run wB dir = (Fatal msg, []))) /\
    (forall path err acc rest, passedOver wA path ->
       VariantA.visit wA dir acc (path, err) = Done acc /\
       VariantA.walkFrom wA dir acc ((path, err) :: rest) = VariantA.walkFrom wA dir acc rest) /\
    (forall path err pkgMap rest, passedOver wB path ->
       VariantB.visit wB dir pkgMap (path, err) = Done pkgMap /\
       VariantB.walkFrom wB dir pkgMap ((path, err) :: rest)
       = VariantB.walkFrom wB dir pkgMap rest).
Proof.
  intros T w wA wB dir. split; [|split; [|split; [|split; [|split; [|split]]]]].
  - intros r. apply getGoModModuleName_done.
  - apply getGoModModuleName_fatal.
  - apply getGoModModuleName_total.
  - intros msg. apply first_generator_stops_on_manifest.
  - intros msg. apply second_generator_stops_on_manifest.
  - intros path err acc rest. apply first_generator_passes_over.
  - intros path err pkgMap rest. apply second_generator_passes_over.
Qed.

Lemma C9_witness :
  getGoModModuleName (Samples.mixedTree unit) "." = Done "example.com/m" /\
  VariantA.run (Samples.oneFileTree _ Samples.methodFile None) "."
  = (Fatal "failed to read go.mod", []) /\
  VariantB.run (Samples.oneFileTree _ Samples.methodFile (Some "go 1.24")) "."
  = (Fatal "module name not found in go.mod", []) /\
  VariantA.walkFrom (Samples.mixedTree _) "." ([], ∅, ∅)
    [("pkg/broken.go", false); ("pkg/main.go", false); ("pkg/x.go", false)]
  = VariantA.walkFrom (Samples.mixedTree _) "." ([], ∅, ∅) [("pkg/x.go", false)] /\
  VariantB.walkFrom (Samples.mixedTree _) "." ∅
    [("pkg/broken.go", false); ("pkg/main.go", false); ("pkg/x.go", false)]
  = VariantB.walkFrom (Samples.mixedTree _) "." ∅ [("pkg/x.go", false)].
Proof.
  destruct (C9_manifest_is_the_fatal_setup_error unit (Samples.mixedTree unit)
              (Samples.oneFileTree _ Samples.methodFile None)
              (Samples.oneFileTree _ Samples.methodFile (Some "go 1.24")) ".")
    as [Hdone [_ [_ [HA [HB _]]]]].
  destruct (C9_manifest_is_the_fatal_setup_error unit (Samples.mixedTree unit)
              (Samples.mixedTree _) (Samples.mixedTree _) ".")
    as [_ [_ [_ [_ [_ [PA PB]]]]]].
  split; [|split; [|split; [|split]]].
  - apply Hdone.
    exists Samples.goMod, [], "example.com/m"%string, ["go 1.24"; ""]%string.
    split; [reflexivity|]. split; [vm_compute; reflexivity|].
    split; [constructor | vm_compute; reflexivity].
  - destruct (HA "failed to read go.mod"%string eq_refl) as [_ [_ H]].
    eapply H. vm_compute. reflexivity.
  - destruct (HB "module name not found in go.mod"%string eq_refl) as [_ [_ H]].
    eapply H. vm_compute. reflexivity.
  - destruct (PA "pkg/broken.go"%string false ([], ∅, ∅)
                 [("pkg/main.go"%string, false); ("pkg/x.go"%string, false)]) as [_ ->];
      [left; reflexivity|].
    destruct (PA "pkg/main.go"%string false ([], ∅, ∅) [("pkg/x.go"%string, false)]) as [_ ->];
      [right; exists Samples.mainFile; split; reflexivity|].
    reflexivity.
  - destruct (PB "pkg/broken.go"%string false ∅
                 [("pkg/main.go"%string, false); ("pkg/x.go"%string, false)]) as [_ ->];
      [left; reflexivity|].
    destruct (PB "pkg/main.go"%string false ∅ [("pkg/x.go"%string, false)]) as [_ ->];
      [right; exists Samples.mainFile; split; reflexivity|].
    reflexivity.
Defined.

End FatalSetup.

(** ** Packages without calls *)
Section EmptyResult.
Import Ast Gen Scan Matching.

Lemma renderAndWrite_events {T : Type} (w : World T) (tplData : T) (outputFile : string)
    (evs : list event) (e : event) :
  In e (snd (renderAndWrite w tplData outputFile evs)) ->
  In e evs \/ (exists content, e = WriteFile outputFile content) \/ e = RunGoimports outputFile.
Proof.
  unfold renderAndWrite, bind, emit, fatal.
  destruct (execTemplate w tplData) as [buf|]; [|auto].
  destruct (format_Source w buf) as [code|]; [|auto].
  destruct (os_WriteFile w outputFile code); [|auto].
  destruct (goimports w outputFile); simpl; rewrite ?in_app_iff; simpl; intros H.
  - destruct H as [[H | [<- | []]] | [<- | []]]; eauto.
  - destruct H as [H | [<- | []]]; eauto.
Qed.

Lemma forEach_events {A : Type} (Q : A -> event -> Prop) (body : A -> M unit) (xs : list A) :
  (forall x evs e, In x xs -> In e (snd (body x evs)) -> In e evs \/ Q x e) ->
  forall evs e, In e (snd (forEach xs body evs)) -> In e evs \/ exists x, In x xs /\ Q x e.
Proof.
  induction xs as [|x xs IH]; intros Hb evs e; simpl; [auto|].
  unfold bind. destruct (body x evs) as [[[]| |] evs1] eqn:E.
  - intros H. apply IH in H; [|intros; eapply Hb; eauto; now right].
    destruct H as [H | [y [Hy Hq]]]; [|right; exists y; auto].
    destruct (Hb x evs e (or_introl eq_refl)) as [H' | H']; [now rewrite E | auto |].
    right. exists x. auto.
  - simpl. intros H.
    destruct (Hb x evs e (or_introl eq_refl)) as [H' | H']; [now rewrite E | auto |].
    right. exists x. auto.
  - simpl. intros H.
    destruct (Hb x evs e (or_introl eq_refl)) as [H' | H']; [now rewrite E | auto |].
    right. exists x. auto.
Qed.

Lemma SortFunc_nil_iff (calls : list warmupCall) :
  Slices.SortFunc calls cmpCall = [] <-> calls = [].
Proof.
  split; intros H.
  - apply Permutation_nil. rewrite <- H. apply SortFunc_perm.
  - now subst.
Qed.

Lemma generatePackage_events (w : World VariantB.warmupTemplateData) (modulePrefix : string)
    (pkg : VariantB.packageData) (evs : list event) (e : event) :
  In e (snd (VariantB.generatePackage w modulePrefix pkg evs)) ->
  In e evs \/
  (VariantB.RawCalls pkg <> [] /\ deduplicateCalls w (VariantB.RawCalls pkg) <> [] /\
   ((exists content,
       e = WriteFile (filepath_Join w (VariantB.Dir pkg) VariantB.outputName) content)
    \/ e = RunGoimports (filepath_Join w (VariantB.Dir pkg) VariantB.outputName))).
Proof.
  unfold VariantB.generatePackage, VariantB.generateWarmupCode.
  destruct (VariantB.RawCalls pkg) as [|c cs] eqn:R; [simpl; auto|].
  destruct (Slices.SortFunc (deduplicateCalls w (c :: cs)) cmpCall) as [|wc wcs] eqn:S;
    [simpl; auto|].
  intros H. apply renderAndWrite_events in H as [H | H]; [auto|].
  right. split; [discriminate|]. split; [|exact H].
  intros E. rewrite E in S. discriminate S.
Qed.

Lemma second_generator_writes_for_calls_only (w : World VariantB.warmupTemplateData)
    (dir path content : string) :
  In (WriteFile path content) (snd (VariantB.run w dir)) ->
  exists pkgs pkg,
    VariantB.scanPackages w dir = Done pkgs /\ In pkg pkgs /\
    path = filepath_Join w (VariantB.Dir pkg) VariantB.outputName /\
    VariantB.RawCalls pkg <> [] /\
    deduplicateCalls w (VariantB.RawCalls pkg) <> [].
Proof.
  unfold VariantB.run, VariantB.generate, bind, lift.
  destruct (VariantB.scanPackages w dir) as [pkgs| |]; simpl; try contradiction.
  destruct (getGoModModuleName w dir) as [modulePrefix| |]; simpl; try contradiction.
  intros H.
  apply (forEach_events
           (fun pkg e =>
              VariantB.RawCalls pkg <> [] /\ deduplicateCalls w (VariantB.RawCalls pkg) <> [] /\
              ((exists content,
                  e = WriteFile (filepath_Join w (VariantB.Dir pkg) VariantB.outputName) content)
               \/ e = RunGoimports (filepath_Join w (VariantB.Dir pkg) VariantB.outputName))))
    in H.
  - destruct H as [[] | [pkg [Hin [Hr [Hd [[c E] | E]]]]]]; [|discriminate E].
    injection E as -> _. exists pkgs, pkg. auto.
  - intros pkg evs e _. apply generatePackage_events.
Qed.

Lemma first_generator_writes_anyway (w : World VariantA.warmupTemplateData) (dir : string)
    rawCalls importPaths importMap modulePrefix text code :
  VariantA.scanGoFiles w dir = Done (rawCalls, importPaths, importMap) ->
  getGoModModuleName w dir = Done modulePrefix ->
  execTemplate w (VariantA.templateData (importLinesOf w importPaths modulePrefix)
                                        (deduplicateCalls w rawCalls)) = Some text ->
  format_Source w text = Some code ->
  os_WriteFile w (filepath_Join w dir VariantA.outputName) code = true ->
  exists out more,
    VariantA.run w dir
    = (out, WriteFile (filepath_Join w dir VariantA.outputName) code :: more).
Proof.
  intros Hs Hm Ht Hf Hw.
  unfold VariantA.run, VariantA.generate, bind, lift, VariantA.buildImportLines,
    VariantA.generateWarmupCode, renderAndWrite, bind, emit, fatal.
  rewrite Hs. simpl. rewrite Hm. simpl. rewrite Ht, Hf, Hw. simpl.
  destruct (goimports w _); eauto.
Qed.

(** C4, as the code has it.  In the per-package generator every file
    written lies in the directory of a scanned package that has raw call
    sites and a non-empty list of deduplicated calls, and a package
    without raw call sites leaves the run as it was: nothing is written
    for it.  The generator of cmd/tools/warmup has no such test: once the
    scan and the manifest are through and the steps up to the write
    succeed, it writes its one file into the scanned directory, with or
    without calls. *)
Theorem C4_empty_result_suppression :
  forall (wA : World VariantA.warmupTemplateData) (wB : World VariantB.warmupTemplateData)
         (dir : string),
    (forall path content,
        In (WriteFile path content) (snd (VariantB.run wB dir)) ->
        exists pkgs pkg,
          VariantB.scanPackages wB dir = Done pkgs /\ In pkg pkgs /\
          path = filepath_Join wB (VariantB.Dir pkg) VariantB.outputName /\
          VariantB.RawCalls pkg <> [] /\
          deduplicateCalls wB (VariantB.RawCalls pkg) <> []) /\
    (forall modulePrefix pkg evs,
        VariantB.RawCalls pkg = [] ->
        VariantB.generatePackage wB modulePrefix pkg evs = (Done tt, evs)) /\
    (forall pkg imports evs,
        VariantB.generateWarmupCode wB pkg imports [] evs = (Done tt, evs)) /\
    (forall rawCalls importPaths importMap modulePrefix text code,
        VariantA.scanGoFiles wA dir = Done (rawCalls, importPaths, importMap) ->
        getGoModModuleName wA dir = Done modulePrefix ->
        execTemplate wA (VariantA.templateData (importLinesOf wA importPaths modulePrefix)
                                               (deduplicateCalls wA rawCalls)) = Some text ->
        format_Source wA text = Some code ->
        os_WriteFile wA (filepath_Join wA dir VariantA.outputName) code = true ->
        exists out more,
          VariantA.run wA dir
          = (out, WriteFile (filepath_Join wA dir VariantA.outputName) code :: more)).
Proof.
  intros wA wB dir. split; [|split; [|split]].
  - intros path content. apply second_generator_writes_for_calls_only.
  - intros modulePrefix pkg evs H. unfold VariantB.generatePackage. now rewrite H.
  - reflexivity.
  - intros. eapply first_generator_writes_anyway; eassumption.
Qed.

Lemma C4_witness :
  (exists pkgs pkg,
     VariantB.scanPackages (Samples.oneFileTree _ Samples.methodFile (Some Samples.goMod)) "."
     = Done pkgs /\ In pkg pkgs /\
     "pkg/warmup.gen.go"
     = filepath_Join (Samples.oneFileTree VariantB.warmupTemplateData Samples.methodFile
                        (Some Samples.goMod))
                     (VariantB.Dir pkg) VariantB.outputName /\
     VariantB.RawCalls pkg <> [] /\
     deduplicateCalls (Samples.oneFileTree VariantB.warmupTemplateData Samples.methodFile
                         (Some Samples.goMod)) (VariantB.RawCalls pkg) <> []) /\
  VariantB.run (Samples.oneFileTree _ Samples.quietFile (Some Samples.goMod)) "." = (Done tt, []) /\
  (exists out more,
     VariantA.run (Samples.oneFileTree _ Samples.quietFile (Some Samples.goMod)) "."
     = (out, WriteFile "warmup.gen.go" "package warmup" :: more)).
Proof.
  split; [|split].
  - destruct (C4_empty_result_suppression
                (Samples.oneFileTree _ Samples.methodFile (Some Samples.goMod))
                (Samples.oneFileTree _ Samples.methodFile (Some Samples.goMod)) ".")
      as [H _].
    apply (H "pkg/warmup.gen.go"%string "package warmup"%string).
    vm_compute. left. reflexivity.
  - vm_compute. reflexivity.
  - destruct (C4_empty_result_suppression
                (Samples.oneFileTree _ Samples.quietFile (Some Samples.goMod))
                (Samples.oneFileTree _ Samples.quietFile (Some Samples.goMod)) ".")
      as [_ [_ [_ H]]].
    apply (H [] (<["pkg" := "pkg"]> ∅) ∅ "example.com/m"%string
             "package warmup"%string "package warmup"%string);
      vm_compute; reflexivity.
Defined.

(** C4, as the claim words it, fails on the generator of
    cmd/tools/warmup: a tree whose only source file uses the probe
    nowhere has no deduplicated call, and the run still writes
    [warmup.gen.go] into the scanned directory and hands it to the import
    fixer. *)
Lemma C4_first_generator_writes_without_calls :
  (exists importPaths importMap,
     VariantA.scanGoFiles (Samples.oneFileTree _ Samples.quietFile (Some Samples.goMod)) "."
     = Done ([], importPaths, importMap)) /\
  deduplicateCalls (Samples.oneFileTree VariantA.warmupTemplateData Samples.quietFile
                      (Some Samples.goMod)) [] = [] /\
  VariantA.run (Samples.oneFileTree _ Samples.quietFile (Some Samples.goMod)) "."
  = (Done tt, [WriteFile "warmup.gen.go" "package warmup"; RunGoimports "warmup.gen.go"]).
Proof.
  split; [eexists; eexists; vm_compute; reflexivity|].
  split; vm_compute; reflexivity.
Qed.

End EmptyResult.

(** ** The names the probe hands out *)
Section LegalNames.
Import Reflecting.

Lemma deleteFrom_bytes (old : string) (skip : nat) (s : string) (a : ascii) :
  In a (list_ascii_of_string (GoStrings.deleteFrom old skip s)) ->
  In a (list_ascii_of_string s).
Proof.
  revert skip. induction s as [|c s IH]; intros skip; [simpl; auto|].
  cbn [GoStrings.deleteFrom]. destruct skip as [|k].
  - destruct (String.prefix old (String c s)).
    + intros H. right. eapply IH. exact H.
    + intros [H | H]; [now left | right; eapply IH; exact H].
  - intros H. right. eapply IH. exact H.
Qed.

Lemma ReplaceAllEmpty_bytes (s old : string) (a : ascii) :
  In a (list_ascii_of_string (GoStrings.ReplaceAllEmpty s old)) ->
  In a (list_ascii_of_string s).
Proof. destruct old; simpl; [auto | apply deleteFrom_bytes]. Qed.

Lemma deleteFrom_one_byte (c : ascii) (s : string) :
  ~ In c (list_ascii_of_string (GoStrings.deleteFrom (String c EmptyString) 0 s)).
Proof.
  induction s as [|d s IH]; [simpl; auto|].
  cbn [GoStrings.deleteFrom String.prefix String.length Nat.sub].
  destruct (Ascii.ascii_dec c d) as [->|Hne].
  - destruct s; exact IH.
  - simpl. intros [H | H]; [congruence | contradiction].
Qed.

Lemma Contains_one_byte (s : string) (c : ascii) :
  GoStrings.Contains s (String c EmptyString) = true <-> In c (list_ascii_of_string s).
Proof.
  induction s as [|d s IH]; [simpl; split; [discriminate | contradiction]|].
  cbn [GoStrings.Contains String.prefix list_ascii_of_string].
  rewrite orb_true_iff, IH. simpl.
  destruct (Ascii.ascii_dec c d) as [->|Hne].
  - destruct s; split; auto.
  - split; [intros [H | H]; [discriminate | auto] | intros [H | H]; [congruence | auto]].
Qed.

Lemma encodeRune_ascii (r : Z) :
  (0 <= r <= 127)%Z -> Utf8.encodeRune r = String (Utf8.byte r) EmptyString.
Proof.
  intros H. unfold Utf8.encodeRune.
  destruct (Z.ltb_spec r 0); [lia|].
  destruct (Z.ltb_spec 1114111 r); [lia|].
  destruct (Z.leb_spec 55296 r); [lia|].
  destruct (Z.leb_spec r 127); [reflexivity | lia].
Qed.

Lemma RemoveFromStringRune_bytes (cs : list Z) (s : string) (a : ascii) :
  In a (list_ascii_of_string (Commonutils.RemoveFromStringRune s cs)) ->
  In a (list_ascii_of_string s).
Proof.
  unfold Commonutils.RemoveFromStringRune. revert s.
  induction cs as [|r cs IH]; intros s; simpl; [auto|].
  intros H. apply IH in H. now apply ReplaceAllEmpty_bytes in H.
Qed.

Lemma RemoveFromStringRune_ascii (s : string) (cs : list Z) (r : Z) :
  In r cs -> (0 <= r <= 127)%Z ->
  Utf8.ContainsRune (Commonutils.RemoveFromStringRune s cs) r = false.
Proof.
  intros Hin Hr. unfold Utf8.ContainsRune. rewrite (encodeRune_ascii r Hr).
  apply not_true_is_false. rewrite Contains_one_byte.
  revert s. induction cs as [|r0 cs IH]; intros s; [contradiction|].
  destruct Hin as [-> | Hin]; [|now apply IH].
  intros H. change (Commonutils.RemoveFromStringRune s (r :: cs))
    with (Commonutils.RemoveFromStringRune
            (GoStrings.ReplaceAllEmpty s (Utf8.encodeRune r)) cs) in H.
  apply RemoveFromStringRune_bytes in H. rewrite (encodeRune_ascii r Hr) in H.
  now apply deleteFrom_one_byte in H.
Qed.

Lemma legalize_legal (s : string) : legal (legalize s).
Proof.
  intros r Hr. apply RemoveFromStringRune_ascii; [exact Hr|].
  destruct Hr as [<- | [<- | [<- | []]]]; lia.
Qed.

Lemma empty_legal : legal EmptyString.
Proof. intros r [<- | [<- | [<- | []]]]; reflexivity. Qed.

Lemma cacheLegal_insert (c : cache) (pc : N) (s : string) :
  cacheLegal c -> cacheLegal (<[pc := legalize s]> c).
Proof.
  intros Hc pc' name. destruct (decide (pc = pc')) as [<-|Hne].
  - rewrite lookup_insert_eq. intros [= <-]. apply legalize_legal.
  - rewrite lookup_insert_ne by exact Hne. apply Hc.
Qed.

Lemma empty_cache_legal : cacheLegal ∅.
Proof. intros pc name E. now apply lookup_empty_Some in E. Qed.

Lemma GetCurrentFunc_legal (rt : Runtime) (frames : Z -> option N) (c : cache) :
  cacheLegal c ->
  legal (fst (GetCurrentFunc rt frames c)) /\ cacheLegal (snd (GetCurrentFunc rt frames c)) /\
  cacheWrites c (snd (GetCurrentFunc rt frames c)).
Proof.
  intros Hc. unfold GetCurrentFunc.
  destruct (frames 1%Z) as [pc|]; [|repeat split; [apply empty_legal | exact Hc | constructor]].
  destruct (c !! pc) as [cached|] eqn:E; [repeat split; [eapply Hc; eauto | exact Hc | constructor]|].
  destruct (FuncForPC rt pc) as [fn|]; [|repeat split; [apply empty_legal | exact Hc | constructor]].
  simpl. repeat split; [apply legalize_legal | now apply cacheLegal_insert |].
  eapply writes_more; [apply write_Store | constructor].
Qed.

Lemma GetCurrentFuncDepth_legal (rt : Runtime) (frames : Z -> option N) (depth : Z) (c : cache) :
  cacheLegal c ->
  legal (fst (GetCurrentFuncDepth rt frames depth c)) /\
  cacheLegal (snd (GetCurrentFuncDepth rt frames depth c)) /\
  cacheWrites c (snd (GetCurrentFuncDepth rt frames depth c)).
Proof.
  intros Hc. unfold GetCurrentFuncDepth.
  destruct (c !! default 0%N (frames depth)) as [name|] eqn:E;
    [repeat split; [eapply Hc; eauto | exact Hc | constructor]|].
  simpl. repeat split; [apply legalize_legal | now apply cacheLegal_insert |].
  eapply writes_more; [|constructor].
  pose proof (write_LoadOrStore c (default 0%N (frames depth))
                (nameOf (FuncForPC rt (default 0%N (frames depth))))) as W.
  now rewrite E in W.
Qed.

Lemma GetFunctionName_legal (rt : Runtime) (ptr : option N) (c : cache) name c' :
  cacheLegal c -> GetFunctionName rt ptr c = Some (name, c') ->
  legal name /\ cacheLegal c' /\ cacheWrites c c'.
Proof.
  intros Hc. unfold GetFunctionName. destruct ptr as [p|]; [|discriminate].
  destruct (FuncForPC rt p) as [fn|].
  - destruct (c !! fn_Entry fn) as [cached|] eqn:E; intros [= <- <-].
    + repeat split; [eapply Hc; eauto | exact Hc | constructor].
    + repeat split; [apply legalize_legal | now apply cacheLegal_insert |].
      eapply writes_more; [apply write_Store | constructor].
  - intros [= <- <-]. repeat split; [apply empty_legal | exact Hc | constructor].
Qed.

Lemma exec_legal (rt : Runtime) (cl : call) (c : cache) name c' :
  cacheLegal c -> exec rt cl c = Some (name, c') -> legal name /\ cacheLegal c'.
Proof.
  intros Hc. destruct cl as [frames | frames depth | ptr]; simpl.
  - intros [= E]. destruct (GetCurrentFunc_legal rt frames c Hc) as [H1 [H2 _]].
    rewrite E in H1, H2. now split.
  - intros [= E]. destruct (GetCurrentFuncDepth_legal rt frames depth c Hc) as [H1 [H2 _]].
    rewrite E in H1, H2. now split.
  - intros H. now destruct (GetFunctionName_legal rt ptr c name c' Hc H) as [? [? _]].
Qed.

Lemma cacheWrite_legal (c c' : cache) : cacheLegal c -> cacheWrite c c' -> cacheLegal c'.
Proof.
  intros Hc H. inversion H as [c0 pc raw | c0 pc raw]; subst.
  - now apply cacheLegal_insert.
  - destruct (c !! pc); [exact Hc | now apply cacheLegal_insert].
Qed.

Lemma cacheWrites_legal (c c' : cache) : cacheLegal c -> cacheWrites c c' -> cacheLegal c'.
Proof.
  intros Hc H. induction H as [c | c c1 c2 W _ IH]; [exact Hc|].
  apply IH. eapply cacheWrite_legal; eassumption.
Qed.

(** C10, as the code has it.  From a cache whose names are free of the
    star and the two parentheses (the empty cache of a fresh process is
    one), any sequence of uses of [GetCurrentFunc], [GetCurrentFuncDepth]
    and [GetFunctionName] leaves such a cache and returns only such names;
    so does any interleaving of the writes these functions make to the
    shared map.  The reason is that every name written went through
    [legalize], and that [RemoveFromStringRune] returns a string without
    any of the listed runes that is a single byte, that is, below 128. *)
Theorem C10_probe_names_are_legal :
  forall (rt : Runtime) (cls : list call) (c c' : cache) (names : list string),
    cacheLegal c ->
    execAll rt cls c = Some (names, c') ->
    cacheLegal c' /\
    Forall legal names /\
    cacheLegal ∅ /\
    (forall c1 c2, cacheLegal c1 -> cacheWrites c1 c2 -> cacheLegal c2) /\
    (forall s, legal (legalize s)) /\
    (forall s cs r, In r cs -> (0 <= r <= 127)%Z ->
                    Utf8.ContainsRune (Commonutils.RemoveFromStringRune s cs) r = false).
Proof.
  intros rt cls. induction cls as [|cl cls IH]; intros c c' names Hc H.
  - injection H as <- <-.
    split; [exact Hc|]. split; [constructor|]. split; [apply empty_cache_legal|].
    split; [apply cacheWrites_legal|]. split; [apply legalize_legal|].
    apply RemoveFromStringRune_ascii.
  - cbn [execAll] in H. destruct (exec rt cl c) as [[name c1]|] eqn:E; [|discriminate].
    destruct (execAll rt cls c1) as [[names' c2]|] eqn:E'; [|discriminate].
    injection H as <- <-.
    destruct (exec_legal rt cl c name c1 Hc E) as [Hn Hc1].
    destruct (IH c1 c2 names' Hc1 E') as [H1 [H2 H3]].
    split; [exact H1|]. split; [now constructor | exact H3].
Qed.

Lemma C10_witness :
  execAll Samples.runtime Samples.probeUses ∅
  = Some (["pkg.T.M"; "pkg.T.M"; "pkg.T.M"; "pkg.T.M"],
          <[96%N := "pkg.T.M"]> (<[100%N := "pkg.T.M"]> ∅)) /\
  cacheLegal (<[96%N := "pkg.T.M"]> (<[100%N := "pkg.T.M"]> ∅)) /\
  Forall legal ["pkg.T.M"; "pkg.T.M"; "pkg.T.M"; "pkg.T.M"].
Proof.
  assert (E : execAll Samples.runtime Samples.probeUses ∅
              = Some (["pkg.T.M"; "pkg.T.M"; "pkg.T.M"; "pkg.T.M"],
                      <[96%N := "pkg.T.M"]> (<[100%N := "pkg.T.M"]> ∅)))
    by (vm_compute; reflexivity).
  split; [exact E|].
  destruct (C10_probe_names_are_legal Samples.runtime Samples.probeUses ∅ _ _
              empty_cache_legal E)
    as [H1 [H2 _]].
  split; assumption.
Defined.

(** C10, as the claim words it, fails in its last part: for a rune of
    more than one byte, deleting its encoding can join the bytes around
    it into a new copy.  The string of the four bytes C3 C3 A9 A9 loses
    the middle two and what is left is the rune U+00E9 again. *)
Lemma C10_multibyte_rune_reappears :
  Commonutils.RemoveFromStringRune (GoStrings.bytes [195; 195; 169; 169]) [233%Z]
  = Utf8.encodeRune 233 /\
  Utf8.ContainsRune
    (Commonutils.RemoveFromStringRune (GoStrings.bytes [195; 195; 169; 169]) [233%Z]) 233
  = true.
Proof. split; vm_compute; reflexivity. Qed.

End LegalNames.

(** ** The library functions on small inputs *)
Section SmallInputs.

Example Split_on_slash : GoStrings.Split "a/b//c" "/"%char = ["a"; "b"; ""; "c"]%string.
Proof. reflexivity. Qed.

Example Split_of_empty : GoStrings.Split "" "/"%char = [""%string].
Proof. reflexivity. Qed.

Example TrimSpace_mixed :
  GoStrings.TrimSpace
    (String (ascii_of_nat 9) " github.com/x/y  " ++ GoStrings.bytes [194; 160])%string
  = "github.com/x/y".
Proof. vm_compute. reflexivity. Qed.

Example itoa_values :
  GoStrings.itoa 120 = "120" /\ GoStrings.itoa 0 = "0" /\ GoStrings.itoa (-7) = "-7".
Proof. vm_compute. auto. Qed.

Example Ext_values :
  Filepath.Ext "a.b/c.d.go" = ".go" /\ Filepath.Ext "a.b/c" = "" /\
  Filepath.Ext ".go" = ".go" /\ Filepath.Ext "x.go/" = "".
Proof. vm_compute. auto. Qed.

Example Base_values :
  Filepath.Base "a/b/warmup.gen.go" = "warmup.gen.go" /\ Filepath.Base "///" = "/" /\
  Filepath.Base "x/" = "x" /\ Filepath.Base "" = ".".
Proof. vm_compute. auto. Qed.

Example ReplaceAll_values :
  GoStrings.ReplaceAllEmpty "a(b)(*c)" "(" = "ab)*c)" /\
  GoStrings.ReplaceAllEmpty "aabb" "ab" = "ab" /\
  Reflecting.legalize "pkg.(*T).M" = "pkg.T.M" /\
  Reflecting.getLastPathElement "github.com/x/pkg.(*T).M" = "pkg.(*T).M".
Proof. vm_compute. auto. Qed.

Example SortFunc_is_stable_on_ties :
  Slices.SortFunc [(2, "a"); (1, "b"); (2, "c"); (1, "d")]%Z
                  (fun x y => (fst x - fst y)%Z)
  = [(1, "b"); (1, "d"); (2, "a"); (2, "c")]%Z.
Proof. reflexivity. Qed.

(** The whole of the per-package generator on a file with one method *)
Example second_generator_run :
  VariantB.run (Samples.oneFileTree _ Samples.methodFile (Some Samples.goMod)) "."
  = (Gen.Done tt, [Gen.WriteFile "pkg/warmup.gen.go" "package warmup";
                   Gen.RunGoimports "pkg/warmup.gen.go"]).
Proof. vm_compute. reflexivity. Qed.

End SmallInputs.

(** * Further properties *)

(** ** The container helpers *)
Section ContainerHelpers.
Import Containers Extra.

Lemma insertAll_snoc {K : Type} `{Countable K} {V : Type} (l : list (K * V)) (kv : K * V)
    (acc : gmap K V) :
  insertAll (l ++ [kv]) acc = <[fst kv := snd kv]> (insertAll l acc).
Proof. unfold insertAll. now rewrite fold_left_app. Qed.

Lemma insertAll_sound {K : Type} `{Countable K} {V : Type} (l : list (K * V)) (acc : gmap K V)
    (k : K) (v : V) :
  insertAll l acc !! k = Some v -> (k, v) ∈ l \/ acc !! k = Some v.
Proof.
  induction l as [|[k0 v0] l IH] using rev_ind; [auto|].
  rewrite insertAll_snoc. simpl. destruct (decide (k0 = k)) as [->|Hne].
  - rewrite lookup_insert_eq. intros [= ->]. left. apply elem_of_app. right. now left.
  - rewrite lookup_insert_ne by exact Hne. intros Hl.
    destruct (IH Hl) as [Hin | Hacc]; [left | now right].
    apply elem_of_app. now left.
Qed.

Lemma insertAll_complete {K : Type} `{Countable K} {V : Type} (l : list (K * V))
    (acc : gmap K V) (k : K) (v : V) :
  (k, v) ∈ l -> is_Some (insertAll l acc !! k).
Proof.
  induction l as [|[k0 v0] l IH] using rev_ind; [intros Hin; inversion Hin|].
  rewrite insertAll_snoc. simpl. intros Hin. destruct (decide (k0 = k)) as [->|Hne].
  - rewrite lookup_insert_eq. eauto.
  - rewrite lookup_insert_ne by exact Hne. apply IH.
    apply elem_of_app in Hin as [Hin | Hin]; [exact Hin|].
    apply list_elem_of_singleton in Hin. congruence.
Qed.

Lemma insertAll_notin {K : Type} `{Countable K} {V : Type} (l : list (K * V)) (acc : gmap K V)
    (k : K) :
  k ∉ l.*1 -> insertAll l acc !! k = acc !! k.
Proof.
  induction l as [|[k0 v0] l IH] using rev_ind; [reflexivity|].
  rewrite insertAll_snoc, fmap_app. simpl. intros Hn.
  rewrite not_elem_of_app in Hn. destruct Hn as [Hn Hk].
  rewrite lookup_insert_ne; [now apply IH|].
  intros ->. apply Hk. now left.
Qed.

Lemma insertAll_in {K : Type} `{Countable K} {V : Type} (l : list (K * V)) (acc : gmap K V)
    (k : K) (v : V) :
  NoDup l.*1 -> (k, v) ∈ l -> insertAll l acc !! k = Some v.
Proof.
  induction l as [|[k0 v0] l IH] using rev_ind; [intros _ Hin; inversion Hin|].
  rewrite insertAll_snoc, fmap_app. simpl. intros Hnd Hin.
  apply NoDup_app in Hnd as [Hnd [Hdis _]].
  apply elem_of_app in Hin as [Hin | Hin].
  - rewrite lookup_insert_ne; [now apply IH|].
    intros ->. apply (Hdis k); [|now left].
    apply list_elem_of_fmap. now exists (k, v).
  - apply list_elem_of_singleton in Hin. injection Hin as -> ->.
    now rewrite lookup_insert_eq.
Qed.

Lemma fold_insert_as_insertAll {K : Type} `{Countable K} {V A : Type} (h : A -> K * V)
    (l : list A) (acc : gmap K V) :
  fold_left (fun res a => <[fst (h a) := snd (h a)]> res) l acc = insertAll (map h l) acc.
Proof.
  unfold insertAll. revert acc. induction l as [|a l IH]; intros acc; [reflexivity|].
  simpl. apply IH.
Qed.

Section OneMap.
Context {K : Type} `{Countable K} {V RV : Type}.
Variable order : list (K * V) -> list (K * V).
Hypothesis order_fair : forall l, order l ≡ₚ l.

Lemma rangeOf_elem (m : gmap K V) (k : K) (v : V) :
  (k, v) ∈ rangeOf order m <-> m !! k = Some v.
Proof. unfold rangeOf. rewrite order_fair. apply elem_of_map_to_list. Qed.

Lemma rangeOf_NoDup (m : gmap K V) : NoDup (rangeOf order m).*1.
Proof. unfold rangeOf. rewrite order_fair. apply NoDup_fst_map_to_list. Qed.

Lemma keys_of_values_mapped (f : V -> RV) (l : list (K * V)) :
  (map (fun kv => (fst kv, f (snd kv))) l).*1 = l.*1.
Proof. induction l as [|[k v] l IH]; [reflexivity|]. simpl. f_equal. exact IH. Qed.

Lemma TransMapByValue_insertAll (m : gmap K V) (f : V -> RV) :
  TransMapByValue order m f
  = insertAll (map (fun kv => (fst kv, f (snd kv))) (rangeOf order m)) ∅.
Proof. exact (fold_insert_as_insertAll (fun kv => (fst kv, f (snd kv))) _ _). Qed.

Lemma TransMapByValue_fmap (m : gmap K V) (f : V -> RV) :
  TransMapByValue order m f = f <$> m.
Proof.
  rewrite TransMapByValue_insertAll.
  apply map_eq. intros k. rewrite lookup_fmap.
  destruct (m !! k) as [v|] eqn:E; simpl.
  - apply insertAll_in.
    + rewrite keys_of_values_mapped. apply rangeOf_NoDup.
    + apply list_elem_of_In, in_map_iff. exists (k, v). split; [reflexivity|].
      apply list_elem_of_In. now apply rangeOf_elem.
  - rewrite insertAll_notin; [apply lookup_empty|].
    rewrite keys_of_values_mapped. intros Hin.
    apply list_elem_of_fmap in Hin as [[k0 v0] [-> Hin]].
    apply rangeOf_elem in Hin. simpl in E. congruence.
Qed.

(** X1.  Whatever order the iteration over the map takes, as long as it
    yields every entry once,
    [TransMapByValue] returns the map with the same keys whose values are
    the images of the old ones under the function: a key is looked up in
    the result as it is in the argument, with the function applied to
    what is found. *)
Theorem X1_TransMapByValue_maps_each_value :
  forall (m : gmap K V) (f : V -> RV),
    TransMapByValue order m f = f <$> m /\
    (forall k, TransMapByValue order m f !! k = f <$> (m !! k)) /\
    dom (TransMapByValue order m f) = dom m.
Proof.
  intros m f. rewrite TransMapByValue_fmap. split; [reflexivity|]. split.
  - intros k. apply lookup_fmap.
  - apply dom_fmap_L.
Qed.

Lemma byValueWithErrFrom_cases {E : Type} (f : V -> RV * option E) (l : list (K * V))
    (res : gmap K RV) :
  (Forall (fun kv => snd (f (snd kv)) = None) l /\
   byValueWithErrFrom f l res
   = (Some (insertAll (map (fun kv => (fst kv, fst (f (snd kv)))) l) res), None)) \/
  (exists k v e, (k, v) ∈ l /\ snd (f v) = Some e /\ byValueWithErrFrom f l res = (None, Some e)).
Proof.
  revert res. induction l as [|[k v] l IH]; intros res.
  - left. split; [constructor | reflexivity].
  - cbn [byValueWithErrFrom]. destruct (f v) as [tgt [e|]] eqn:Fv.
    + right. exists k, v, e. rewrite Fv. repeat split. now left.
    + destruct (IH (<[k := tgt]> res)) as [[Hall Hr] | [k' [v' [e [Hin [He Hr]]]]]].
      * left. split; [constructor; [simpl; now rewrite Fv | exact Hall]|].
        rewrite Hr. simpl. now rewrite Fv.
      * right. exists k', v', e. repeat split; [now right | exact He | exact Hr].
Qed.

(** X2.  [TransMapByValueWithErr] either finds that the function
    succeeds on every value and returns the map of the results with a
    nil error, or returns the nil map together with the error that the
    function gave for one of the values of the map; it never returns a
    partly filled map. *)
Theorem X2_TransMapByValueWithErr_all_or_error :
  forall (E : Type) (m : gmap K V) (f : V -> RV * option E),
    ((forall k v, m !! k = Some v -> snd (f v) = None) /\
     TransMapByValueWithErr order m f = (Some ((fun v => fst (f v)) <$> m), None)) \/
    (exists k v e, m !! k = Some v /\ snd (f v) = Some e /\
                   TransMapByValueWithErr order m f = (None, Some e)).
Proof.
  intros E m f. unfold TransMapByValueWithErr.
  destruct (byValueWithErrFrom_cases f (rangeOf order m) ∅)
    as [[Hall Hr] | [k [v [e [Hin [He Hr]]]]]].
  - left. split.
    + intros k v Hkv. rewrite Forall_forall in Hall.
      apply (Hall (k, v)). now apply rangeOf_elem.
    + rewrite Hr. f_equal. f_equal.
      rewrite <- (TransMapByValue_fmap m (fun v => fst (f v))).
      symmetry. apply TransMapByValue_insertAll.
  - right. exists k, v, e. split; [now apply rangeOf_elem | auto].
Qed.

End OneMap.

Section KeyedMap.
Context {K : Type} `{Countable K} {RK : Type} `{Countable RK} {V RV : Type}.
Variable order : list (K * V) -> list (K * V).
Hypothesis order_fair : forall l, order l ≡ₚ l.

Lemma TransMap_insertAll_from (f : K -> V -> RK * RV) (l : list (K * V)) (acc : gmap RK RV) :
  fold_left (fun res kv =>
               let '(tgtKey, tgtValue) := f (fst kv) (snd kv) in
               <[tgtKey := tgtValue]> res) l acc
  = insertAll (map (fun kv => f (fst kv) (snd kv)) l) acc.
Proof.
  unfold insertAll. revert acc. induction l as [|[k v] l IH]; intros acc; [reflexivity|].
  simpl. rewrite <- IH. now destruct (f k v).
Qed.

Lemma TransMap_insertAll (m : gmap K V) (f : K -> V -> RK * RV) :
  TransMap order m f = insertAll (map (fun kv => f (fst kv) (snd kv)) (rangeOf order m)) ∅.
Proof. apply TransMap_insertAll_from. Qed.

Lemma insertAll_size (l : list (RK * RV)) :
  NoDup l.*1 -> size (insertAll l ∅) = length l.
Proof.
  induction l as [|[k v] l IH] using rev_ind; [intros _; apply map_size_empty|].
  rewrite insertAll_snoc, fmap_app, length_app. simpl. intros Hnd.
  apply NoDup_app in Hnd as [Hnd [Hdis _]].
  rewrite map_size_insert_None.
  - rewrite IH by exact Hnd. lia.
  - rewrite insertAll_notin; [apply lookup_empty|].
    intros Hin. apply (Hdis k Hin). now left.
Qed.

(** X3.  Whatever the order of the iteration, every entry of the map
    that [TransMap] returns is the image of an entry of the argument, and
    the new key of every entry of the argument is present in the result.
    When no two entries are sent to the same new key, each new key holds
    the new value of its entry and the result has as many entries as the
    argument. *)
Theorem X3_TransMap_entries :
  forall (m : gmap K V) (f : K -> V -> RK * RV),
    (forall k' v', TransMap order m f !! k' = Some v' ->
                   exists k v, m !! k = Some v /\ f k v = (k', v')) /\
    (forall k v, m !! k = Some v -> is_Some (TransMap order m f !! fst (f k v))) /\
    ((forall k1 v1 k2 v2, m !! k1 = Some v1 -> m !! k2 = Some v2 ->
                          fst (f k1 v1) = fst (f k2 v2) -> k1 = k2) ->
     (forall k v, m !! k = Some v -> TransMap order m f !! fst (f k v) = Some (snd (f k v))) /\
     size (TransMap order m f) = size m).
Proof.
  intros m f. rewrite TransMap_insertAll. split; [|split].
  - intros k' v' Hl. apply insertAll_sound in Hl as [Hin | Hl];
      [|rewrite lookup_empty in Hl; discriminate].
    apply list_elem_of_In, in_map_iff in Hin as [[k v] [Hf Hin]].
    exists k, v. split; [|exact Hf]. apply (rangeOf_elem order order_fair).
    now apply list_elem_of_In.
  - intros k v Hkv. apply (insertAll_complete _ _ _ (snd (f k v))).
    apply list_elem_of_In, in_map_iff. exists (k, v). split; [simpl; now destruct (f k v)|].
    apply list_elem_of_In. now apply (rangeOf_elem order order_fair).
  - intros Hinj.
    assert (Hnd : NoDup (map (fun kv => f (fst kv) (snd kv)) (rangeOf order m)).*1).
    { pose proof (rangeOf_NoDup order order_fair m) as Hk.
      assert (Hin : forall kv, kv ∈ rangeOf order m -> m !! fst kv = Some (snd kv)).
      { intros [k v] Hkv. now apply (rangeOf_elem order order_fair). }
      induction (rangeOf order m) as [|[k v] l IH]; [constructor|].
      simpl in *. apply NoDup_cons in Hk as [Hk Hl]. apply NoDup_cons. split.
      - intros Hc. apply list_elem_of_fmap in Hc as [[k1 v1] [E Hc]].
        apply list_elem_of_In, in_map_iff in Hc as [[k2 v2] [E2 Hc]].
        apply list_elem_of_In in Hc. simpl in *.
        assert (k = k2).
        { apply (Hinj k v k2 v2).
          - apply (Hin (k, v)). now left.
          - apply (Hin (k2, v2)). now right.
          - rewrite E, E2. reflexivity. }
        subst k2. apply Hk. apply list_elem_of_fmap. now exists (k, v2).
      - apply IH; [exact Hl|]. intros kv Hkv. apply Hin. now right. }
    split.
    + intros k v Hkv. apply insertAll_in; [exact Hnd|].
      apply list_elem_of_In, in_map_iff. exists (k, v). split; [simpl; now destruct (f k v)|].
      apply list_elem_of_In. now apply (rangeOf_elem order order_fair).
    + rewrite insertAll_size by exact Hnd. rewrite length_map. unfold rangeOf.
      rewrite order_fair. apply length_map_to_list.
Qed.

Lemma withErrFrom_cases {E : Type} (f : K -> V -> RK * RV * option E) (l : list (K * V))
    (res : gmap RK RV) :
  (Forall (fun kv => snd (f (fst kv) (snd kv)) = None) l /\
   withErrFrom f l res
   = (Some (insertAll (map (fun kv => fst (f (fst kv) (snd kv))) l) res), None)) \/
  (exists k v e, (k, v) ∈ l /\ snd (f k v) = Some e /\ withErrFrom f l res = (None, Some e)).
Proof.
  revert res. induction l as [|[k v] l IH]; intros res.
  - left. split; [constructor | reflexivity].
  - cbn [withErrFrom]. destruct (f k v) as [[tgtKey tgtValue] [e|]] eqn:Fv.
    + right. exists k, v, e. rewrite Fv. repeat split. now left.
    + destruct (IH (<[tgtKey := tgtValue]> res)) as [[Hall Hr] | [k' [v' [e [Hin [He Hr]]]]]].
      * left. split; [constructor; [simpl; now rewrite Fv | exact Hall]|].
        rewrite Hr. simpl. now rewrite Fv.
      * right. exists k', v', e. repeat split; [now right | exact He | exact Hr].
Qed.

(** X4.  [TransMapWithErr] either finds that the function succeeds on
    every entry and returns, with a nil error, the map that [TransMap]
    builds from the keys and values it gave, or returns the nil map
    together with the error the function gave for one of the entries. *)
Theorem X4_TransMapWithErr_all_or_error :
  forall (E : Type) (m : gmap K V) (f : K -> V -> RK * RV * option E),
    ((forall k v, m !! k = Some v -> snd (f k v) = None) /\
     TransMapWithErr order m f = (Some (TransMap order m (fun k v => fst (f k v))), None)) \/
    (exists k v e, m !! k = Some v /\ snd (f k v) = Some e /\
                   TransMapWithErr order m f = (None, Some e)).
Proof.
  intros E m f. unfold TransMapWithErr.
  destruct (withErrFrom_cases f (rangeOf order m) ∅)
    as [[Hall Hr] | [k [v [e [Hin [He Hr]]]]]].
  - left. split.
    + intros k v Hkv. rewrite Forall_forall in Hall.
      apply (Hall (k, v)). now apply (rangeOf_elem order order_fair).
    + rewrite Hr. f_equal. f_equal. symmetry.
      apply (TransMap_insertAll m (fun k v => fst (f k v))).
  - right. exists k, v, e. split; [now apply (rangeOf_elem order order_fair) | auto].
Qed.

Lemma withSkip_insertAll (f : K -> V -> RK * RV * bool) (l : list (K * V)) (acc : gmap RK RV) :
  fold_left (fun res kv =>
               let '(tgtKey, tgtValue, skip) := f (fst kv) (snd kv) in
               if skip then res else <[tgtKey := tgtValue]> res) l acc
  = insertAll (map fst (List.filter (fun r => negb (snd r))
                                    (map (fun kv => f (fst kv) (snd kv)) l))) acc.
Proof.
  unfold insertAll. revert acc. induction l as [|[k v] l IH]; intros acc; [reflexivity|].
  simpl. destruct (f k v) as [[tgtKey tgtValue] [|]]; simpl; apply IH.
Qed.

(** X5.  [TransMapWithSkip] always returns a nil error.  Every entry of
    the map it returns is what the function gave, without asking to
    skip, for an entry of the argument; the new key of every entry that
    is not skipped is present; and when nothing is skipped the result is
    the one of [TransMap]. *)
Theorem X5_TransMapWithSkip_entries :
  forall (E : Type) (m : gmap K V) (f : K -> V -> RK * RV * bool),
    snd (TransMapWithSkip (E:=E) order m f) = None /\
    (forall k' v', fst (TransMapWithSkip (E:=E) order m f) !! k' = Some v' ->
                   exists k v, m !! k = Some v /\ f k v = (k', v', false)) /\
    (forall k v, m !! k = Some v -> snd (f k v) = false ->
                 is_Some (fst (TransMapWithSkip (E:=E) order m f) !! fst (fst (f k v)))) /\
    ((forall k v, m !! k = Some v -> snd (f k v) = false) ->
     fst (TransMapWithSkip (E:=E) order m f) = TransMap order m (fun k v => fst (f k v))).
Proof.
  intros E m f. unfold TransMapWithSkip. cbn [fst snd]. rewrite withSkip_insertAll.
  split; [reflexivity|]. split; [|split].
  - intros k' v' Hl. apply insertAll_sound in Hl as [Hin | Hl];
      [|rewrite lookup_empty in Hl; discriminate].
    apply list_elem_of_In, in_map_iff in Hin as [[[k1 v1] b] [[= -> ->] Hin]].
    apply List.filter_In in Hin as [Hin Hb]. simpl in Hb.
    apply in_map_iff in Hin as [[k v] [Hf Hin]]. simpl in Hf.
    exists k, v. split; [apply (rangeOf_elem order order_fair); now apply list_elem_of_In|].
    rewrite Hf. now destruct b.
  - intros k v Hkv Hs. apply (insertAll_complete _ _ _ (snd (fst (f k v)))).
    apply list_elem_of_In, in_map_iff. exists (f k v). split; [now destruct (f k v) as [[] ]|].
    apply List.filter_In. split; [|now rewrite Hs].
    apply in_map_iff. exists (k, v). split; [reflexivity|].
    apply list_elem_of_In. now apply (rangeOf_elem order order_fair).
  - intros Hall. rewrite (TransMap_insertAll m (fun k v => fst (f k v))). f_equal.
    assert (Hin : forall kv, In kv (rangeOf order m) -> snd (f (fst kv) (snd kv)) = false).
    { intros [k v] Hkv. apply Hall. apply (rangeOf_elem order order_fair).
      now apply list_elem_of_In. }
    induction (rangeOf order m) as [|[k v] l IH]; [reflexivity|].
    pose proof (Hin (k, v) (or_introl eq_refl)) as Hkv. simpl in Hkv.
    simpl. rewrite Hkv. simpl. f_equal.
    apply IH. intros kv Hkv'. apply Hin. now right.
Qed.

End KeyedMap.

Section SliceHelpers.

Lemma TransSlice_from {T K : Type} (f : T -> K) (s : list T) (res : list K) :
  fold_left (fun res item => res ++ [f item]) s res = res ++ map f s.
Proof.
  revert res. induction s as [|x s IH]; intros res; simpl; [now rewrite app_nil_r|].
  rewrite IH. now rewrite <- app_assoc.
Qed.

Lemma TransSlice_map {T K : Type} (f : T -> K) (s : list T) : TransSlice s f = map f s.
Proof. unfold TransSlice. now rewrite TransSlice_from. Qed.

(** X6.  [TransSlice] returns the images of the elements in their order:
    as many as there were, the images of a concatenation are the
    concatenated images, and transforming twice is transforming once
    with the composed function. *)
Theorem X6_TransSlice_is_map :
  forall (T K K' : Type) (s s' : list T) (f : T -> K) (g : K -> K'),
    TransSlice s f = map f s /\
    length (TransSlice s f) = length s /\
    TransSlice (s ++ s') f = TransSlice s f ++ TransSlice s' f /\
    TransSlice (TransSlice s f) g = TransSlice s (fun x => g (f x)).
Proof.
  intros T K K' s s' f g. rewrite !TransSlice_map.
  split; [reflexivity|]. split; [apply length_map|]. split; [apply map_app|].
  apply map_map.
Qed.

Lemma sliceWithErrFrom_cases {T K E : Type} (f : T -> K * option E) (s : list T) (res : list K) :
  (Forall (fun x => snd (f x) = None) s /\
   sliceWithErrFrom f s res = (Some (res ++ map (fun x => fst (f x)) s), None)) \/
  (exists pre x post e,
     s = pre ++ x :: post /\ Forall (fun y => snd (f y) = None) pre /\
     snd (f x) = Some e /\ sliceWithErrFrom f s res = (None, Some e)).
Proof.
  revert res. induction s as [|x s IH]; intros res.
  - left. split; [constructor | simpl; now rewrite app_nil_r].
  - cbn [sliceWithErrFrom]. destruct (f x) as [ni [e|]] eqn:Fx.
    + right. exists [], x, s, e. rewrite Fx. repeat split. constructor.
    + destruct (IH (res ++ [ni])) as [[Hall Hr] | [pre [y [post [e [-> [Hp [He Hr]]]]]]]].
      * left. split; [constructor; [now rewrite Fx | exact Hall]|].
        rewrite Hr. simpl. rewrite Fx. simpl. now rewrite <- app_assoc.
      * right. exists (x :: pre), y, post, e.
        repeat split; [constructor; [now rewrite Fx | exact Hp] | exact He | exact Hr].
Qed.

(** X7.  [TransSliceWithErr] stops at the first element on which the
    function fails: it returns the nil slice with the error of that
    element, whatever the function would give for the elements after it.
    When the function fails nowhere it returns all the results in order,
    with a nil error. *)
Theorem X7_TransSliceWithErr_first_error :
  forall (T K E : Type) (s : list T) (f : T -> K * option E),
    (Forall (fun x => snd (f x) = None) s /\
     TransSliceWithErr s f = (Some (map (fun x => fst (f x)) s), None)) \/
    (exists pre x post e,
       s = pre ++ x :: post /\ Forall (fun y => snd (f y) = None) pre /\
       snd (f x) = Some e /\ TransSliceWithErr s f = (None, Some e)).
Proof. intros T K E s f. apply (sliceWithErrFrom_cases f s []). Qed.

Lemma TransSliceWithSkip_from {T K : Type} (ex : T -> K * bool) (s : list T) (res : list K) :
  fold_left (fun res item => let '(tgt, skip) := ex item in if skip then res else res ++ [tgt])
            s res
  = res ++ map fst (List.filter (fun r => negb (snd r)) (map ex s)).
Proof.
  revert res. induction s as [|x s IH]; intros res; simpl; [now rewrite app_nil_r|].
  rewrite IH. destruct (ex x) as [tgt [|]]; simpl; [reflexivity|].
  now rewrite <- app_assoc.
Qed.

(** X8.  [TransSliceWithSkip] returns, in their order, the results for
    the elements the function does not ask to skip: never more than
    there were elements, and exactly what [TransSlice] returns when
    nothing is skipped; over a concatenation it returns the
    concatenation of what it returns for the parts. *)
Theorem X8_TransSliceWithSkip_keeps_the_rest :
  forall (T K : Type) (s s' : list T) (ex : T -> K * bool),
    TransSliceWithSkip s ex = map fst (List.filter (fun r => negb (snd r)) (map ex s)) /\
    length (TransSliceWithSkip s ex) <= length s /\
    TransSliceWithSkip (s ++ s') ex = TransSliceWithSkip s ex ++ TransSliceWithSkip s' ex /\
    ((forall x, In x s -> snd (ex x) = false) ->
     TransSliceWithSkip s ex = TransSlice s (fun x => fst (ex x))).
Proof.
  intros T K s s' ex.
  assert (E : forall l, TransSliceWithSkip l ex
                        = map fst (List.filter (fun r => negb (snd r)) (map ex l))).
  { intros l. unfold TransSliceWithSkip. now rewrite TransSliceWithSkip_from. }
  rewrite !E. split; [reflexivity|]. split; [|split].
  - rewrite length_map. etransitivity; [apply List.filter_length_le|]. now rewrite length_map.
  - now rewrite map_app, List.filter_app, map_app.
  - intros Hall. rewrite TransSlice_map. induction s as [|x s IH]; [reflexivity|].
    simpl. rewrite (Hall x) by now left. simpl. f_equal.
    apply IH. intros y Hy. apply Hall. now right.
Qed.

End SliceHelpers.

Section Iterators.
Import Iter.

Lemma Collect_Values_from {V : Type} (l acc : list V) :
  Values l (list V) (fun v acc => (true, acc ++ [v])) acc = acc ++ l.
Proof.
  revert acc. induction l as [|x l IH]; intros acc; simpl; [now rewrite app_nil_r|].
  rewrite IH. now rewrite <- app_assoc.
Qed.

Lemma TransSliceSeq_Values {T K : Type} (f : T -> K) (l : list T) (S : Type)
    (yield : K -> S -> bool * S) (st : S) :
  TransSliceSeq (Values l) f S yield st = Values (map f l) S yield st.
Proof.
  unfold TransSliceSeq. revert st. induction l as [|x l IH]; intros st; [reflexivity|].
  simpl. destruct (yield (f x) st) as [[|] st']; [apply IH | reflexivity].
Qed.

Lemma TransSliceWithSkipSeq_Values {T K : Type} (ex : T -> K * bool) (l : list T) (S : Type)
    (yield : K -> S -> bool * S) (st : S) :
  TransSliceWithSkipSeq (Values l) ex S yield st
  = Values (map fst (List.filter (fun r => negb (snd r)) (map ex l))) S yield st.
Proof.
  unfold TransSliceWithSkipSeq. revert st. induction l as [|x l IH]; intros st; [reflexivity|].
  simpl. destruct (ex x) as [tgt [|]]; simpl; [apply IH|].
  destruct (yield tgt st) as [[|] st']; [apply IH | reflexivity].
Qed.

(** X9.  Over the values of a slice, the iterator that [TransSliceSeq]
    returns behaves for every consumer, also one that stops early, as
    the iterator over the slice that [TransSlice] returns, and the one of
    [TransSliceWithSkipSeq] as the iterator over the slice of
    [TransSliceWithSkip]; collected, they give those slices. *)
Theorem X9_slice_iterators_agree_with_slices :
  forall (T K S : Type) (l : list T) (f : T -> K) (ex : T -> K * bool)
         (yield : K -> S -> bool * S) (st : S),
    TransSliceSeq (Values l) f S yield st = Values (Containers.TransSlice l f) S yield st /\
    TransSliceWithSkipSeq (Values l) ex S yield st
    = Values (Containers.TransSliceWithSkip l ex) S yield st /\
    Collect (TransSliceSeq (Values l) f) = Containers.TransSlice l f /\
    Collect (TransSliceWithSkipSeq (Values l) ex) = Containers.TransSliceWithSkip l ex.
Proof.
  intros T K S l f ex yield st.
  rewrite TransSlice_map.
  assert (E : Containers.TransSliceWithSkip l ex
              = map fst (List.filter (fun r => negb (snd r)) (map ex l))).
  { unfold Containers.TransSliceWithSkip. now rewrite TransSliceWithSkip_from. }
  rewrite E. split; [apply TransSliceSeq_Values|]. split; [apply TransSliceWithSkipSeq_Values|].
  unfold Collect. rewrite TransSliceSeq_Values, TransSliceWithSkipSeq_Values.
  now rewrite !Collect_Values_from.
Qed.

Lemma Collect2_Pairs_from {K : Type} `{Countable K} {V : Type} (l : list (K * V))
    (acc : gmap K V) :
  Pairs l (gmap K V) (fun k v acc => (true, <[k := v]> acc)) acc = insertAll l acc.
Proof.
  unfold insertAll. revert acc. induction l as [|[k v] l IH]; intros acc; [reflexivity|].
  simpl. apply IH.
Qed.

Lemma TransMapByValueSeq_Pairs {K V R : Type} (f : V -> R) (l : list (K * V)) (S : Type)
    (yield : K -> R -> S -> bool * S) (st : S) :
  TransMapByValueSeq (Pairs l) f S yield st
  = Pairs (map (fun kv => (fst kv, f (snd kv))) l) S yield st.
Proof.
  unfold TransMapByValueSeq. revert st. induction l as [|[k v] l IH]; intros st; [reflexivity|].
  simpl. destruct (yield k (f v) st) as [[|] st']; [apply IH | reflexivity].
Qed.

Lemma TransMapSeq_Pairs {K RK V RV : Type} (f : K -> V -> RK * RV) (l : list (K * V))
    (S : Type) (yield : RK -> RV -> S -> bool * S) (st : S) :
  TransMapSeq (Pairs l) f S yield st = Pairs (map (fun kv => f (fst kv) (snd kv)) l) S yield st.
Proof.
  unfold TransMapSeq. revert st. induction l as [|[k v] l IH]; intros st; [reflexivity|].
  simpl. destruct (f k v) as [tgtKey tgtValue].
  destruct (yield tgtKey tgtValue st) as [[|] st']; [apply IH | reflexivity].
Qed.

Lemma TransMapWithSkipSeq_Pairs {K RK V RV : Type} (f : K -> V -> RK * RV * bool)
    (l : list (K * V)) (S : Type) (yield : RK -> RV -> S -> bool * S) (st : S) :
  TransMapWithSkipSeq (Pairs l) f S yield st
  = Pairs (map fst (List.filter (fun r => negb (snd r))
                                (map (fun kv => f (fst kv) (snd kv)) l))) S yield st.
Proof.
  unfold TransMapWithSkipSeq. revert st. induction l as [|[k v] l IH]; intros st; [reflexivity|].
  simpl. destruct (f k v) as [[tgtKey tgtValue] [|]]; simpl; [apply IH|].
  destruct (yield tgtKey tgtValue st) as [[|] st']; [apply IH | reflexivity].
Qed.

(** X10.  Over the entries of a map in the order of one iteration, the
    iterators that [TransMapByValueSeq], [TransMapSeq] and
    [TransMapWithSkipSeq] return, collected into a map, give the maps
    that [TransMapByValue], [TransMap] and [TransMapWithSkip] build in
    that order. *)
Theorem X10_map_iterators_agree_with_maps :
  forall (K : Type) `{Countable K} (RK : Type) `{Countable RK} (V RV E : Type)
         (order : list (K * V) -> list (K * V)) (m : gmap K V)
         (g : V -> RV) (f : K -> V -> RK * RV) (fs : K -> V -> RK * RV * bool),
    Collect2 (TransMapByValueSeq (Pairs (Containers.rangeOf order m)) g)
    = Containers.TransMapByValue order m g /\
    Collect2 (TransMapSeq (Pairs (Containers.rangeOf order m)) f)
    = Containers.TransMap order m f /\
    Collect2 (TransMapWithSkipSeq (Pairs (Containers.rangeOf order m)) fs)
    = fst (Containers.TransMapWithSkip (E:=E) order m fs).
Proof.
  intros. unfold Collect2.
  rewrite TransMapByValueSeq_Pairs, TransMapSeq_Pairs, TransMapWithSkipSeq_Pairs.
  rewrite !Collect2_Pairs_from. split; [|split].
  - symmetry. exact (fold_insert_as_insertAll (fun kv => (fst kv, g (snd kv))) _ _).
  - symmetry. apply TransMap_insertAll_from.
  - symmetry. unfold Containers.TransMapWithSkip. cbn [fst]. apply withSkip_insertAll.
Qed.

End Iterators.

End ContainerHelpers.

(** ** More on the probe *)
Section ProbeNames.
Import Reflecting Extra.

Lemma Split_nonempty (s : string) (sep : ascii) : GoStrings.Split s sep <> [].
Proof.
  destruct s as [|c s]; simpl; [discriminate|].
  destruct (Ascii.eqb c sep); [discriminate|].
  destruct (GoStrings.Split s sep); discriminate.
Qed.

Lemma joinWith_cons (sep : ascii) (x : string) (rest : list string) :
  rest <> [] -> joinWith sep (x :: rest) = (x ++ String sep (joinWith sep rest))%string.
Proof. destruct rest; [contradiction | reflexivity]. Qed.

(** Joining the pieces of a split gives the string back, and no piece
    holds the separator. *)
Lemma Split_joinWith (s : string) (sep : ascii) :
  joinWith sep (GoStrings.Split s sep) = s /\
  Forall (fun piece => ~ In sep (list_ascii_of_string piece)) (GoStrings.Split s sep).
Proof.
  induction s as [|c s [IHj IHf]]; [split; [reflexivity | repeat constructor; auto]|].
  cbn [GoStrings.Split]. destruct (Ascii.eqb_spec c sep) as [->|Hne].
  - split.
    + rewrite joinWith_cons by apply Split_nonempty. now rewrite IHj.
    + constructor; [simpl; auto | exact IHf].
  - destruct (GoStrings.Split s sep) as [|x xs] eqn:E; [now apply Split_nonempty in E|].
    apply Forall_cons in IHf as [Hx Hxs]. split.
    + destruct xs as [|y ys]; simpl in *; now rewrite <- IHj.
    + constructor; [|exact Hxs]. simpl. intros [H | H]; [congruence | contradiction].
Qed.

Lemma append_assoc (a b c : string) : ((a ++ b) ++ c = a ++ (b ++ c))%string.
Proof.
  induction a as [|x a IH]; [reflexivity|].
  change (String x ((a ++ b) ++ c) = String x (a ++ (b ++ c)))%string.
  now rewrite IH.
Qed.

Lemma joinWith_last (sep : ascii) (parts : list string) :
  parts <> [] ->
  exists pre, joinWith sep parts = (pre ++ List.last parts EmptyString)%string /\
              (pre = EmptyString \/ exists p, pre = (p ++ String sep EmptyString)%string).
Proof.
  induction parts as [|x rest IH]; [contradiction|]. intros _.
  destruct rest as [|y ys].
  - exists EmptyString. split; [reflexivity | now left].
  - destruct IH as [pre [E Hp]]; [discriminate|].
    rewrite joinWith_cons by discriminate. rewrite E.
    change (List.last (x :: y :: ys) EmptyString) with (List.last (y :: ys) EmptyString).
    exists (x ++ String sep pre)%string. split.
    + now rewrite append_assoc.
    + right. destruct Hp as [-> | [p ->]].
      * now exists x.
      * exists (x ++ String sep p)%string. now rewrite append_assoc.
Qed.

Lemma Split_without_sep (s : string) (sep : ascii) :
  ~ In sep (list_ascii_of_string s) -> GoStrings.Split s sep = [s].
Proof.
  induction s as [|c s IH]; [reflexivity|]. simpl. intros Hn.
  destruct (Ascii.eqb_spec c sep) as [->|Hne]; [exfalso; auto|].
  rewrite IH by auto. reflexivity.
Qed.

(** X11.  [getLastPathElement] returns what follows the last slash of
    its argument: the argument is the result behind a prefix that is
    empty or ends with a slash, the result holds no slash, and an
    argument without a slash comes back as it is. *)
Theorem X11_getLastPathElement_after_last_slash :
  forall s : string,
    (exists pre, s = (pre ++ getLastPathElement s)%string /\
                 (pre = EmptyString \/ exists p, pre = (p ++ "/")%string)) /\
    ~ In "/"%char (list_ascii_of_string (getLastPathElement s)) /\
    (~ In "/"%char (list_ascii_of_string s) -> getLastPathElement s = s).
Proof.
  intros s. unfold getLastPathElement.
  destruct (Split_joinWith s "/"%char) as [Hj Hf].
  pose proof (Split_nonempty s "/"%char) as Hne.
  assert (Hlen : (0 <? length (GoStrings.Split s "/"%char))%nat = true).
  { apply Nat.ltb_lt. destruct (GoStrings.Split s "/"%char); [contradiction | simpl; lia]. }
  rewrite Hlen. split; [|split].
  - destruct (joinWith_last "/"%char _ Hne) as [pre [E Hp]]. rewrite Hj in E.
    exists pre. split; [exact E | exact Hp].
  - rewrite Forall_forall in Hf. apply Hf. apply list_elem_of_In.
    destruct (GoStrings.Split s "/"%char) as [|x xs]; [contradiction|].
    apply (@exists_last _ (x :: xs)) in Hne as [l' [a E]]. rewrite E.
    rewrite last_last. apply in_or_app. right. now left.
  - intros Hn. now rewrite Split_without_sep by exact Hn.
Qed.

Lemma deleteFrom_one_byte_keep (c : ascii) (s : string) :
  GoStrings.deleteFrom (String c EmptyString) 0 s = keep (fun a => negb (Ascii.eqb a c)) s.
Proof.
  induction s as [|d s IH]; [reflexivity|].
  cbn [GoStrings.deleteFrom String.prefix String.length Nat.sub keep].
  destruct (Ascii.ascii_dec c d) as [->|Hne].
  - rewrite Ascii.eqb_refl. simpl. destruct s; exact IH.
  - destruct (Ascii.eqb_spec d c) as [->|_]; [congruence|]. simpl. now rewrite IH.
Qed.

Lemma keep_keep (p q : ascii -> bool) (s : string) :
  keep q (keep p s) = keep (fun a => p a && q a) s.
Proof.
  induction s as [|a s IH]; [reflexivity|]. simpl.
  destruct (p a); simpl; [destruct (q a); now rewrite IH | exact IH].
Qed.

Lemma keep_ext (p q : ascii -> bool) (s : string) :
  (forall a, p a = q a) -> keep p s = keep q s.
Proof. intros E. induction s as [|a s IH]; [reflexivity|]. simpl. now rewrite E, IH. Qed.

Lemma keep_length (p : ascii -> bool) (s : string) :
  String.length (keep p s) <= String.length s.
Proof. induction s as [|a s IH]; [simpl; lia|]. simpl. destruct (p a); simpl; lia. Qed.

Lemma keep_all (p : ascii -> bool) (s : string) :
  (forall a, In a (list_ascii_of_string s) -> p a = true) <-> keep p s = s.
Proof.
  induction s as [|a s IH]; [split; [reflexivity | intros _ b []]|].
  simpl. split.
  - intros Hall. rewrite (Hall a) by now left. f_equal. apply IH. auto.
  - destruct (p a) eqn:Pa.
    + intros [= E] b [<- | Hb]; [exact Pa | now apply IH].
    + intros E. exfalso. pose proof (keep_length p s) as Hl.
      rewrite E in Hl. simpl in Hl. lia.
Qed.

Lemma legalize_keep (s : string) : legalize s = keep allowed s.
Proof.
  unfold legalize, Commonutils.RemoveFromStringRune, illegalRunes. cbn [fold_left].
  rewrite !encodeRune_ascii by lia. cbn [GoStrings.ReplaceAllEmpty].
  rewrite !deleteFrom_one_byte_keep, !keep_keep. apply keep_ext.
  intros a. unfold allowed.
  change (Utf8.byte 42) with "*"%char. change (Utf8.byte 40) with "("%char.
  change (Utf8.byte 41) with ")"%char.
  destruct (Ascii.eqb a "*"), (Ascii.eqb a "("), (Ascii.eqb a ")"); reflexivity.
Qed.

(** X12.  [legalize] deletes the stars and the parentheses and nothing
    else: what is left are the other bytes in their order.  So the
    result is never longer, legalizing twice changes nothing more, and
    the names that come back unchanged are exactly those free of the
    three runes. *)
Theorem X12_legalize_deletes_exactly_the_three_runes :
  forall s : string,
    legalize s = keep allowed s /\
    String.length (legalize s) <= String.length s /\
    legalize (legalize s) = legalize s /\
    (legalize s = s <-> legal s).
Proof.
  intros s. rewrite !legalize_keep. split; [reflexivity|].
  split; [apply keep_length|]. split.
  - rewrite keep_keep. apply keep_ext. intros a. now destruct (allowed a).
  - rewrite <- keep_all. split.
    + intros Hall r Hr. unfold Utf8.ContainsRune.
      assert (Hr' : (0 <= r <= 127)%Z) by (destruct Hr as [<- | [<- | [<- | []]]]; lia).
      rewrite (encodeRune_ascii r Hr'). apply not_true_is_false.
      rewrite Contains_one_byte. intros Hin. apply Hall in Hin.
      destruct Hr as [<- | [<- | [<- | []]]]; discriminate Hin.
    + intros Hl a Ha. unfold allowed. apply negb_true_iff. apply not_true_is_false.
      intros Hb. apply orb_true_iff in Hb as [Hb | Hb]; [apply orb_true_iff in Hb as [Hb | Hb]|];
        apply Ascii.eqb_eq in Hb; subst a.
      * specialize (Hl 42%Z (or_introl eq_refl)). unfold Utf8.ContainsRune in Hl.
        rewrite encodeRune_ascii in Hl by lia. apply not_true_iff_false in Hl.
        apply Hl. now apply Contains_one_byte.
      * specialize (Hl 40%Z (or_intror (or_introl eq_refl))). unfold Utf8.ContainsRune in Hl.
        rewrite encodeRune_ascii in Hl by lia. apply not_true_iff_false in Hl.
        apply Hl. now apply Contains_one_byte.
      * specialize (Hl 41%Z (or_intror (or_intror (or_introl eq_refl)))).
        unfold Utf8.ContainsRune in Hl.
        rewrite encodeRune_ascii in Hl by lia. apply not_true_iff_false in Hl.
        apply Hl. now apply Contains_one_byte.
Qed.

End ProbeNames.

(** ** The cache of the probe *)
Section ProbeCache.
Import Reflecting Extra.

Lemma insert_fresh_subseteq (c : cache) (pc : N) (name : string) :
  c !! pc = None -> c ⊆ <[pc := name]> c.
Proof. intros H. now apply insert_subseteq. Qed.

Lemma exec_grows (rt : Runtime) (cl : call) (c c' : cache) (name : string) :
  exec rt cl c = Some (name, c') -> c ⊆ c'.
Proof.
  destruct cl as [frames | frames depth | [p|]]; simpl.
  - unfold GetCurrentFunc. destruct (frames 1%Z) as [pc|]; [|now intros [= _ <-]].
    destruct (c !! pc) eqn:L; [now intros [= _ <-]|].
    destruct (FuncForPC rt pc); intros [= _ <-]; [now apply insert_fresh_subseteq | reflexivity].
  - unfold GetCurrentFuncDepth. destruct (c !! default 0%N (frames depth)) eqn:L;
      intros [= _ <-]; [reflexivity | now apply insert_fresh_subseteq].
  - destruct (FuncForPC rt p) as [fn|]; [|now intros [= _ <-]].
    destruct (c !! fn_Entry fn) eqn:L; intros [= _ <-];
      [reflexivity | now apply insert_fresh_subseteq].
  - discriminate.
Qed.

Lemma exec_again (rt : Runtime) (cl : call) (c c' : cache) (name : string) :
  exec rt cl c = Some (name, c') -> exec rt cl c' = Some (name, c').
Proof.
  destruct cl as [frames | frames depth | [p|]]; simpl.
  - unfold GetCurrentFunc. destruct (frames 1%Z) as [pc|]; [|now intros [= <- <-]].
    destruct (c !! pc) eqn:L; [intros [= <- <-]; now rewrite L|].
    destruct (FuncForPC rt pc) eqn:F; intros [= <- <-].
    + now rewrite lookup_insert_eq.
    + now rewrite L.
  - unfold GetCurrentFuncDepth. destruct (c !! default 0%N (frames depth)) eqn:L;
      intros [= <- <-]; [now rewrite L | now rewrite lookup_insert_eq].
  - destruct (FuncForPC rt p) as [fn|]; [|now intros [= <- <-]].
    destruct (c !! fn_Entry fn) eqn:L; intros [= <- <-];
      [now rewrite L | now rewrite lookup_insert_eq].
  - discriminate.
Qed.

Lemma execAll_grows (rt : Runtime) (cls : list call) :
  forall (c c' : cache) (names : list string),
    execAll rt cls c = Some (names, c') -> c ⊆ c'.
Proof.
  induction cls as [|cl rest IH]; intros c c' names; simpl.
  - now intros [= _ <-].
  - destruct (exec rt cl c) as [[name c1]|] eqn:E; [|discriminate].
    destruct (execAll rt rest c1) as [[names1 c2]|] eqn:R; [|discriminate].
    intros [= _ <-]. etransitivity; [exact (exec_grows _ _ _ _ _ E) | exact (IH _ _ _ R)].
Qed.

(** X13.  A use of the probe never removes nor changes an entry of the
    cache, and the same use made again right after gives the same name
    and leaves the cache as it is; over any sequence of uses the cache
    only grows. *)
Theorem X13_cache_only_grows_and_repeats :
  forall (rt : Runtime) (cl : call) (c c' : cache) (name : string),
    exec rt cl c = Some (name, c') ->
    c ⊆ c' /\
    exec rt cl c' = Some (name, c') /\
    (forall cls names c'', execAll rt cls c' = Some (names, c'') ->
       c ⊆ c'' /\ forall pc cached, c !! pc = Some cached -> c'' !! pc = Some cached).
Proof.
  intros rt cl c c' name E.
  pose proof (exec_grows _ _ _ _ _ E) as G.
  split; [exact G|]. split; [exact (exec_again _ _ _ _ _ E)|].
  intros cls names c'' R.
  assert (G' : c ⊆ c'') by (etransitivity; [exact G | exact (execAll_grows _ _ _ _ _ R)]).
  split; [exact G'|]. intros pc cached L.
  exact (lookup_weaken _ _ _ _ L G').
Qed.

Lemma freshName_none (rt : Runtime) (pc : N) :
  FuncForPC rt pc = None -> freshName rt pc = EmptyString.
Proof. intros H. unfold freshName. rewrite H. reflexivity. Qed.

Lemma freshName_some (rt : Runtime) (pc : N) (fn : Func) :
  FuncForPC rt pc = Some fn -> freshName rt pc = legalize (getLastPathElement (fn_Name fn)).
Proof. intros H. unfold freshName. now rewrite H. Qed.

Lemma coherent_insert (rt : Runtime) (c : cache) (pc : N) :
  coherent rt c -> coherent rt (<[pc := freshName rt pc]> c).
Proof.
  intros Hc q name. destruct (decide (q = pc)) as [->|Hne].
  - rewrite lookup_insert_eq. now intros [= <-].
  - rewrite lookup_insert_ne by congruence. apply Hc.
Qed.

Lemma exec_answer (rt : Runtime) (cl : call) (c c' : cache) (name : string) :
  entriesNamed rt -> coherent rt c ->
  exec rt cl c = Some (name, c') -> answer rt cl = Some name /\ coherent rt c'.
Proof.
  intros Hrt Hc. destruct cl as [frames | frames depth | [p|]]; simpl.
  - unfold GetCurrentFunc. destruct (frames 1%Z) as [pc|]; [|now intros [= <- <-]].
    destruct (c !! pc) eqn:L.
    + intros [= <- <-]. now rewrite (Hc _ _ L).
    + destruct (FuncForPC rt pc) as [fn|] eqn:F; intros [= <- <-].
      * rewrite <- (freshName_some _ _ _ F). split; [reflexivity | now apply coherent_insert].
      * now rewrite (freshName_none _ _ F).
  - unfold GetCurrentFuncDepth. destruct (c !! default 0%N (frames depth)) eqn:L.
    + intros [= <- <-]. now rewrite (Hc _ _ L).
    + intros [= <- <-]. split; [reflexivity | now apply coherent_insert].
  - destruct (FuncForPC rt p) as [fn|] eqn:F; [|now intros [= <- <-]].
    pose proof (Hrt _ _ F) as Hn.
    assert (Hf : freshName rt (fn_Entry fn) = legalize (getLastPathElement (fn_Name fn)))
      by (unfold freshName; now rewrite Hn).
    destruct (c !! fn_Entry fn) eqn:L; intros [= <- <-].
    + rewrite (Hc _ _ L). now rewrite Hf.
    + rewrite <- Hf. split; [reflexivity | now apply coherent_insert].
  - discriminate.
Qed.

Lemma execAll_answers (rt : Runtime) (cls : list call) :
  entriesNamed rt ->
  forall (c c' : cache) (names : list string),
    coherent rt c -> execAll rt cls c = Some (names, c') ->
    Forall2 (fun cl name => answer rt cl = Some name) cls names /\ coherent rt c'.
Proof.
  intros Hrt. induction cls as [|cl rest IH]; intros c c' names Hc; simpl.
  - intros [= <- <-]. split; [constructor | exact Hc].
  - destruct (exec rt cl c) as [[name c1]|] eqn:E; [|discriminate].
    destruct (execAll rt rest c1) as [[names1 c2]|] eqn:R; [|discriminate].
    intros [= <- <-]. destruct (exec_answer _ _ _ _ _ Hrt Hc E) as [A Hc1].
    destruct (IH _ _ _ Hc1 R) as [As Hc2]. split; [now constructor | exact Hc2].
Qed.

(** X14.  The cache is invisible in the answers: in a program where the
    entry address of a function belongs to a function of the same name,
    every use of the probe, from the empty cache and after any earlier
    uses, answers what it would compute from the run time alone, and it
    panics only where [GetFunctionName] is given a value without a
    pointer. *)
Theorem X14_cache_never_changes_an_answer :
  forall (rt : Runtime) (cls : list call) (names : list string) (c' : cache),
    entriesNamed rt ->
    execAll rt cls ∅ = Some (names, c') ->
    Forall2 (fun cl name => answer rt cl = Some name) cls names /\
    coherent rt c' /\
    (forall cl, exec rt cl c' = None <-> cl = CallGetFunctionName None) /\
    (forall cl name c'', exec rt cl c' = Some (name, c'') -> answer rt cl = Some name).
Proof.
  intros rt cls names c' Hrt E.
  assert (H0 : coherent rt ∅) by (intros pc name L; now rewrite lookup_empty in L).
  destruct (execAll_answers _ _ Hrt _ _ _ H0 E) as [As Hc].
  split; [exact As|]. split; [exact Hc|]. split.
  - intros cl. destruct cl as [frames | frames depth | [p|]]; simpl;
      try (split; [discriminate | discriminate]).
    + destruct (FuncForPC rt p) as [fn|]; [|split; discriminate].
      destruct (c' !! fn_Entry fn); split; discriminate.
    + split; reflexivity.
  - intros cl name c'' X. exact (proj1 (exec_answer _ _ _ _ _ Hrt Hc X)).
Qed.

End ProbeCache.

(** ** The scan of a whole tree, first generator *)
Section WholeScan.
Import Ast Gen Scan Matching Extra.

Variable w : World VariantA.warmupTemplateData.
Variable dir : string.

Lemma visit_skips (acc : list rawCall * gmap string string * gmap string string)
    (path : string) (err : bool) :
  err = true \/ Filepath.Ext path <> ".go" \/ Filepath.Base path = VariantA.skippedName ->
  VariantA.visit w dir acc (path, err) = Done acc.
Proof.
  intros H. unfold VariantA.visit.
  assert (E : err || negb (String.eqb (Filepath.Ext path) ".go")
              || String.eqb (Filepath.Base path) VariantA.skippedName = true).
  { destruct H as [-> | [H | H]]; [reflexivity | |].
    - apply String.eqb_neq in H. rewrite H. now destruct err.
    - apply String.eqb_eq in H. rewrite H. apply orb_true_r. }
  now rewrite E.
Qed.

Lemma visit_relevant (path : string) (err : bool) :
  err || negb (String.eqb (Filepath.Ext path) ".go")
      || String.eqb (Filepath.Base path) VariantA.skippedName = false ->
  err = false /\ Filepath.Ext path = ".go" /\ Filepath.Base path <> VariantA.skippedName.
Proof.
  intros H. apply orb_false_iff in H as [H Hb]. apply orb_false_iff in H as [He Hx].
  apply negb_false_iff in Hx. apply String.eqb_eq in Hx. apply String.eqb_neq in Hb. auto.
Qed.

(** What [analyzeFile] hands back: nothing for a file it passes over,
    and else the scan of the declarations, the package name bound to the
    directory of the file, and the imports of the file. *)
Lemma analyzeFile_cases (path : string) fc pi fi :
  VariantA.analyzeFile w path dir = Done (fc, pi, fi) ->
  (passedOver w path /\ fc = [] /\ pi = ∅ /\ fi = ∅) \/
  (exists file, parser_ParseFile w path = Some file /\ PkgName file <> "main" /\
     collect (VariantA.scanDeclOf w dir path (PkgName file) (fileImportMap (Imports file) ∅))
             (Decls file) = Done fc /\
     pi = <[PkgName file := filepath_Rel w dir (filepath_Dir w path)]> ∅ /\
     fi = fileImportMap (Imports file) ∅).
Proof.
  unfold VariantA.analyzeFile.
  destruct (parser_ParseFile w path) as [file|] eqn:P;
    [|intros [= <- <- <-]; left; repeat split; now left].
  destruct (String.eqb_spec (PkgName file) "main") as [Hm|Hm].
  - intros [= <- <- <-]. left. repeat split. right. now exists file.
  - destruct (collect _ (Decls file)) as [results| |] eqn:C; simpl; try discriminate.
    intros [= <- <- <-]. right. exists file. repeat split; auto.
Qed.

Lemma visit_cases (rc : list rawCall) (ip im : gmap string string) (path : string) (err : bool)
    rc' ip' im' :
  VariantA.visit w dir (rc, ip, im) (path, err) = Done (rc', ip', im') ->
  (rc' = rc /\ ip' = ip /\ im' = im) \/
  (err = false /\ Filepath.Ext path = ".go" /\ Filepath.Base path <> VariantA.skippedName /\
   exists file fc, parser_ParseFile w path = Some file /\ PkgName file <> "main" /\
     collect (VariantA.scanDeclOf w dir path (PkgName file) (fileImportMap (Imports file) ∅))
             (Decls file) = Done fc /\
     rc' = rc ++ fc /\
     ip' = <[PkgName file := filepath_Rel w dir (filepath_Dir w path)]> ip /\
     im' = fileImportMap (Imports file) ∅ ∪ im).
Proof.
  unfold VariantA.visit.
  destruct (err || _ || _) eqn:R; [intros [= <- <- <-]; now left|].
  apply visit_relevant in R as [He [Hx Hb]].
  destruct (VariantA.analyzeFile w path dir) as [[[fc pi] fi]| |] eqn:A; simpl; try discriminate.
  intros [= <- <- <-].
  apply analyzeFile_cases in A as [[_ [-> [-> ->]]] | [file [P [Hm [C [-> ->]]]]]].
  - left. rewrite app_nil_r, !(left_id_L ∅ (∪)). auto.
  - right. repeat split; auto. exists file, fc. repeat split; auto.
    now rewrite <- insert_union_l, (left_id_L ∅ (∪)).
Qed.

Lemma visit_sound (acc acc' : list rawCall * gmap string string * gmap string string)
    (path : string) (err : bool) :
  In (path, err) (filepath_Walk w dir) ->
  VariantA.visit w dir acc (path, err) = Done acc' ->
  scanSound w dir acc -> scanSound w dir acc'.
Proof.
  destruct acc as [[rc ip] im], acc' as [[rc' ip'] im']. intros Hin V [Hrc [Hip Him]].
  apply visit_cases in V
    as [[-> [-> ->]] | [-> [Hx [Hb [file [fc [P [Hm [C [-> [-> ->]]]]]]]]]]];
    [repeat split; assumption|].
  assert (An : analysed w VariantA.skippedName dir path file) by (repeat split; assumption).
  split; [|split].
  - intros c Hc. apply in_app_or in Hc as [Hc | Hc]; [now apply Hrc|].
    exists path, file. split; [exact An|].
    now apply (first_generator_decls_exact w dir path file fc C c).
  - intros k rel L. destruct (decide (PkgName file = k)) as [<-|Hne].
    + rewrite lookup_insert_eq in L. injection L as <-. exists path, file. auto.
    + rewrite lookup_insert_ne in L by exact Hne. now apply Hip.
  - intros alias p L. apply lookup_union_Some_raw in L as [L | [_ L]]; [|now apply Him].
    exists path, file. auto.
Qed.

Lemma walkFrom_sound (visits : list (string * bool)) :
  (forall v, In v visits -> In v (filepath_Walk w dir)) ->
  forall acc res, VariantA.walkFrom w dir acc visits = Done res ->
    scanSound w dir acc -> scanSound w dir res.
Proof.
  induction visits as [|[path err] rest IH]; intros Hsub acc res; cbn [VariantA.walkFrom].
  - now intros [= <-].
  - destruct (VariantA.visit w dir acc (path, err)) as [acc1| |] eqn:V; cbn [obind];
      try discriminate.
    intros R Hs. apply (IH (fun v Hv => Hsub v (or_intror Hv)) acc1 res R).
    eapply visit_sound; [apply Hsub; now left | exact V | exact Hs].
Qed.

(** X15.  Whatever the scan of the first generator hands back stems
    from a file that the walk reported without an error, that has the
    extension of a Go file and is not named as the skipped file, that
    parses and does not declare the main package: each raw call site from
    a use of the probe in a function of that file, with the reference
    built for that function and, as its place, the file name of the
    position of that function relative to the root and the line of the
    call; each package name from the package clause of such a file,
    bound to the directory of that file relative to the root; and each
    alias from the imports of such a file. *)
Theorem X15_scan_holds_only_what_analysed_files_give :
  forall rawCalls importPaths importMap,
    VariantA.scanGoFiles w dir = Done (rawCalls, importPaths, importMap) ->
    (forall c, In c rawCalls ->
       exists path file, analysed w VariantA.skippedName dir path file /\
         foundIn w VariantA.buildFunctionCall anyDecl dir path file c) /\
    (forall k rel, importPaths !! k = Some rel ->
       exists path file, analysed w VariantA.skippedName dir path file /\
         PkgName file = k /\ rel = filepath_Rel w dir (filepath_Dir w path)) /\
    (forall alias p, importMap !! alias = Some p ->
       exists path file, analysed w VariantA.skippedName dir path file /\
         fileImportMap (Imports file) ∅ !! alias = Some p).
Proof.
  intros rc ip im S.
  apply (walkFrom_sound (filepath_Walk w dir) (fun v Hv => Hv) ([], ∅, ∅) (rc, ip, im) S).
  split; [intros c []|]. split; intros k x L; now rewrite lookup_empty in L.
Qed.

Lemma visitNode_complete {T : Type} (wT : World T) build path pkgName importMap fd n ys :
  matchesCall importMap n = true ->
  visitNode wT build dir path pkgName importMap fd n = Done ys ->
  exists ref, build pkgName fd = Done ref /\ ys = [siteOf wT dir path ref n].
Proof.
  destruct n as [x | X sel | f line args | X | cs]; try discriminate. simpl.
  intros ->. destruct (build pkgName fd) as [ref| |]; simpl; try discriminate.
  intros [= <-]. now exists ref.
Qed.

Lemma scanBody_complete {T : Type} (wT : World T) build path pkgName importMap fd body n ys :
  scanBody wT build dir path pkgName importMap fd body = Done ys ->
  In n (Inspect body) -> matchesCall importMap n = true ->
  exists ref, build pkgName fd = Done ref /\ In (siteOf wT dir path ref n) ys.
Proof.
  intros S Hn Hm. destruct (collect_complete _ _ _ _ S Hn) as [ys' [V Hsub]].
  destruct (visitNode_complete _ _ _ _ _ _ _ _ Hm V) as [ref [Hb ->]].
  exists ref. split; [exact Hb|]. apply Hsub. now left.
Qed.

Lemma visit_keeps (acc acc' : list rawCall * gmap string string * gmap string string)
    (v : string * bool) :
  VariantA.visit w dir acc v = Done acc' ->
  (forall c, In c acc.1.1 -> In c acc'.1.1) /\
  (forall k, is_Some (acc.1.2 !! k) -> is_Some (acc'.1.2 !! k)) /\
  (forall k, is_Some (acc.2 !! k) -> is_Some (acc'.2 !! k)).
Proof.
  destruct acc as [[rc ip] im], acc' as [[rc' ip'] im'], v as [path err]. intros V.
  apply visit_cases in V
    as [[-> [-> ->]] | [-> [Hx [Hb [file [fc [P [Hm [C [-> [-> ->]]]]]]]]]]]; simpl;
    [auto|].
  split; [|split].
  - intros c Hc. apply in_or_app. now left.
  - intros k Hk. rewrite lookup_insert_is_Some. destruct (decide (PkgName file = k)); auto.
  - intros k Hk. apply lookup_union_is_Some. now right.
Qed.

Lemma walkFrom_keeps (visits : list (string * bool)) :
  forall acc res, VariantA.walkFrom w dir acc visits = Done res ->
  (forall c, In c acc.1.1 -> In c res.1.1) /\
  (forall k, is_Some (acc.1.2 !! k) -> is_Some (res.1.2 !! k)) /\
  (forall k, is_Some (acc.2 !! k) -> is_Some (res.2 !! k)).
Proof.
  induction visits as [|v rest IH]; intros acc res; cbn [VariantA.walkFrom].
  - intros [= <-]. auto.
  - destruct (VariantA.visit w dir acc v) as [acc1| |] eqn:V; cbn [obind]; try discriminate.
    intros R. destruct (visit_keeps _ _ _ V) as [K1 [K2 K3]].
    destruct (IH _ _ R) as [R1 [R2 R3]]. auto.
Qed.

Lemma visit_analysed (rc : list rawCall) (ip im : gmap string string) (path : string)
    (file : File) :
  Filepath.Ext path = ".go" -> Filepath.Base path <> VariantA.skippedName ->
  parser_ParseFile w path = Some file -> PkgName file <> "main" ->
  VariantA.visit w dir (rc, ip, im) (path, false)
  = obind (collect (VariantA.scanDeclOf w dir path (PkgName file)
                      (fileImportMap (Imports file) ∅)) (Decls file))
          (fun fc => Done (rc ++ fc,
                           <[PkgName file := filepath_Rel w dir (filepath_Dir w path)]> ip,
                           fileImportMap (Imports file) ∅ ∪ im)).
Proof.
  intros Hx Hb P Hm. unfold VariantA.visit, VariantA.analyzeFile.
  rewrite Hx. apply String.eqb_neq in Hb, Hm. rewrite Hb, P, Hm. simpl.
  destruct (collect _ (Decls file)) as [fc| |]; simpl; try reflexivity.
  now rewrite <- insert_union_l, (left_id_L ∅ (∪)).
Qed.

Lemma visit_complete (acc acc' : list rawCall * gmap string string * gmap string string)
    (path : string) (file : File) :
  Filepath.Ext path = ".go" -> Filepath.Base path <> VariantA.skippedName ->
  parser_ParseFile w path = Some file -> PkgName file <> "main" ->
  VariantA.visit w dir acc (path, false) = Done acc' ->
  (forall fd n, usesProbe file fd n ->
     exists ref, VariantA.buildFunctionCall (PkgName file) fd = Done ref /\
                 In (siteOf w dir (funcPosFilename path fd) ref n) acc'.1.1) /\
  acc'.1.2 !! PkgName file = Some (filepath_Rel w dir (filepath_Dir w path)) /\
  (forall alias p, fileImportMap (Imports file) ∅ !! alias = Some p ->
                   acc'.2 !! alias = Some p).
Proof.
  destruct acc as [[rc ip] im]. intros Hx Hb P Hm.
  rewrite (visit_analysed _ _ _ _ _ Hx Hb P Hm).
  destruct (collect _ (Decls file)) as [fc| |] eqn:C; simpl; try discriminate.
  intros [= <-]. simpl. split; [|split].
  - intros fd n [body [Hd [B [Hn Hmatch]]]].
    destruct (collect_complete _ _ _ _ C Hd) as [ys [S Hsub]].
    cbn [VariantA.scanDeclOf VariantA.scanDecl] in S. rewrite B in S.
    destruct (scanBody_complete _ _ _ _ _ _ _ _ _ S Hn Hmatch) as [ref [Hr Hin]].
    exists ref. split; [exact Hr|]. apply in_or_app. right. now apply Hsub.
  - now rewrite lookup_insert_eq.
  - intros alias p Ha. apply lookup_union_Some_raw. now left.
Qed.

Lemma walkFrom_complete (visits : list (string * bool)) (path : string) (file : File) :
  Filepath.Ext path = ".go" -> Filepath.Base path <> VariantA.skippedName ->
  parser_ParseFile w path = Some file -> PkgName file <> "main" ->
  In (path, false) visits ->
  forall acc res, VariantA.walkFrom w dir acc visits = Done res ->
  (forall fd n, usesProbe file fd n ->
     exists ref, VariantA.buildFunctionCall (PkgName file) fd = Done ref /\
                 In (siteOf w dir (funcPosFilename path fd) ref n) res.1.1) /\
  is_Some (res.1.2 !! PkgName file) /\
  (forall alias, is_Some (fileImportMap (Imports file) ∅ !! alias) ->
                 is_Some (res.2 !! alias)).
Proof.
  intros Hx Hb P Hm. induction visits as [|v rest IH]; intros Hin acc res; [contradiction|].
  cbn [VariantA.walkFrom].
  destruct (VariantA.visit w dir acc v) as [acc1| |] eqn:V; cbn [obind]; try discriminate.
  intros R. destruct Hin as [-> | Hin]; [|exact (IH Hin _ _ R)].
  destruct (visit_complete _ _ _ _ Hx Hb P Hm V) as [C1 [C2 C3]].
  destruct (walkFrom_keeps _ _ _ R) as [K1 [K2 K3]]. split; [|split].
  - intros fd n U. destruct (C1 fd n U) as [ref [Hr Hi]]. exists ref. split; [exact Hr|].
    now apply K1.
  - apply K2. eauto.
  - intros alias [p Ha]. apply K3. eauto.
Qed.

(** X16.  The scan of the first generator misses nothing: when it ends
    normally, every use of the probe in a function body of an analysed
    file has its raw call site in the result, with the reference built
    for the enclosing declaration and, as its place, the file name of the
    position of that declaration relative to the root and the line of
    the call; the package name of every analysed file is a key of the
    import paths, and every alias a file imports is a key of the import
    map. *)
Theorem X16_scan_misses_no_use_of_the_probe :
  forall rawCalls importPaths importMap path file,
    VariantA.scanGoFiles w dir = Done (rawCalls, importPaths, importMap) ->
    analysed w VariantA.skippedName dir path file ->
    (forall fd n, usesProbe file fd n ->
       exists ref, VariantA.buildFunctionCall (PkgName file) fd = Done ref /\
                   In (siteOf w dir (funcPosFilename path fd) ref n) rawCalls) /\
    is_Some (importPaths !! PkgName file) /\
    (forall alias, is_Some (fileImportMap (Imports file) ∅ !! alias) ->
                   is_Some (importMap !! alias)).
Proof.
  intros rc ip im path file S [Hin [Hx [Hb [P Hm]]]].
  exact (walkFrom_complete _ _ _ Hx Hb P Hm Hin _ _ S).
Qed.

End WholeScan.

(** ** The scan of a whole tree, per-package generator *)
Section PackageScan.
Import Ast Gen Scan Matching Extra.

Variable w : World VariantB.warmupTemplateData.
Variable dir : string.

Lemma package_visit_relevant (path : string) (err : bool) :
  err || negb (String.eqb (Filepath.Ext path) ".go")
      || String.eqb (Filepath.Base path) VariantB.skippedName = false ->
  err = false /\ Filepath.Ext path = ".go" /\ Filepath.Base path <> VariantB.skippedName.
Proof.
  intros H. apply orb_false_iff in H as [H Hb]. apply orb_false_iff in H as [He Hx].
  apply negb_false_iff in Hx. apply String.eqb_eq in Hx. apply String.eqb_neq in Hb. auto.
Qed.

Lemma package_visit_cases (pkgMap pkgMap' : gmap string VariantB.packageData)
    (path : string) (err : bool) :
  VariantB.visit w dir pkgMap (path, err) = Done pkgMap' ->
  pkgMap' = pkgMap \/
  (err = false /\ Filepath.Ext path = ".go" /\ Filepath.Base path <> VariantB.skippedName /\
   exists file found, parser_ParseFile w path = Some file /\ PkgName file <> "main" /\
     collect (VariantB.scanDeclOf w dir path (PkgName file) (fileImportMap (Imports file) ∅))
             (Decls file) = Done found /\
     pkgMap' = <[filepath_Dir w path :=
                 let pkg := packageAt pkgMap (filepath_Dir w path) (PkgName file) in
                 {| VariantB.PackageName := VariantB.PackageName pkg;
                    VariantB.Dir := VariantB.Dir pkg;
                    VariantB.RawCalls := VariantB.RawCalls pkg ++ found;
                    VariantB.ImportPaths :=
                      <[PkgName file := filepath_Rel w dir (filepath_Dir w path)]>
                        (VariantB.ImportPaths pkg) |}]> pkgMap).
Proof.
  unfold VariantB.visit.
  destruct (err || _ || _) eqn:R; [intros [= <-]; now left|].
  apply package_visit_relevant in R as [He [Hx Hb]].
  destruct (parser_ParseFile w path) as [file|] eqn:P; [|intros [= <-]; now left].
  destruct (String.eqb_spec (PkgName file) "main") as [Hm|Hm]; [intros [= <-]; now left|].
  destruct (collect _ (Decls file)) as [found| |] eqn:C; simpl; try discriminate.
  intros [= <-]. right. repeat split; auto. exists file, found. repeat split; auto.
Qed.

Lemma package_visit_analysed (pkgMap : gmap string VariantB.packageData) (path : string)
    (file : File) :
  Filepath.Ext path = ".go" -> Filepath.Base path <> VariantB.skippedName ->
  parser_ParseFile w path = Some file -> PkgName file <> "main" ->
  VariantB.visit w dir pkgMap (path, false)
  = obind (collect (VariantB.scanDeclOf w dir path (PkgName file)
                      (fileImportMap (Imports file) ∅)) (Decls file))
          (fun found =>
             Done (<[filepath_Dir w path :=
                     let pkg := packageAt pkgMap (filepath_Dir w path) (PkgName file) in
                     {| VariantB.PackageName := VariantB.PackageName pkg;
                        VariantB.Dir := VariantB.Dir pkg;
                        VariantB.RawCalls := VariantB.RawCalls pkg ++ found;
                        VariantB.ImportPaths :=
                          <[PkgName file := filepath_Rel w dir (filepath_Dir w path)]>
                            (VariantB.ImportPaths pkg) |}]> pkgMap)).
Proof.
  intros Hx Hb P Hm. unfold VariantB.visit.
  rewrite Hx. apply String.eqb_neq in Hb, Hm. rewrite Hb, P, Hm. reflexivity.
Qed.

Lemma package_visit_sound (pkgMap pkgMap' : gmap string VariantB.packageData)
    (path : string) (err : bool) :
  In (path, err) (filepath_Walk w dir) ->
  VariantB.visit w dir pkgMap (path, err) = Done pkgMap' ->
  packagesSound w dir pkgMap -> packagesSound w dir pkgMap'.
Proof.
  intros Hin V Hs.
  apply package_visit_cases in V
    as [-> | [-> [Hx [Hb [file [found [P [Hm [C ->]]]]]]]]]; [exact Hs|].
  assert (An : analysed w VariantB.skippedName dir path file) by (repeat split; assumption).
  intros d pkg L. destruct (decide (filepath_Dir w path = d)) as [<-|Hne].
  - rewrite lookup_insert_eq in L. injection L as <-. cbn [VariantB.Dir VariantB.PackageName
      VariantB.RawCalls VariantB.ImportPaths]. unfold packageAt.
    destruct (pkgMap !! filepath_Dir w path) as [old|] eqn:O.
    + destruct (Hs _ _ O) as [Hd [Hn [Hrc Hip]]]. split; [exact Hd|]. split; [exact Hn|]. split.
      * intros c Hc. apply in_app_or in Hc as [Hc | Hc]; [now apply Hrc|].
        exists path, file. split; [exact An|]. split; [reflexivity|].
        now apply (second_generator_decls_exact w dir path file found C c).
      * intros k rel Lk. destruct (decide (PkgName file = k)) as [<-|Hk].
        -- rewrite lookup_insert_eq in Lk. injection Lk as <-. split; [reflexivity|].
           exists path, file. auto.
        -- rewrite lookup_insert_ne in Lk by exact Hk. now apply Hip.
    + cbn [VariantB.Dir VariantB.PackageName VariantB.RawCalls VariantB.ImportPaths].
      split; [reflexivity|]. split; [exists path, file; auto|]. split.
      * intros c Hc. simpl in Hc.
        exists path, file. split; [exact An|]. split; [reflexivity|].
        now apply (second_generator_decls_exact w dir path file found C c).
      * intros k rel Lk. destruct (decide (PkgName file = k)) as [<-|Hk].
        -- rewrite lookup_insert_eq in Lk. injection Lk as <-. split; [reflexivity|].
           exists path, file. auto.
        -- rewrite lookup_insert_ne in Lk by exact Hk. now rewrite lookup_empty in Lk.
  - rewrite lookup_insert_ne in L by exact Hne. now apply Hs.
Qed.

Lemma package_walk_sound (visits : list (string * bool)) :
  (forall v, In v visits -> In v (filepath_Walk w dir)) ->
  forall pkgMap res, VariantB.walkFrom w dir pkgMap visits = Done res ->
    packagesSound w dir pkgMap -> packagesSound w dir res.
Proof.
  induction visits as [|[path err] rest IH]; intros Hsub pkgMap res; cbn [VariantB.walkFrom].
  - now intros [= <-].
  - destruct (VariantB.visit w dir pkgMap (path, err)) as [m1| |] eqn:V; cbn [obind];
      try discriminate.
    intros R Hs. apply (IH (fun v Hv => Hsub v (or_intror Hv)) m1 res R).
    eapply package_visit_sound; [apply Hsub; now left | exact V | exact Hs].
Qed.

Lemma scanned_packages (pkgMap : gmap string VariantB.packageData) :
  fair w ->
  (forall pkg, In pkg (map snd (range w pkgMap)) <-> exists d, pkgMap !! d = Some pkg) /\
  (packagesSound w dir pkgMap -> NoDup (map VariantB.Dir (map snd (range w pkgMap)))).
Proof.
  intros Hf. unfold range. split.
  - intros pkg. rewrite in_map_iff. split.
    + intros [[d p] [<- Hin]]. exists d. apply list_elem_of_In in Hin.
      rewrite (Hf _ (map_to_list pkgMap)) in Hin. now apply elem_of_map_to_list in Hin.
    + intros [d L]. exists (d, pkg). split; [reflexivity|]. apply list_elem_of_In.
      rewrite (Hf _ (map_to_list pkgMap)). now apply elem_of_map_to_list.
  - intros Hs.
    assert (E : map VariantB.Dir (map snd (rangeOrder w (map_to_list pkgMap)))
                = map fst (rangeOrder w (map_to_list pkgMap))).
    { rewrite map_map. apply map_ext_in. intros [d p] Hin. simpl.
      apply list_elem_of_In in Hin. rewrite (Hf _ (map_to_list pkgMap)) in Hin.
      apply elem_of_map_to_list in Hin. now destruct (Hs _ _ Hin) as [Hd _]. }
    rewrite E.
    assert (P : map fst (rangeOrder w (map_to_list pkgMap)) ≡ₚ map fst (map_to_list pkgMap))
      by (apply Permutation_map, Hf).
    rewrite P. apply (NoDup_fst_map_to_list pkgMap).
Qed.

(** X17.  What the scan of the per-package generator hands back, under
    an iteration that yields every entry once: one record for each
    directory, no directory twice; the name of a record is the package
    name of an analysed file of its directory; every raw call site of a
    record stems from a use of the probe in a function without type
    parameters of an analysed file of that directory, with the reference
    built for that function and, as its place, the file name of the
    position of that function relative to the root and the line of the
    call; and every import path of a record is its own directory
    relative to the root, under the package name of an analysed file of
    that directory. *)
Theorem X17_packages_hold_what_their_directory_gives :
  forall pkgs,
    fair w ->
    VariantB.scanPackages w dir = Done pkgs ->
    NoDup (map VariantB.Dir pkgs) /\
    forall pkg, In pkg pkgs ->
      (exists path file, analysed w VariantB.skippedName dir path file /\
         filepath_Dir w path = VariantB.Dir pkg /\ PkgName file = VariantB.PackageName pkg) /\
      (forall c, In c (VariantB.RawCalls pkg) ->
         exists path file, analysed w VariantB.skippedName dir path file /\
           filepath_Dir w path = VariantB.Dir pkg /\
           foundIn w VariantB.buildFunctionCall nonGeneric dir path file c) /\
      (forall k rel, VariantB.ImportPaths pkg !! k = Some rel ->
         rel = filepath_Rel w dir (VariantB.Dir pkg) /\
         exists path file, analysed w VariantB.skippedName dir path file /\
           filepath_Dir w path = VariantB.Dir pkg /\ PkgName file = k).
Proof.
  intros pkgs Hf. unfold VariantB.scanPackages.
  destruct (VariantB.walkFrom w dir ∅ (filepath_Walk w dir)) as [pkgMap| |] eqn:W;
    cbn [obind]; try discriminate.
  intros [= <-].
  assert (Hs : packagesSound w dir pkgMap).
  { apply (package_walk_sound (filepath_Walk w dir) (fun v Hv => Hv) ∅ pkgMap W).
    intros d pkg L. now rewrite lookup_empty in L. }
  destruct (scanned_packages pkgMap Hf) as [Hin Hnd]. split; [now apply Hnd|].
  intros pkg Hp. apply Hin in Hp as [d L]. destruct (Hs _ _ L) as [<- [Hn [Hrc Hip]]]. auto.
Qed.

Lemma package_scanBody_complete path pkgName importMap fd body n ys :
  TypeParams fd = None -> Body fd = Some body ->
  VariantB.scanDeclOf w dir path pkgName importMap (FuncD fd) = Done ys ->
  In n (Inspect body) -> matchesCall importMap n = true ->
  exists ref, VariantB.buildFunctionCall pkgName fd = Done ref /\
              In (siteOf w dir (funcPosFilename path fd) ref n) ys.
Proof.
  intros Htp B. cbn [VariantB.scanDeclOf VariantB.scanDecl]. rewrite B, Htp. intros S Hn Hm.
  destruct (collect_complete _ _ _ _ S Hn) as [ys' [V Hsub]].
  destruct n as [x | X sel | f line args | X | cs]; try discriminate. simpl in Hm, V.
  rewrite Hm in V. destruct (VariantB.buildFunctionCall pkgName fd) as [ref| |];
    simpl in V; try discriminate.
  injection V as <-. exists ref. split; [reflexivity|]. apply Hsub. now left.
Qed.

Lemma package_visit_keeps (pkgMap pkgMap' : gmap string VariantB.packageData)
    (v : string * bool) (d : string) (pkg : VariantB.packageData) :
  VariantB.visit w dir pkgMap v = Done pkgMap' -> pkgMap !! d = Some pkg ->
  exists pkg', pkgMap' !! d = Some pkg' /\
    (forall c, In c (VariantB.RawCalls pkg) -> In c (VariantB.RawCalls pkg')) /\
    (forall k, is_Some (VariantB.ImportPaths pkg !! k) ->
               is_Some (VariantB.ImportPaths pkg' !! k)).
Proof.
  destruct v as [path err]. intros V L.
  apply package_visit_cases in V
    as [-> | [-> [Hx [Hb [file [found [P [Hm [C ->]]]]]]]]]; [exists pkg; auto|].
  destruct (decide (filepath_Dir w path = d)) as [<-|Hne].
  - rewrite lookup_insert_eq. eexists. split; [reflexivity|].
    unfold packageAt. rewrite L. simpl. split.
    + intros c Hc. apply in_or_app. now left.
    + intros k Hk. rewrite lookup_insert_is_Some.
      destruct (decide (PkgName file = k)); auto.
  - rewrite lookup_insert_ne by exact Hne. exists pkg. auto.
Qed.

Lemma package_walk_keeps (visits : list (string * bool)) :
  forall pkgMap res d pkg,
    VariantB.walkFrom w dir pkgMap visits = Done res -> pkgMap !! d = Some pkg ->
    exists pkg', res !! d = Some pkg' /\
      (forall c, In c (VariantB.RawCalls pkg) -> In c (VariantB.RawCalls pkg')) /\
      (forall k, is_Some (VariantB.ImportPaths pkg !! k) ->
                 is_Some (VariantB.ImportPaths pkg' !! k)).
Proof.
  induction visits as [|v rest IH]; intros pkgMap res d pkg; cbn [VariantB.walkFrom].
  - intros [= <-] L. exists pkg. auto.
  - destruct (VariantB.visit w dir pkgMap v) as [m1| |] eqn:V; cbn [obind]; try discriminate.
    intros R L. destruct (package_visit_keeps _ _ _ _ _ V L) as [p1 [L1 [K1 K2]]].
    destruct (IH _ _ _ _ R L1) as [p2 [L2 [R1 R2]]]. exists p2. auto.
Qed.

Lemma package_walk_complete (visits : list (string * bool)) (path : string) (file : File) :
  Filepath.Ext path = ".go" -> Filepath.Base path <> VariantB.skippedName ->
  parser_ParseFile w path = Some file -> PkgName file <> "main" ->
  In (path, false) visits ->
  forall pkgMap res, VariantB.walkFrom w dir pkgMap visits = Done res ->
  exists pkg, res !! filepath_Dir w path = Some pkg /\
    is_Some (VariantB.ImportPaths pkg !! PkgName file) /\
    (forall fd n, usesProbe file fd n -> TypeParams fd = None ->
       exists ref, VariantB.buildFunctionCall (PkgName file) fd = Done ref /\
                   In (siteOf w dir (funcPosFilename path fd) ref n) (VariantB.RawCalls pkg)).
Proof.
  intros Hx Hb P Hm. induction visits as [|v rest IH]; intros Hin pkgMap res; [contradiction|].
  cbn [VariantB.walkFrom].
  destruct (VariantB.visit w dir pkgMap v) as [m1| |] eqn:V; cbn [obind]; try discriminate.
  intros R. destruct Hin as [-> | Hin]; [|exact (IH Hin _ _ R)].
  rewrite (package_visit_analysed _ _ _ Hx Hb P Hm) in V.
  destruct (collect _ (Decls file)) as [found| |] eqn:C; cbn [obind] in V; try discriminate.
  injection V as <-.
  destruct (package_walk_keeps _ _ _ (filepath_Dir w path) _ R (lookup_insert_eq _ _ _))
    as [pkg [L [K1 K2]]].
  exists pkg. split; [exact L|]. split.
  - apply K2. simpl. rewrite lookup_insert_eq. eauto.
  - intros fd n [body [Hd [B [Hn Hmatch]]]] Htp.
    destruct (collect_complete _ _ _ _ C Hd) as [ys [S Hsub]].
    destruct (package_scanBody_complete _ _ _ _ _ _ _ Htp B S Hn Hmatch) as [ref [Hr Hi]].
    exists ref. split; [exact Hr|]. apply K1. simpl. apply in_or_app. right. now apply Hsub.
Qed.

(** X18.  The scan of the per-package generator misses no use of the
    probe outside generic functions: when it ends normally, under an
    iteration that yields every entry once, every analysed file has the
    record of its directory among the packages, with the package name of
    the file bound to that directory relative to the root; and every use
    of the probe in the body of a function without type parameters of
    that file has its raw call site in that record, with the reference
    built for that function and, as its place, the file name of the
    position of that function relative to the root and the line of the
    call. *)
Theorem X18_packages_miss_no_use_of_the_probe :
  forall pkgs path file,
    fair w ->
    VariantB.scanPackages w dir = Done pkgs ->
    analysed w VariantB.skippedName dir path file ->
    exists pkg, In pkg pkgs /\ VariantB.Dir pkg = filepath_Dir w path /\
      VariantB.ImportPaths pkg !! PkgName file
        = Some (filepath_Rel w dir (filepath_Dir w path)) /\
      (forall fd n, usesProbe file fd n -> TypeParams fd = None ->
         exists ref, VariantB.buildFunctionCall (PkgName file) fd = Done ref /\
                     In (siteOf w dir (funcPosFilename path fd) ref n)
                        (VariantB.RawCalls pkg)).
Proof.
  intros pkgs path file Hf. unfold VariantB.scanPackages.
  destruct (VariantB.walkFrom w dir ∅ (filepath_Walk w dir)) as [pkgMap| |] eqn:W;
    cbn [obind]; try discriminate.
  intros [= <-] [Hin [Hx [Hb [P Hm]]]].
  assert (Hs : packagesSound w dir pkgMap).
  { apply (package_walk_sound (filepath_Walk w dir) (fun v Hv => Hv) ∅ pkgMap W).
    intros d pkg L. now rewrite lookup_empty in L. }
  destruct (package_walk_complete _ _ _ Hx Hb P Hm Hin _ _ W) as [pkg [L [[rel Hi] Hc]]].
  destruct (Hs _ _ L) as [Hd [_ [_ Hip]]]. destruct (Hip _ _ Hi) as [-> _].
  exists pkg. split; [|auto]. apply (proj1 (scanned_packages pkgMap Hf)). eauto.
Qed.

End PackageScan.

(** ** Removing runes of one byte *)
Section AsciiRunes.
Import Extra.

Lemma keep_append (p : ascii -> bool) (s t : string) :
  keep p (s ++ t)%string = (keep p s ++ keep p t)%string.
Proof.
  induction s as [|a s IH]; [reflexivity|].
  change (String a s ++ t)%string with (String a (s ++ t)%string).
  cbn [keep]. rewrite IH. now destruct (p a).
Qed.

Lemma RemoveFromStringRune_keep (cs : list Z) :
  Forall (fun r => 0 <= r <= 127)%Z cs ->
  forall s, Commonutils.RemoveFromStringRune s cs = keep (fun a => negb (removed cs a)) s.
Proof.
  induction cs as [|r cs IH]; intros Hcs s.
  - simpl. symmetry. now apply keep_all.
  - apply Forall_cons in Hcs as [Hr Hcs].
    change (Commonutils.RemoveFromStringRune s (r :: cs))
      with (Commonutils.RemoveFromStringRune
              (GoStrings.ReplaceAllEmpty s (Utf8.encodeRune r)) cs).
    rewrite (IH Hcs), (encodeRune_ascii r Hr). cbn [GoStrings.ReplaceAllEmpty].
    rewrite deleteFrom_one_byte_keep, keep_keep. apply keep_ext. intros a.
    unfold removed. cbn [existsb]. now destruct (Ascii.eqb a (Utf8.byte r)).
Qed.

Lemma removed_perm (cs cs' : list Z) (a : ascii) : cs ≡ₚ cs' -> removed cs a = removed cs' a.
Proof.
  unfold removed. induction 1 as [|x l l' _ IH|x y l|l l' l'' _ IH1 _ IH2]; cbn [existsb].
  - reflexivity.
  - now rewrite IH.
  - now destruct (Ascii.eqb a (Utf8.byte x)), (Ascii.eqb a (Utf8.byte y)).
  - now rewrite IH1.
Qed.

(** X19.  For runes of one byte (0 to 127) [RemoveFromStringRune]
    deletes every byte that is one of the runes and keeps the others in
    their order.  So the result does not depend on the order of the
    runes, removing from a concatenation is removing from both parts, a
    second pass changes nothing, and with no rune the string comes back
    as it is. *)
Theorem X19_RemoveFromStringRune_filters_bytes :
  forall (cs : list Z) (s t : string),
    Forall (fun r => 0 <= r <= 127)%Z cs ->
    Commonutils.RemoveFromStringRune s cs = keep (fun a => negb (removed cs a)) s /\
    (forall cs', cs ≡ₚ cs' ->
       Commonutils.RemoveFromStringRune s cs' = Commonutils.RemoveFromStringRune s cs) /\
    Commonutils.RemoveFromStringRune (s ++ t) cs
      = (Commonutils.RemoveFromStringRune s cs ++ Commonutils.RemoveFromStringRune t cs)%string /\
    Commonutils.RemoveFromStringRune (Commonutils.RemoveFromStringRune s cs) cs
      = Commonutils.RemoveFromStringRune s cs /\
    Commonutils.RemoveFromStringRune s [] = s.
Proof.
  intros cs s t Hcs. split; [now apply RemoveFromStringRune_keep|]. split; [|split; [|split]].
  - intros cs' P.
    assert (Hcs' : Forall (fun r => 0 <= r <= 127)%Z cs').
    { rewrite Forall_forall in *. intros r Hr. apply Hcs. now rewrite P. }
    rewrite !RemoveFromStringRune_keep by assumption. apply keep_ext.
    intros a. now rewrite (removed_perm _ _ a P).
  - rewrite !RemoveFromStringRune_keep by assumption. apply keep_append.
  - rewrite !RemoveFromStringRune_keep by assumption. rewrite keep_keep.
    apply keep_ext. intros a. now destruct (removed cs a).
  - reflexivity.
Qed.

End AsciiRunes.

(** ** Receivers *)
Section Receivers.
Import Ast Gen Scan Matching Extra.

Lemma first_build_panics (P : string) (fd : FuncDecl) :
  VariantA.buildFunctionCall P fd = Panicked <-> Recv fd = Some [].
Proof.
  unfold VariantA.buildFunctionCall. destruct (Recv fd) as [[|recvType more]|].
  - tauto.
  - split; [|discriminate].
    destruct recvType as [name | X sel | f line args | X | cs]; try discriminate.
    destruct X; discriminate.
  - split; discriminate.
Qed.

Lemma second_build_panics (P : string) (fd : FuncDecl) :
  VariantB.buildFunctionCall P fd = Panicked <-> Recv fd = Some [].
Proof.
  unfold VariantB.buildFunctionCall. destruct (Recv fd) as [[|recvType more]|].
  - tauto.
  - split; [|discriminate].
    destruct recvType as [name | X sel | f line args | X | cs]; try discriminate.
    destruct X; discriminate.
  - split; discriminate.
Qed.

Lemma first_build_never_fatal (P : string) (fd : FuncDecl) (msg : string) :
  VariantA.buildFunctionCall P fd <> Fatal msg.
Proof.
  unfold VariantA.buildFunctionCall. destruct (Recv fd) as [[|recvType more]|]; try discriminate.
  destruct recvType as [name | X sel | f line args | X | cs]; try discriminate.
  destruct X; discriminate.
Qed.

Lemma second_build_never_fatal (P : string) (fd : FuncDecl) (msg : string) :
  VariantB.buildFunctionCall P fd <> Fatal msg.
Proof.
  unfold VariantB.buildFunctionCall. destruct (Recv fd) as [[|recvType more]|]; try discriminate.
  destruct recvType as [name | X sel | f line args | X | cs]; try discriminate.
  destruct X; discriminate.
Qed.

(** X20.  [buildFunctionCall] on receivers other than a type name or
    a pointer to one.  It panics exactly for a receiver list without a field,
    and never ends the run through the log.  For a first receiver type
    that is neither a type name nor a pointer to a type name (a generic
    or a qualified receiver type, a pointer to one) the struct name stays
    empty and no star is written: the first generator answers the
    package name, two dots and the method name, the per-package one a dot
    and the method name. *)
Theorem X20_references_for_other_receivers :
  forall (P : string) (fd : FuncDecl),
    (VariantA.buildFunctionCall P fd = Panicked <-> Recv fd = Some []) /\
    (VariantB.buildFunctionCall P fd = Panicked <-> Recv fd = Some []) /\
    (forall msg, VariantA.buildFunctionCall P fd <> Fatal msg /\
                 VariantB.buildFunctionCall P fd <> Fatal msg) /\
    (forall recvType more,
       Recv fd = Some (recvType :: more) -> plainReceiver recvType = false ->
       VariantA.buildFunctionCall P fd = Done (P ++ ".." ++ Name fd)%string /\
       VariantB.buildFunctionCall P fd = Done ("." ++ Name fd)%string).
Proof.
  intros P fd. split; [apply first_build_panics|]. split; [apply second_build_panics|].
  split; [intros msg; split; [apply first_build_never_fatal | apply second_build_never_fatal]|].
  intros recvType more R Hp. unfold VariantA.buildFunctionCall, VariantB.buildFunctionCall.
  rewrite R. destruct recvType as [name | X sel | f line args | X | cs]; try discriminate;
    try (split; reflexivity).
  destruct X; try discriminate; split; reflexivity.
Qed.

End Receivers.

(** ** Panics of the scan *)
Section ScanPanics.
Import Ast Gen Scan Matching Extra.

Lemma collect_never_fatal {A B : Type} (f : A -> outcome (list B)) (xs : list A) :
  (forall x msg, f x <> Fatal msg) -> forall msg, collect f xs <> Fatal msg.
Proof.
  intros Hf msg. induction xs as [|a xs IH]; [discriminate|].
  simpl. destruct (f a) as [ys|m|] eqn:Fa; simpl.
  - destruct (collect f xs) as [zs|m|]; simpl; [discriminate | exact IH | discriminate].
  - now apply Hf in Fa.
  - discriminate.
Qed.

Lemma collect_panicked {A B : Type} (f : A -> outcome (list B)) (xs : list A) :
  (forall x msg, f x <> Fatal msg) ->
  (collect f xs = Panicked <-> exists x, In x xs /\ f x = Panicked).
Proof.
  intros Hf. induction xs as [|a xs IH]; simpl.
  - split; [discriminate | intros [x [[] _]]].
  - destruct (f a) as [ys|m|] eqn:Fa; simpl.
    + destruct (collect f xs) as [zs|m|] eqn:C; simpl.
      * split; [discriminate|]. intros [x [[<- | Hx] Fx]]; [congruence|].
        assert (H : Done zs = @Panicked (list B)) by (apply IH; eauto). discriminate H.
      * now apply (collect_never_fatal f xs Hf) in C.
      * split; [|reflexivity]. intros _. destruct (proj1 IH eq_refl) as [x [Hx Fx]]. eauto.
    + now apply Hf in Fa.
    + split; [|reflexivity]. intros _. exists a. auto.
Qed.

Section OneBody.
Context {T : Type} (w : World T) (build : string -> FuncDecl -> outcome string).
Hypothesis build_never_fatal : forall P fd msg, build P fd <> Fatal msg.

Lemma visitNode_never_fatal dir path pkgName importMap fd n msg :
  visitNode w build dir path pkgName importMap fd n <> Fatal msg.
Proof.
  destruct n as [x | X sel | f line args | X | cs]; try discriminate. simpl.
  destruct (containsGetCurrentFunc f importMap); [|discriminate].
  destruct (build pkgName fd) as [ref|m|] eqn:Bd; simpl; try discriminate.
  now apply build_never_fatal in Bd.
Qed.

Lemma visitNode_panicked dir path pkgName importMap fd n :
  visitNode w build dir path pkgName importMap fd n = Panicked <->
  matchesCall importMap n = true /\ build pkgName fd = Panicked.
Proof.
  destruct n as [x | X sel | f line args | X | cs];
    try (split; [discriminate | intros [H _]; discriminate H]).
  simpl. destruct (containsGetCurrentFunc f importMap).
  - destruct (build pkgName fd) as [ref|m|] eqn:Bd; simpl.
    + split; [discriminate | intros [_ H]; discriminate H].
    + now apply build_never_fatal in Bd.
    + tauto.
  - split; [discriminate | intros [H _]; discriminate H].
Qed.

Lemma scanBody_never_fatal dir path pkgName importMap fd body msg :
  scanBody w build dir path pkgName importMap fd body <> Fatal msg.
Proof. apply collect_never_fatal. intros n m. apply visitNode_never_fatal. Qed.

Lemma scanBody_panicked dir path pkgName importMap fd body :
  scanBody w build dir path pkgName importMap fd body = Panicked <->
  build pkgName fd = Panicked /\
  exists n, In n (Inspect body) /\ matchesCall importMap n = true.
Proof.
  unfold scanBody. rewrite collect_panicked by (intros n m; apply visitNode_never_fatal).
  split.
  - intros [n [Hn V]]. apply visitNode_panicked in V as [Hm Hb]. eauto.
  - intros [Hb [n [Hn Hm]]]. exists n. split; [exact Hn|]. apply visitNode_panicked. auto.
Qed.

End OneBody.

Section FirstGenerator.
Variable w : World VariantA.warmupTemplateData.
Variable dir : string.

Lemma first_scanDecl_never_fatal path pkgName importMap decl msg :
  VariantA.scanDecl w dir path pkgName importMap decl <> Fatal msg.
Proof.
  destruct decl as [fd|]; simpl; [|discriminate].
  destruct (Body fd); [|discriminate].
  apply scanBody_never_fatal. apply first_build_never_fatal.
Qed.

Lemma first_scanDecl_panicked path pkgName importMap decl :
  VariantA.scanDecl w dir path pkgName importMap decl = Panicked <->
  exists fd body n, decl = FuncD fd /\ Body fd = Some body /\ Recv fd = Some [] /\
    In n (Inspect body) /\ matchesCall importMap n = true.
Proof.
  destruct decl as [fd|]; simpl;
    [|split; [discriminate | intros [fd [body [n [H _]]]]; discriminate H]].
  destruct (Body fd) as [body|] eqn:B.
  - rewrite (scanBody_panicked w _ first_build_never_fatal), first_build_panics. split.
    + intros [R [n [Hn Hm]]]. exists fd, body, n. auto.
    + intros [fd' [body' [n [[= <-] [B' [R [Hn Hm]]]]]]]. rewrite B in B'.
      injection B' as <-. eauto.
  - split; [discriminate|]. intros [fd' [body' [n [[= <-] [B' _]]]]]. congruence.
Qed.

Lemma first_scanDeclOf_never_fatal path pkgName importMap decl msg :
  VariantA.scanDeclOf w dir path pkgName importMap decl <> Fatal msg.
Proof.
  destruct decl as [fd|]; cbn [VariantA.scanDeclOf]; [apply first_scanDecl_never_fatal | discriminate].
Qed.

Lemma first_scanDeclOf_panicked path pkgName importMap decl :
  VariantA.scanDeclOf w dir path pkgName importMap decl = Panicked <->
  exists fd body n, decl = FuncD fd /\ Body fd = Some body /\ Recv fd = Some [] /\
    In n (Inspect body) /\ matchesCall importMap n = true.
Proof.
  destruct decl as [fd|]; cbn [VariantA.scanDeclOf]; [apply first_scanDecl_panicked|].
  split; [discriminate | intros [fd [body [n [H _]]]]; discriminate H].
Qed.

Lemma first_decls_panicked path (file : File) :
  collect (VariantA.scanDeclOf w dir path (PkgName file) (fileImportMap (Imports file) ∅))
          (Decls file) = Panicked <->
  exists fd n, usesProbe file fd n /\ Recv fd = Some [].
Proof.
  rewrite collect_panicked by (intros d m; apply first_scanDeclOf_never_fatal). split.
  - intros [decl [Hd S]]. apply first_scanDeclOf_panicked in S
      as [fd [body [n [-> [B [R [Hn Hm]]]]]]].
    exists fd, n. split; [exists body; auto | exact R].
  - intros [fd [n [[body [Hd [B [Hn Hm]]]] R]]]. exists (FuncD fd). split; [exact Hd|].
    apply first_scanDeclOf_panicked. exists fd, body, n. auto.
Qed.

Lemma first_visit_never_fatal acc v msg : VariantA.visit w dir acc v <> Fatal msg.
Proof.
  destruct v as [path err]. unfold VariantA.visit.
  destruct (err || _ || _); [discriminate|]. unfold VariantA.analyzeFile.
  destruct (parser_ParseFile w path) as [file|]; [|destruct acc as [[? ?] ?]; discriminate].
  destruct (String.eqb (PkgName file) "main"); [destruct acc as [[? ?] ?]; discriminate|].
  destruct (collect _ (Decls file)) as [fc|m|] eqn:C; simpl;
    [destruct acc as [[? ?] ?]; discriminate | | discriminate].
  now apply (collect_never_fatal _ _ (fun d m' => first_scanDeclOf_never_fatal _ _ _ d m')) in C.
Qed.

Lemma first_visit_panicked acc path err :
  VariantA.visit w dir acc (path, err) = Panicked <->
  err = false /\ Filepath.Ext path = ".go" /\ Filepath.Base path <> VariantA.skippedName /\
  exists file, parser_ParseFile w path = Some file /\ PkgName file <> "main" /\
    exists fd n, usesProbe file fd n /\ Recv fd = Some [].
Proof.
  destruct acc as [[rc ip] im]. split.
  - unfold VariantA.visit. destruct (err || _ || _) eqn:R; [discriminate|].
    apply visit_relevant in R as [-> [Hx Hb]]. unfold VariantA.analyzeFile.
    destruct (parser_ParseFile w path) as [file|] eqn:P; [|discriminate].
    destruct (String.eqb_spec (PkgName file) "main") as [Hm|Hm]; [discriminate|].
    destruct (collect _ (Decls file)) as [fc|m|] eqn:C; simpl; try discriminate.
    intros _. apply first_decls_panicked in C. repeat split; auto. exists file. auto.
  - intros [-> [Hx [Hb [file [P [Hm U]]]]]].
    rewrite (visit_analysed w dir _ _ _ _ _ Hx Hb P Hm).
    now rewrite (proj2 (first_decls_panicked path file) U).
Qed.

Lemma first_walk_never_fatal visits : forall acc msg,
  VariantA.walkFrom w dir acc visits <> Fatal msg.
Proof.
  induction visits as [|v rest IH]; intros acc msg; cbn [VariantA.walkFrom]; [discriminate|].
  destruct (VariantA.visit w dir acc v) as [acc1|m|] eqn:V; cbn [obind].
  - apply IH.
  - now apply first_visit_never_fatal in V.
  - discriminate.
Qed.

Lemma first_walk_panicked visits : forall acc,
  VariantA.walkFrom w dir acc visits = Panicked <->
  exists path file fd n,
    In (path, false) visits /\ Filepath.Ext path = ".go" /\
    Filepath.Base path <> VariantA.skippedName /\
    parser_ParseFile w path = Some file /\ PkgName file <> "main" /\
    usesProbe file fd n /\ Recv fd = Some [].
Proof.
  induction visits as [|[path err] rest IH]; intros acc; cbn [VariantA.walkFrom].
  - split; [discriminate | intros [p [f [fd [n [[] _]]]]]].
  - destruct (VariantA.visit w dir acc (path, err)) as [acc1|m|] eqn:V; cbn [obind].
    + rewrite IH. split.
      * intros [p [f [fd [n [Hin H]]]]]. exists p, f, fd, n. split; [now right | exact H].
      * intros [p [f [fd [n [[[= -> ->] | Hin] [Hx [Hb [P [Hm [U R]]]]]]]]]].
        -- assert (X : VariantA.visit w dir acc (p, false) = Panicked).
           { apply first_visit_panicked. split; [reflexivity|]. split; [exact Hx|].
             split; [exact Hb|]. exists f. split; [exact P|]. split; [exact Hm|].
             exists fd, n. auto. }
           congruence.
        -- exists p, f, fd, n. auto 10.
    + now apply first_visit_never_fatal in V.
    + split; [|reflexivity]. intros _.
      apply first_visit_panicked in V as [-> [Hx [Hb [file [P [Hm [fd [n [U R]]]]]]]]].
      exists path, file, fd, n. split; [now left | auto 10].
Qed.

(** X21.  The scan of the first generator never ends the run through
    the log, and it panics exactly when some analysed file has a
    function declaration with a receiver list without a field whose body
    uses the probe.  The run then stops in that panic before anything is
    written. *)
Theorem X21_scan_panics_on_a_method_without_receiver :
  (VariantA.scanGoFiles w dir = Panicked <->
   exists path file fd n,
     analysed w VariantA.skippedName dir path file /\
     usesProbe file fd n /\ Recv fd = Some []) /\
  (forall msg, VariantA.scanGoFiles w dir <> Fatal msg) /\
  (VariantA.scanGoFiles w dir = Panicked -> VariantA.run w dir = (Panicked, [])).
Proof.
  split; [|split].
  - unfold VariantA.scanGoFiles. rewrite first_walk_panicked. unfold analysed. split.
    + intros [p [f [fd [n [Hin [Hx [Hb [P [Hm [U R]]]]]]]]]]. exists p, f, fd, n. auto 10.
    + intros [p [f [fd [n [[Hin [Hx [Hb [P Hm]]]] [U R]]]]]]. exists p, f, fd, n. auto 10.
  - intros msg. apply first_walk_never_fatal.
  - intros S. unfold VariantA.run, VariantA.generate, bind, lift. now rewrite S.
Qed.

End FirstGenerator.

Section SecondGenerator.
Variable w : World VariantB.warmupTemplateData.
Variable dir : string.

Lemma second_scanDecl_never_fatal path pkgName importMap decl msg :
  VariantB.scanDecl w dir path pkgName importMap decl <> Fatal msg.
Proof.
  destruct decl as [fd|]; simpl; [|discriminate].
  destruct (Body fd); [|discriminate]. destruct (TypeParams fd); [discriminate|].
  apply scanBody_never_fatal. apply second_build_never_fatal.
Qed.

Lemma second_scanDecl_panicked path pkgName importMap decl :
  VariantB.scanDecl w dir path pkgName importMap decl = Panicked <->
  exists fd body n, decl = FuncD fd /\ Body fd = Some body /\ TypeParams fd = None /\
    Recv fd = Some [] /\ In n (Inspect body) /\ matchesCall importMap n = true.
Proof.
  destruct decl as [fd|]; simpl;
    [|split; [discriminate | intros [fd [body [n [H _]]]]; discriminate H]].
  destruct (Body fd) as [body|] eqn:B.
  - destruct (TypeParams fd) as [tps|] eqn:Tp.
    + split; [discriminate|]. intros [fd' [body' [n [[= <-] [_ [Tp' _]]]]]]. congruence.
    + rewrite (scanBody_panicked w _ second_build_never_fatal), second_build_panics. split.
      * intros [R [n [Hn Hm]]]. exists fd, body, n. auto 10.
      * intros [fd' [body' [n [[= <-] [B' [_ [R [Hn Hm]]]]]]]]. rewrite B in B'.
        injection B' as <-. eauto.
  - split; [discriminate|]. intros [fd' [body' [n [[= <-] [B' _]]]]]. congruence.
Qed.

Lemma second_scanDeclOf_never_fatal path pkgName importMap decl msg :
  VariantB.scanDeclOf w dir path pkgName importMap decl <> Fatal msg.
Proof.
  destruct decl as [fd|]; cbn [VariantB.scanDeclOf]; [apply second_scanDecl_never_fatal | discriminate].
Qed.

Lemma second_scanDeclOf_panicked path pkgName importMap decl :
  VariantB.scanDeclOf w dir path pkgName importMap decl = Panicked <->
  exists fd body n, decl = FuncD fd /\ Body fd = Some body /\ TypeParams fd = None /\ Recv fd = Some [] /\
    In n (Inspect body) /\ matchesCall importMap n = true.
Proof.
  destruct decl as [fd|]; cbn [VariantB.scanDeclOf]; [apply second_scanDecl_panicked|].
  split; [discriminate | intros [fd [body [n [H _]]]]; discriminate H].
Qed.

Lemma second_decls_panicked path (file : File) :
  collect (VariantB.scanDeclOf w dir path (PkgName file) (fileImportMap (Imports file) ∅))
          (Decls file) = Panicked <->
  exists fd n, usesProbe file fd n /\ TypeParams fd = None /\ Recv fd = Some [].
Proof.
  rewrite collect_panicked by (intros d m; apply second_scanDeclOf_never_fatal). split.
  - intros [decl [Hd S]]. apply second_scanDeclOf_panicked in S
      as [fd [body [n [-> [B [Tp [R [Hn Hm]]]]]]]].
    exists fd, n. split; [exists body; auto | auto].
  - intros [fd [n [[body [Hd [B [Hn Hm]]]] [Tp R]]]]. exists (FuncD fd). split; [exact Hd|].
    apply second_scanDeclOf_panicked. exists fd, body, n. auto 10.
Qed.

Lemma second_visit_never_fatal pkgMap v msg : VariantB.visit w dir pkgMap v <> Fatal msg.
Proof.
  destruct v as [path err]. unfold VariantB.visit.
  destruct (err || _ || _); [discriminate|].
  destruct (parser_ParseFile w path) as [file|]; [|discriminate].
  destruct (String.eqb (PkgName file) "main"); [discriminate|].
  destruct (collect _ (Decls file)) as [fc|m|] eqn:C; simpl; try discriminate.
  now apply (collect_never_fatal _ _ (fun d m' => second_scanDeclOf_never_fatal _ _ _ d m')) in C.
Qed.

Lemma second_visit_panicked pkgMap path err :
  VariantB.visit w dir pkgMap (path, err) = Panicked <->
  err = false /\ Filepath.Ext path = ".go" /\ Filepath.Base path <> VariantB.skippedName /\
  exists file, parser_ParseFile w path = Some file /\ PkgName file <> "main" /\
    exists fd n, usesProbe file fd n /\ TypeParams fd = None /\ Recv fd = Some [].
Proof.
  split.
  - unfold VariantB.visit. destruct (err || _ || _) eqn:R; [discriminate|].
    apply package_visit_relevant in R as [-> [Hx Hb]].
    destruct (parser_ParseFile w path) as [file|] eqn:P; [|discriminate].
    destruct (String.eqb_spec (PkgName file) "main") as [Hm|Hm]; [discriminate|].
    destruct (collect _ (Decls file)) as [fc|m|] eqn:C; simpl; try discriminate.
    intros _. apply second_decls_panicked in C. repeat split; auto. exists file. auto.
  - intros [-> [Hx [Hb [file [P [Hm U]]]]]].
    rewrite (package_visit_analysed w dir _ _ _ Hx Hb P Hm).
    now rewrite (proj2 (second_decls_panicked path file) U).
Qed.

Lemma second_walk_never_fatal visits : forall pkgMap msg,
  VariantB.walkFrom w dir pkgMap visits <> Fatal msg.
Proof.
  induction visits as [|v rest IH]; intros pkgMap msg; cbn [VariantB.walkFrom]; [discriminate|].
  destruct (VariantB.visit w dir pkgMap v) as [m1|m|] eqn:V; cbn [obind].
  - apply IH.
  - now apply second_visit_never_fatal in V.
  - discriminate.
Qed.

Lemma second_walk_panicked visits : forall pkgMap,
  VariantB.walkFrom w dir pkgMap visits = Panicked <->
  exists path file fd n,
    In (path, false) visits /\ Filepath.Ext path = ".go" /\
    Filepath.Base path <> VariantB.skippedName /\
    parser_ParseFile w path = Some file /\ PkgName file <> "main" /\
    usesProbe file fd n /\ TypeParams fd = None /\ Recv fd = Some [].
Proof.
  induction visits as [|[path err] rest IH]; intros pkgMap; cbn [VariantB.walkFrom].
  - split; [discriminate | intros [p [f [fd [n [[] _]]]]]].
  - destruct (VariantB.visit w dir pkgMap (path, err)) as [m1|m|] eqn:V; cbn [obind].
    + rewrite IH. split.
      * intros [p [f [fd [n [Hin H]]]]]. exists p, f, fd, n. split; [now right | exact H].
      * intros [p [f [fd [n [[[= -> ->] | Hin] [Hx [Hb [P [Hm [U [Tp R]]]]]]]]]]].
        -- assert (X : VariantB.visit w dir pkgMap (p, false) = Panicked).
           { apply second_visit_panicked. split; [reflexivity|]. split; [exact Hx|].
             split; [exact Hb|]. exists f. split; [exact P|]. split; [exact Hm|].
             exists fd, n. auto. }
           congruence.
        -- exists p, f, fd, n. auto 10.
    + now apply second_visit_never_fatal in V.
    + split; [|reflexivity]. intros _.
      apply second_visit_panicked in V as [-> [Hx [Hb [file [P [Hm [fd [n [U [Tp R]]]]]]]]]].
      exists path, file, fd, n. split; [now left | auto 10].
Qed.

(** X22.  The scan of the per-package generator never ends the run
    through the log, and it panics exactly when some analysed file has a
    function declaration without type parameters, with a receiver list
    without a field, whose body uses the probe.  The run then stops in
    that panic before the manifest is read and before anything is
    written. *)
Theorem X22_package_scan_panics_on_a_method_without_receiver :
  (VariantB.scanPackages w dir = Panicked <->
   exists path file fd n,
     analysed w VariantB.skippedName dir path file /\
     usesProbe file fd n /\ TypeParams fd = None /\ Recv fd = Some []) /\
  (forall msg, VariantB.scanPackages w dir <> Fatal msg) /\
  (VariantB.scanPackages w dir = Panicked -> VariantB.run w dir = (Panicked, [])).
Proof.
  assert (E : VariantB.scanPackages w dir = Panicked
              <-> VariantB.walkFrom w dir ∅ (filepath_Walk w dir) = Panicked).
  { unfold VariantB.scanPackages.
    destruct (VariantB.walkFrom w dir ∅ (filepath_Walk w dir)); cbn [obind];
      split; (discriminate || reflexivity). }
  split; [|split].
  - rewrite E, second_walk_panicked. unfold analysed. split.
    + intros [p [f [fd [n [Hin [Hx [Hb [P [Hm [U R]]]]]]]]]]. exists p, f, fd, n. auto 10.
    + intros [p [f [fd [n [[Hin [Hx [Hb [P Hm]]]] [U R]]]]]]. exists p, f, fd, n. auto 10.
  - intros msg. unfold VariantB.scanPackages.
    destruct (VariantB.walkFrom w dir ∅ (filepath_Walk w dir)) as [m|m|] eqn:W; cbn [obind];
      try discriminate.
    now apply second_walk_never_fatal in W.
  - intros S. unfold VariantB.run, VariantB.generate, bind, lift. now rewrite S.
Qed.

End SecondGenerator.

End ScanPanics.

(** ** The imports of a file *)
Section ImportResolution.
Import Ast Gen Scan Matching Extra.

Lemma addImport_insert (m : gmap string string) (imp : ImportSpec) :
  addImport m imp = <[aliasOf imp := pathOf imp]> m.
Proof. unfold addImport, aliasOf, pathOf. now destruct (imp_Name imp). Qed.

Lemma fileImportMap_snoc (imports : list ImportSpec) (imp : ImportSpec)
    (start : gmap string string) :
  fileImportMap (imports ++ [imp]) start
  = <[aliasOf imp := pathOf imp]> (fileImportMap imports start).
Proof. unfold fileImportMap. rewrite fold_left_app. simpl. apply addImport_insert. Qed.

Lemma fileImportMap_lookup (imports : list ImportSpec) (start : gmap string string)
    (a : string) :
  fileImportMap imports start !! a
  = match List.find (fun imp => String.eqb (aliasOf imp) a) (rev imports) with
    | Some imp => Some (pathOf imp)
    | None => start !! a
    end.
Proof.
  induction imports as [|imp imports IH] using rev_ind; [reflexivity|].
  rewrite fileImportMap_snoc, rev_app_distr. cbn [rev app List.find].
  destruct (String.eqb_spec (aliasOf imp) a) as [<-|Hne].
  - now rewrite lookup_insert_eq.
  - rewrite lookup_insert_ne by exact Hne. exact IH.
Qed.

Lemma last_binding (imports : list ImportSpec) (a : string) (imp : ImportSpec) :
  List.find (fun i => String.eqb (aliasOf i) a) (rev imports) = Some imp <->
  exists before after, imports = before ++ imp :: after /\ aliasOf imp = a /\
    Forall (fun i => aliasOf i <> a) after.
Proof.
  rewrite find_first. split.
  - intros [b [c [E [Hall Hx]]]]. exists (rev c), (rev b). split; [|split].
    + rewrite <- (rev_involutive imports), E, rev_app_distr. cbn [rev].
      now rewrite <- app_assoc.
    + now apply String.eqb_eq.
    + apply Forall_forall. intros i Hi. apply list_elem_of_In, in_rev in Hi.
      rewrite Forall_forall in Hall. apply String.eqb_neq, Hall. now apply list_elem_of_In.
  - intros [before [after [-> [Ha Hall]]]]. exists (rev after), (rev before). split; [|split].
    + rewrite rev_app_distr. cbn [rev]. now rewrite <- app_assoc.
    + apply Forall_forall. intros i Hi. apply list_elem_of_In, in_rev in Hi.
      rewrite Forall_forall in Hall. apply String.eqb_neq, Hall. now apply list_elem_of_In.
    + now apply String.eqb_eq.
Qed.

(** X23.  How a file's imports resolve a name.  Each import binds one
    name, its local name if it has one and else the last segment of its
    path with the quotes stripped, and a later import of the same name
    replaces an earlier one: a name resolves to the path of the last
    import that binds it, and to nothing when none does.  So a selector
    [a.GetCurrentFunc] counts as the probe exactly when the last import
    that binds [a] names the path of the reflecting package. *)
Theorem X23_last_import_of_a_name_wins :
  forall (imports : list ImportSpec) (a : string),
    (forall p, fileImportMap imports ∅ !! a = Some p <->
       exists before imp after,
         imports = before ++ imp :: after /\ aliasOf imp = a /\ pathOf imp = p /\
         Forall (fun i => aliasOf i <> a) after) /\
    (fileImportMap imports ∅ !! a = None <-> Forall (fun i => aliasOf i <> a) imports) /\
    (forall sel,
       containsGetCurrentFunc (SelectorExpr (Ident a) sel) (fileImportMap imports ∅) = true <->
       sel = "GetCurrentFunc" /\
       exists before imp after,
         imports = before ++ imp :: after /\ aliasOf imp = a /\ pathOf imp = probePath /\
         Forall (fun i => aliasOf i <> a) after).
Proof.
  intros imports a.
  assert (R : forall p, fileImportMap imports ∅ !! a = Some p <->
       exists before imp after,
         imports = before ++ imp :: after /\ aliasOf imp = a /\ pathOf imp = p /\
         Forall (fun i => aliasOf i <> a) after).
  { intros p. rewrite fileImportMap_lookup.
    destruct (List.find _ (rev imports)) as [imp|] eqn:F.
    - apply last_binding in F as [before [after [E [Ha Hall]]]]. split.
      + intros [= <-]. exists before, imp, after. auto.
      + intros [b [i [c [E' [Ha' [Hp Hall']]]]]].
        assert (F' : List.find (fun i => String.eqb (aliasOf i) a) (rev imports) = Some i)
          by (apply last_binding; eauto).
        assert (F0 : List.find (fun i => String.eqb (aliasOf i) a) (rev imports) = Some imp)
          by (apply last_binding; eauto).
        congruence.
    - rewrite lookup_empty. split; [discriminate|].
      intros [b [i [c [E' [Ha' [Hp Hall']]]]]].
      assert (F' : List.find (fun i => String.eqb (aliasOf i) a) (rev imports) = Some i)
        by (apply last_binding; eauto).
      congruence. }
  split; [exact R|]. split.
  - rewrite fileImportMap_lookup.
    destruct (List.find _ (rev imports)) as [imp|] eqn:F.
    + split; [discriminate|]. intros Hall.
      apply last_binding in F as [before [after [-> [Ha _]]]].
      rewrite Forall_forall in Hall. exfalso. apply (Hall imp); [|exact Ha].
      apply list_elem_of_In, in_or_app. right. now left.
    + split; [|intros _; apply lookup_empty]. intros _.
      apply find_nothing in F. apply Forall_forall. intros i Hi.
      rewrite Forall_forall in F. apply String.eqb_neq, F.
      apply list_elem_of_In. rewrite <- in_rev. now apply list_elem_of_In.
  - intros sel. cbn [containsGetCurrentFunc]. rewrite andb_true_iff, String.eqb_eq.
    rewrite probe_lookup_true, R. tauto.
Qed.

End ImportResolution.

(** ** What reaches the template *)
Section TemplateInput.
Import Ast Gen Scan Matching Extra.

Lemma flat_map_perm {A B : Type} (f : A -> list B) (l l' : list A) :
  l ≡ₚ l' -> flat_map f l ≡ₚ flat_map f l'.
Proof.
  induction 1 as [|x l l' _ IH|x y l|l l' l'' _ IH1 _ IH2]; simpl.
  - reflexivity.
  - now apply Permutation_app_head.
  - rewrite !app_assoc. apply Permutation_app_tail, Permutation_app_comm.
  - now transitivity (flat_map f l').
Qed.

Lemma flat_map_ext_In {A B : Type} (f g : A -> list B) (l : list A) :
  (forall x, In x l -> f x = g x) -> flat_map f l = flat_map g l.
Proof.
  induction l as [|x l IH]; intros H; [reflexivity|]. simpl.
  rewrite (H x) by now left. rewrite IH; [reflexivity|]. intros y Hy. apply H. now right.
Qed.

Lemma filter_split {A : Type} (p : A -> bool) (l : list A) :
  l ≡ₚ List.filter p l ++ List.filter (fun x => negb (p x)) l.
Proof.
  induction l as [|x l IH]; [reflexivity|]. simpl. destruct (p x); simpl.
  - now constructor.
  - etransitivity; [apply perm_skip, IH|]. apply Permutation_middle.
Qed.

Lemma filter_filter_key (e e' : string) (l : list rawCall) :
  e' <> e ->
  List.filter (fun c => String.eqb (rc_Expr c) e')
              (List.filter (fun c => negb (String.eqb (rc_Expr c) e)) l)
  = List.filter (fun c => String.eqb (rc_Expr c) e') l.
Proof.
  intros Hne. induction l as [|c l IH]; [reflexivity|]. simpl.
  destruct (String.eqb_spec (rc_Expr c) e) as [He|He]; simpl.
  - destruct (String.eqb_spec (rc_Expr c) e') as [He'|He']; [congruence | exact IH].
  - now rewrite IH.
Qed.

(** Grouping by key and putting the groups side by side loses nothing. *)
Lemma group_by_keys (keys : list string) :
  NoDup keys ->
  forall l : list rawCall, (forall c, In c l -> In (rc_Expr c) keys) ->
    flat_map (fun e => List.filter (fun c => String.eqb (rc_Expr c) e) l) keys ≡ₚ l.
Proof.
  induction keys as [|e ks IH]; intros Hnd l Hall.
  - destruct l as [|c l]; [reflexivity|]. exfalso. apply (Hall c). now left.
  - apply NoDup_cons in Hnd as [Hne Hnd]. simpl.
    etransitivity; [|symmetry; apply (filter_split (fun c => String.eqb (rc_Expr c) e) l)].
    apply Permutation_app_head.
    etransitivity;
      [|apply (IH Hnd (List.filter (fun c => negb (String.eqb (rc_Expr c) e)) l))].
    + erewrite flat_map_ext_In; [reflexivity|]. intros e' He'. simpl.
      symmetry. apply filter_filter_key. intros ->. apply Hne. now apply list_elem_of_In.
    + intros c Hc. apply List.filter_In in Hc as [Hc Hk]. apply negb_true_iff in Hk.
      apply String.eqb_neq in Hk. destruct (Hall c Hc) as [He | Hin]; [congruence | exact Hin].
Qed.

Lemma expand_group (e : string) (l : list rawCall) :
  map (fun cm => {| rc_Expr := e; rc_Comment := cm |}) (commentsOf e l)
  = List.filter (fun c => String.eqb (rc_Expr c) e) l.
Proof.
  unfold commentsOf. induction l as [|c l IH]; [reflexivity|]. simpl.
  destruct (String.eqb_spec (rc_Expr c) e) as [<-|Hne]; simpl; [|exact IH].
  rewrite IH. now destruct c.
Qed.

Lemma expand_listing (kvs : list (string * list string)) (l : list rawCall) :
  (forall kv, In kv kvs -> snd kv = commentsOf (fst kv) l) ->
  expand (map (fun kv => {| Expr := fst kv; Comments := snd kv |}) kvs)
  = flat_map (fun e => List.filter (fun c => String.eqb (rc_Expr c) e) l) (map fst kvs).
Proof.
  induction kvs as [|kv kvs IH]; intros H; [reflexivity|].
  unfold expand in *. simpl. rewrite IH by (intros x Hx; apply H; now right).
  rewrite (H kv) by now left. now rewrite expand_group.
Qed.

Lemma callMapOf_entry (l : list rawCall) (e : string) (cs : list string) :
  callMapOf l !! e = Some cs -> cs = commentsOf e l.
Proof. rewrite callMapOf_lookup. destruct (commentsOf e l); [discriminate | now intros [= <-]]. Qed.

Lemma expand_deduplicated {T : Type} (w : World T) (l : list rawCall) :
  fair w -> expand (deduplicateCalls w l) ≡ₚ l.
Proof.
  intros Hf. unfold expand at 1. rewrite (flat_map_perm _ _ _ (deduplicateCalls_perm w Hf l)).
  fold (expand (map (fun kv => {| Expr := fst kv; Comments := snd kv |})
                    (map_to_list (callMapOf l)))).
  rewrite (expand_listing _ l).
  - apply group_by_keys; [apply (NoDup_fst_map_to_list (callMapOf l))|].
    intros c Hc. apply in_map_iff.
    assert (Hn : commentsOf (rc_Expr c) l <> [])
      by (apply commentsOf_nonempty, in_map_iff; eauto).
    exists (rc_Expr c, commentsOf (rc_Expr c) l). split; [reflexivity|].
    apply list_elem_of_In, elem_of_map_to_list. rewrite callMapOf_lookup.
    destruct (commentsOf (rc_Expr c) l); [contradiction | reflexivity].
  - intros [e cs] Hin. apply list_elem_of_In, elem_of_map_to_list in Hin.
    now apply callMapOf_entry.
Qed.

(** X24.  Deduplication loses nothing, invents nothing and counts
    nothing twice: under an iteration that yields every entry once, the
    calls the template receives, each spelled out again with one raw call
    site per comment, are the raw call sites of the scan up to their
    order; so there are as many comments in all as raw call sites.  This
    holds for the calls as deduplicated and as sorted for either
    template. *)
Theorem X24_deduplicated_calls_spell_out_the_raw_calls :
  forall (T : Type) (w : World T) (rawCalls : list rawCall)
         (importsA importsB : list importLine) (pkg : VariantB.packageData),
    fair w ->
    expand (deduplicateCalls w rawCalls) ≡ₚ rawCalls /\
    expand (VariantA.tpl_WarmupCalls
              (VariantA.templateData importsA (deduplicateCalls w rawCalls))) ≡ₚ rawCalls /\
    expand (VariantB.tpl_WarmupCalls
              (VariantB.templateData pkg importsB (deduplicateCalls w rawCalls))) ≡ₚ rawCalls /\
    list_sum (map (fun wc => length (Comments wc)) (deduplicateCalls w rawCalls))
      = length rawCalls.
Proof.
  intros T w l iA iB pkg Hf. pose proof (expand_deduplicated w l Hf) as E.
  split; [exact E|]. split; [|split].
  - cbn [VariantA.templateData VariantA.tpl_WarmupCalls]. unfold expand at 1.
    now rewrite (flat_map_perm _ _ _ (SortFunc_perm cmpCall (deduplicateCalls w l))).
  - cbn [VariantB.templateData VariantB.tpl_WarmupCalls]. unfold expand at 1.
    now rewrite (flat_map_perm _ _ _ (SortFunc_perm cmpCall (deduplicateCalls w l))).
  - rewrite <- (Permutation_length E). unfold expand. rewrite length_flat_map.
    f_equal. apply map_ext. intros wc. now rewrite length_map.
Qed.

End TemplateInput.

(** ** A failing import fixer *)
Section Abort.
Import Ast Gen Scan Matching Extra.

Lemma forEach_app {A : Type} (body : A -> M unit) (xs ys : list A) :
  forall evs, forEach (xs ++ ys) body evs
              = bind (forEach xs body) (fun _ => forEach ys body) evs.
Proof.
  induction xs as [|x xs IH]; intros evs; [reflexivity|].
  cbn [app forEach]. unfold bind in *.
  destruct (body x evs) as [[[]| |] evs1]; [apply IH | reflexivity | reflexivity].
Qed.

Lemma deduplicateCalls_nonempty {T : Type} (w : World T) (l : list rawCall) :
  fair w -> l <> [] -> deduplicateCalls w l <> [].
Proof.
  intros Hf Hl E. apply Hl. apply Permutation_nil.
  rewrite <- (expand_deduplicated w l Hf), E. reflexivity.
Qed.

Lemma generatePackage_fixer_fails (w : World VariantB.warmupTemplateData)
    (modulePrefix : string) (pkg : VariantB.packageData) (text code : string)
    (evs : list event) :
  fair w -> VariantB.RawCalls pkg <> [] ->
  execTemplate w (VariantB.templateData pkg
                    (VariantB.buildImportLines w (VariantB.ImportPaths pkg) modulePrefix)
                    (deduplicateCalls w (VariantB.RawCalls pkg))) = Some text ->
  format_Source w text = Some code ->
  os_WriteFile w (filepath_Join w (VariantB.Dir pkg) VariantB.outputName) code = true ->
  goimports w (filepath_Join w (VariantB.Dir pkg) VariantB.outputName) = false ->
  VariantB.generatePackage w modulePrefix pkg evs
  = (Fatal "goimports failed",
     evs ++ [WriteFile (filepath_Join w (VariantB.Dir pkg) VariantB.outputName) code]).
Proof.
  intros Hf Hr Ht Hfm Hw Hg. unfold VariantB.generatePackage, VariantB.generateWarmupCode.
  destruct (VariantB.RawCalls pkg) as [|c cs] eqn:R; [contradiction|].
  destruct (Slices.SortFunc (deduplicateCalls w (c :: cs)) cmpCall) as [|wc wcs] eqn:S.
  - apply (proj1 (SortFunc_nil_iff _)) in S. exfalso.
    apply (deduplicateCalls_nonempty w (c :: cs) Hf); [discriminate | exact S].
  - unfold renderAndWrite, bind, emit, fatal. now rewrite Ht, Hfm, Hw, Hg.
Qed.

(** X25.  The per-package generator does not take back what it wrote
    and does not go on after a failure.  When the import fixer fails on
    the file of a package, that file stays written, the files written
    for the packages before it stay as well, the packages after it get
    nothing, and the run ends with the fatal message of the fixer. *)
Theorem X25_failing_fixer_leaves_the_files_written :
  forall (w : World VariantB.warmupTemplateData) (dir : string)
         (before after : list VariantB.packageData) (pkg : VariantB.packageData)
         (modulePrefix text code : string) (evs : list event),
    fair w ->
    VariantB.scanPackages w dir = Done (before ++ pkg :: after) ->
    getGoModModuleName w dir = Done modulePrefix ->
    forEach before (VariantB.generatePackage w modulePrefix) [] = (Done tt, evs) ->
    VariantB.RawCalls pkg <> [] ->
    execTemplate w (VariantB.templateData pkg
                      (VariantB.buildImportLines w (VariantB.ImportPaths pkg) modulePrefix)
                      (deduplicateCalls w (VariantB.RawCalls pkg))) = Some text ->
    format_Source w text = Some code ->
    os_WriteFile w (filepath_Join w (VariantB.Dir pkg) VariantB.outputName) code = true ->
    goimports w (filepath_Join w (VariantB.Dir pkg) VariantB.outputName) = false ->
    VariantB.run w dir
    = (Fatal "goimports failed",
       evs ++ [WriteFile (filepath_Join w (VariantB.Dir pkg) VariantB.outputName) code]).
Proof.
  intros w dir before after pkg prefix text code evs Hf S G B R Ht Hfm Hw Hg.
  unfold VariantB.run, VariantB.generate, bind at 1, lift. rewrite S.
  unfold bind at 1. rewrite G. rewrite forEach_app. unfold bind at 1. rewrite B.
  cbn [forEach]. unfold bind at 1.
  now rewrite (generatePackage_fixer_fails w prefix pkg text code evs Hf R Ht Hfm Hw Hg).
Qed.

End Abort.

(** ** The import lines *)
Section ImportLines.
Import Ast Gen Scan Matching Extra.

Lemma importLinesOf_aliases {T : Type} (w : World T) (m : gmap string string)
    (modulePrefix : string) :
  fair w ->
  NoDup (map Alias (importLinesOf w m modulePrefix)) /\
  length (importLinesOf w m modulePrefix) = size m.
Proof.
  intros Hf. pose proof (importLinesOf_perm w m modulePrefix Hf) as P. split.
  - rewrite P, map_map. simpl. apply (NoDup_fst_map_to_list m).
  - rewrite (Permutation_length P), length_map. apply length_map_to_list.
Qed.

Lemma importLinesOf_complete {T : Type} (w : World T) (m : gmap string string)
    (modulePrefix alias rel : string) :
  fair w -> m !! alias = Some rel ->
  In {| Alias := alias; Path := (modulePrefix ++ "/" ++ rel)%string |}
     (importLinesOf w m modulePrefix).
Proof.
  intros Hf L. apply list_elem_of_In. rewrite (importLinesOf_perm w m modulePrefix Hf).
  apply list_elem_of_In, in_map_iff. exists (alias, rel). split; [reflexivity|].
  apply list_elem_of_In. now apply elem_of_map_to_list.
Qed.

(** X26.  The import lines of the first generator, under an iteration
    that yields every entry once: no two lines share an alias, so of the
    packages of one name in several directories one alone gets a line;
    the alias of each line is the package name of an analysed file and
    its path is the module name, a slash, and the directory of that file
    relative to the root; and the package name of every analysed file is
    the alias of a line. *)
Theorem X26_import_lines_of_the_first_generator :
  forall (w : World VariantA.warmupTemplateData) (dir : string)
         (rawCalls : list rawCall) (importPaths importMap : gmap string string)
         (lines : list importLine),
    fair w ->
    VariantA.scanGoFiles w dir = Done (rawCalls, importPaths, importMap) ->
    VariantA.buildImportLines w importPaths dir = Done lines ->
    NoDup (map Alias lines) /\
    (forall line, In line lines ->
       exists modulePrefix path file,
         getGoModModuleName w dir = Done modulePrefix /\
         analysed w VariantA.skippedName dir path file /\
         Alias line = PkgName file /\
         Path line = (modulePrefix ++ "/"
                      ++ filepath_Rel w dir (filepath_Dir w path))%string) /\
    (forall path file, analysed w VariantA.skippedName dir path file ->
       In (PkgName file) (map Alias lines)).
Proof.
  intros w dir rc ip im lines Hf S. unfold VariantA.buildImportLines.
  destruct (getGoModModuleName w dir) as [prefix| |] eqn:G; cbn [obind]; try discriminate.
  intros [= <-].
  assert (Hs : scanSound w dir (rc, ip, im)).
  { apply (walkFrom_sound w dir (filepath_Walk w dir) (fun v Hv => Hv) ([], ∅, ∅) _ S).
    split; [intros c []|]. split; intros k x L; now rewrite lookup_empty in L. }
  destruct Hs as [_ [Hip _]]. split; [apply importLinesOf_aliases, Hf|]. split.
  - intros line Hin. apply (In_importLinesOf w ip prefix line Hf) in Hin as [rel [L Hp]].
    destruct (Hip _ _ L) as [path [file [An [Hk ->]]]].
    exists prefix, path, file. auto.
  - intros path file [Hin [Hx [Hb [P Hm]]]].
    destruct (walkFrom_complete w dir _ _ _ Hx Hb P Hm Hin _ _ S) as [_ [[rel L] _]].
    simpl in L. apply in_map_iff.
    exists {| Alias := PkgName file; Path := (prefix ++ "/" ++ rel)%string |}.
    split; [reflexivity|]. now apply importLinesOf_complete.
Qed.

(** X27.  The import lines of a package in the per-package generator,
    under an iteration that yields every entry once: no two lines share
    an alias, every line carries the same path, the module name, a slash
    and the directory of the package relative to the root, and the
    aliases are the package names of the analysed files of that
    directory. *)
Theorem X27_import_lines_of_a_package_share_one_path :
  forall (w : World VariantB.warmupTemplateData) (dir : string)
         (pkgs : list VariantB.packageData) (pkg : VariantB.packageData)
         (modulePrefix : string),
    fair w ->
    VariantB.scanPackages w dir = Done pkgs ->
    In pkg pkgs ->
    NoDup (map Alias (VariantB.buildImportLines w (VariantB.ImportPaths pkg) modulePrefix)) /\
    forall line,
      In line (VariantB.buildImportLines w (VariantB.ImportPaths pkg) modulePrefix) ->
      Path line = (modulePrefix ++ "/" ++ filepath_Rel w dir (VariantB.Dir pkg))%string /\
      exists path file, analysed w VariantB.skippedName dir path file /\
        filepath_Dir w path = VariantB.Dir pkg /\ PkgName file = Alias line.
Proof.
  intros w dir pkgs pkg prefix Hf. unfold VariantB.scanPackages.
  destruct (VariantB.walkFrom w dir ∅ (filepath_Walk w dir)) as [pkgMap| |] eqn:W;
    cbn [obind]; try discriminate.
  intros [= <-] Hin.
  assert (Hs : packagesSound w dir pkgMap).
  { apply (package_walk_sound w dir (filepath_Walk w dir) (fun v Hv => Hv) ∅ pkgMap W).
    intros d p L. now rewrite lookup_empty in L. }
  apply (proj1 (scanned_packages w dir pkgMap Hf)) in Hin as [d L].
  destruct (Hs _ _ L) as [<- [_ [_ Hip]]].
  unfold VariantB.buildImportLines. split; [apply importLinesOf_aliases, Hf|].
  intros line Hl. apply (In_importLinesOf w _ prefix line Hf) in Hl as [rel [Lk Hp]].
  destruct (Hip _ _ Lk) as [-> An]. auto.
Qed.

End ImportLines.

(** ** The two generators side by side *)
Section SideBySide.
Import Ast Gen Scan Matching Extra.

Lemma builds_end_alike (P Q : string) (fd : FuncDecl) :
  (exists a b, VariantA.buildFunctionCall P fd = Done a /\
               VariantB.buildFunctionCall Q fd = Done b) \/
  (VariantA.buildFunctionCall P fd = Panicked /\ VariantB.buildFunctionCall Q fd = Panicked).
Proof.
  unfold VariantA.buildFunctionCall, VariantB.buildFunctionCall.
  destruct (Recv fd) as [[|recvType more]|]; [now right | | left; eauto].
  left. destruct recvType as [name | X sel | f line args | X | cs]; eauto.
  destruct X; eauto.
Qed.

(** X28.  On a function without type parameters the two generators find
    the same uses of the probe: given the same relative paths, either
    both panic, or both end normally with raw call sites that carry the
    same comments in the same order; the references differ only by the
    package qualifier, which the first generator alone writes. *)
Theorem X28_generators_find_the_same_call_sites :
  forall (wA : World VariantA.warmupTemplateData) (wB : World VariantB.warmupTemplateData)
         (dir path pkgName : string) (importMap : gmap string string) (fd : FuncDecl),
    filepath_Rel wA dir path = filepath_Rel wB dir path ->
    TypeParams fd = None ->
    (VariantA.scanDecl wA dir path pkgName importMap (FuncD fd) = Panicked /\
     VariantB.scanDecl wB dir path pkgName importMap (FuncD fd) = Panicked) \/
    (exists a b,
       VariantA.scanDecl wA dir path pkgName importMap (FuncD fd) = Done a /\
       VariantB.scanDecl wB dir path pkgName importMap (FuncD fd) = Done b /\
       map rc_Comment a = map rc_Comment b /\
       (forall ra rb, VariantA.buildFunctionCall pkgName fd = Done ra ->
                      VariantB.buildFunctionCall pkgName fd = Done rb ->
                      Forall (fun c => rc_Expr c = ra) a /\ Forall (fun c => rc_Expr c = rb) b)).
Proof.
  intros wA wB dir path pkgName importMap fd Hrel Htp. cbn [VariantA.scanDecl VariantB.scanDecl].
  rewrite Htp. destruct (Body fd) as [body|]; [|right; exists [], []; repeat split; constructor].
  destruct (builds_end_alike pkgName pkgName fd) as [[a [b [Ha Hb]]] | [Ha Hb]].
  - right. rewrite (scanBody_done wA _ _ _ _ _ _ _ _ Ha), (scanBody_done wB _ _ _ _ _ _ _ _ Hb).
    eexists. eexists. split; [reflexivity|]. split; [reflexivity|]. split.
    + rewrite !map_map. simpl. now rewrite Hrel.
    + intros ra rb Ha' Hb'. rewrite Ha in Ha'. rewrite Hb in Hb'.
      injection Ha' as <-. injection Hb' as <-.
      split; apply Forall_forall; intros c Hc; apply list_elem_of_In, in_map_iff in Hc
        as [n [<- _]]; reflexivity.
  - destruct (existsb (matchesCall importMap) (Inspect body)) eqn:Ex.
    + left. apply existsb_exists in Ex as [n [Hn Hm]]. split.
      * apply (scanBody_panicked wA _ first_build_never_fatal). eauto.
      * apply (scanBody_panicked wB _ second_build_never_fatal). eauto.
    + right. exists [], [].
      assert (Hnone : forall n, In n (Inspect body) -> matchesCall importMap n = false).
      { intros n Hn. destruct (matchesCall importMap n) eqn:Hm; [|reflexivity].
        assert (X : existsb (matchesCall importMap) (Inspect body) = true)
          by (apply existsb_exists; eauto).
        congruence. }
      assert (HA : forall (T : Type) (w : World T) build,
                 scanBody w build dir path pkgName importMap fd body = Done []).
      { intros T w build. unfold scanBody.
        rewrite (collect_done _ (fun _ => [])).
        - f_equal. clear Hnone Ex. induction (Inspect body) as [|n l IH]; [reflexivity | exact IH].
        - intros n Hn. specialize (Hnone n Hn).
          destruct n as [x | X sel | f line args | X | cs]; try reflexivity.
          simpl in *. now rewrite Hnone. }
      rewrite !HA. repeat split; constructor.
Qed.

End SideBySide.

(** ** The file name in the comments *)
Section Positions.
Import Ast Gen Scan Matching Extra.

(** The reference and the scan of one declaration read the receiver,
    the name, the type parameters and the body of the declaration, and
    not its position: the file name of the comments is the one they are
    handed. *)
Lemma first_scanDecl_reads_no_position (w : World VariantA.warmupTemplateData)
    dir path pkgName importMap (fd fd' : FuncDecl) :
  Recv fd = Recv fd' -> Name fd = Name fd' -> Body fd = Body fd' ->
  VariantA.scanDecl w dir path pkgName importMap (FuncD fd)
  = VariantA.scanDecl w dir path pkgName importMap (FuncD fd').
Proof.
  intros R N B. cbn [VariantA.scanDecl]. rewrite <- B. destruct (Body fd); [|reflexivity].
  apply scanBody_build_ext. unfold VariantA.buildFunctionCall. now rewrite R, N.
Qed.

Lemma second_scanDecl_reads_no_position (w : World VariantB.warmupTemplateData)
    dir path pkgName importMap (fd fd' : FuncDecl) :
  Recv fd = Recv fd' -> Name fd = Name fd' -> TypeParams fd = TypeParams fd' ->
  Body fd = Body fd' ->
  VariantB.scanDecl w dir path pkgName importMap (FuncD fd)
  = VariantB.scanDecl w dir path pkgName importMap (FuncD fd').
Proof.
  intros R N Tp B. cbn [VariantB.scanDecl]. rewrite <- B, <- Tp.
  destruct (Body fd); [|reflexivity]. destruct (TypeParams fd); [reflexivity|].
  apply scanBody_build_ext. unfold VariantB.buildFunctionCall. now rewrite R, N.
Qed.

(** A line directive in force at a declaration renames the file in the
    comments of its raw call sites, in both generators. *)
Example line_directive_names_the_comment :
  VariantA.scanGoFiles
    (Samples.oneFileTree VariantA.warmupTemplateData Cases.directedFile (Some Samples.goMod)) "."
  = Done ([Cases.directedSite], <["pkg" := "pkg"]> ∅, <["reflecting" := probePath]> ∅) /\
  VariantB.scanPackages
    (Samples.oneFileTree VariantB.warmupTemplateData Cases.directedFile (Some Samples.goMod)) "."
  = Done [Cases.directedPackage].
Proof. split; vm_compute; reflexivity. Qed.

End Positions.

(** ** The further properties on the sample inputs *)
Section Instances.
Import Ast Gen Scan Matching Extra.

Lemma lastFirst_fair : forall l, Cases.lastFirst l ≡ₚ l.
Proof. intros l. unfold Cases.lastFirst. symmetry. apply Permutation_rev. Qed.

Lemma inOrder_fair {T : Type} (visits : list (string * bool)) (parse : string -> option File)
    (gomod : option string) (text : T -> option string) :
  fair (Samples.world visits parse gomod Samples.inOrder text).
Proof. intros V l. reflexivity. Qed.

Lemma backwards_fair {T : Type} (visits : list (string * bool)) (parse : string -> option File)
    (gomod : option string) (text : T -> option string) :
  fair (Samples.world visits parse gomod Samples.backwards text).
Proof. intros V l. simpl. unfold Samples.backwards. symmetry. apply Permutation_rev. Qed.

Lemma siblings_fair (fixer : string -> bool) : fair (Cases.siblings fixer).
Proof. intros V l. reflexivity. Qed.

Lemma sample_runtime_entries : entriesNamed Samples.runtime.
Proof.
  intros p fn. unfold Samples.runtime. simpl.
  destruct ((96 <=? p)%N && (p <? 128)%N); [|discriminate].
  intros [= <-]. reflexivity.
Qed.

Lemma one_file_analysed {T : Type} (skipped : string) (file : File) :
  skipped <> "x.go" -> PkgName file <> "main" ->
  analysed (Samples.oneFileTree T file (Some Samples.goMod)) skipped "." "pkg/x.go" file.
Proof.
  intros Hs Hm. split; [now left|]. split; [reflexivity|]. split; [|split].
  - intros E. apply Hs. rewrite <- E. reflexivity.
  - reflexivity.
  - exact Hm.
Qed.

Lemma X1_witness :
  Containers.TransMapByValue Cases.lastFirst Cases.ages S = S <$> Cases.ages /\
  (forall k, Containers.TransMapByValue Cases.lastFirst Cases.ages S !! k
             = S <$> (Cases.ages !! k)) /\
  dom (Containers.TransMapByValue Cases.lastFirst Cases.ages S) = dom Cases.ages.
Proof.
  exact (X1_TransMapByValue_maps_each_value Cases.lastFirst lastFirst_fair Cases.ages S).
Defined.

Lemma X2_witness :
  (forall k v, Cases.ages !! k = Some v -> snd (Cases.halve v) = None) /\
  Containers.TransMapByValueWithErr Cases.lastFirst Cases.ages Cases.halve
  = (Some ((fun v => fst (Cases.halve v)) <$> Cases.ages), None) \/
  exists k v e, Cases.ages !! k = Some v /\ snd (Cases.halve v) = Some e /\
    Containers.TransMapByValueWithErr Cases.lastFirst Cases.ages Cases.halve = (None, Some e).
Proof.
  exact (X2_TransMapByValueWithErr_all_or_error Cases.lastFirst lastFirst_fair string
           Cases.ages Cases.halve).
Defined.

Lemma X3_witness :
  (forall k' v', Containers.TransMap Cases.lastFirst Cases.ages Cases.byInitial !! k' = Some v' ->
     exists k v, Cases.ages !! k = Some v /\ Cases.byInitial k v = (k', v')) /\
  (forall k v, Cases.ages !! k = Some v ->
     is_Some (Containers.TransMap Cases.lastFirst Cases.ages Cases.byInitial
                !! fst (Cases.byInitial k v))) /\
  ((forall k1 v1 k2 v2, Cases.ages !! k1 = Some v1 -> Cases.ages !! k2 = Some v2 ->
      fst (Cases.byInitial k1 v1) = fst (Cases.byInitial k2 v2) -> k1 = k2) ->
   (forall k v, Cases.ages !! k = Some v ->
      Containers.TransMap Cases.lastFirst Cases.ages Cases.byInitial
        !! fst (Cases.byInitial k v) = Some (snd (Cases.byInitial k v))) /\
   size (Containers.TransMap Cases.lastFirst Cases.ages Cases.byInitial) = size Cases.ages).
Proof.
  exact (X3_TransMap_entries Cases.lastFirst lastFirst_fair Cases.ages Cases.byInitial).
Defined.

Lemma X4_witness :
  (forall k v, Cases.ages !! k = Some v -> snd (Cases.byInitialEven k v) = None) /\
  Containers.TransMapWithErr Cases.lastFirst Cases.ages Cases.byInitialEven
  = (Some (Containers.TransMap Cases.lastFirst Cases.ages
             (fun k v => fst (Cases.byInitialEven k v))), None) \/
  exists k v e, Cases.ages !! k = Some v /\ snd (Cases.byInitialEven k v) = Some e /\
    Containers.TransMapWithErr Cases.lastFirst Cases.ages Cases.byInitialEven = (None, Some e).
Proof.
  exact (X4_TransMapWithErr_all_or_error Cases.lastFirst lastFirst_fair string
           Cases.ages Cases.byInitialEven).
Defined.

Lemma X5_witness :
  snd (Containers.TransMapWithSkip (E := string) Cases.lastFirst Cases.ages
         Cases.byInitialSkipOdd) = None /\
  (forall k' v',
     fst (Containers.TransMapWithSkip (E := string) Cases.lastFirst Cases.ages
            Cases.byInitialSkipOdd) !! k' = Some v' ->
     exists k v, Cases.ages !! k = Some v /\ Cases.byInitialSkipOdd k v = (k', v', false)) /\
  (forall k v, Cases.ages !! k = Some v -> snd (Cases.byInitialSkipOdd k v) = false ->
     is_Some (fst (Containers.TransMapWithSkip (E := string) Cases.lastFirst Cases.ages
                     Cases.byInitialSkipOdd)
              !! fst (fst (Cases.byInitialSkipOdd k v)))) /\
  ((forall k v, Cases.ages !! k = Some v -> snd (Cases.byInitialSkipOdd k v) = false) ->
   fst (Containers.TransMapWithSkip (E := string) Cases.lastFirst Cases.ages
          Cases.byInitialSkipOdd)
   = Containers.TransMap Cases.lastFirst Cases.ages
       (fun k v => fst (Cases.byInitialSkipOdd k v))).
Proof.
  exact (X5_TransMapWithSkip_entries Cases.lastFirst lastFirst_fair string Cases.ages
           Cases.byInitialSkipOdd).
Defined.

Lemma X13_witness :
  (∅ : Reflecting.cache) ⊆ <[100%N := "pkg.T.M"%string]> ∅ /\
  Reflecting.exec Samples.runtime (Reflecting.CallGetCurrentFunc Samples.inMethod)
    (<[100%N := "pkg.T.M"%string]> ∅)
  = Some ("pkg.T.M"%string, <[100%N := "pkg.T.M"%string]> ∅) /\
  (forall cls names c'',
     Reflecting.execAll Samples.runtime cls (<[100%N := "pkg.T.M"%string]> ∅)
     = Some (names, c'') ->
     (∅ : Reflecting.cache) ⊆ c'' /\
     forall pc cached, (∅ : Reflecting.cache) !! pc = Some cached -> c'' !! pc = Some cached).
Proof.
  apply (X13_cache_only_grows_and_repeats Samples.runtime
           (Reflecting.CallGetCurrentFunc Samples.inMethod) ∅).
  vm_compute. reflexivity.
Defined.

Lemma X14_witness :
  Forall2 (fun cl name => answer Samples.runtime cl = Some name) Samples.probeUses
          ["pkg.T.M"; "pkg.T.M"; "pkg.T.M"; "pkg.T.M"]%string /\
  coherent Samples.runtime (<[96%N := "pkg.T.M"%string]> (<[100%N := "pkg.T.M"%string]> ∅)) /\
  (forall cl,
     Reflecting.exec Samples.runtime cl
       (<[96%N := "pkg.T.M"%string]> (<[100%N := "pkg.T.M"%string]> ∅)) = None
     <-> cl = Reflecting.CallGetFunctionName None) /\
  (forall cl name c'',
     Reflecting.exec Samples.runtime cl
       (<[96%N := "pkg.T.M"%string]> (<[100%N := "pkg.T.M"%string]> ∅)) = Some (name, c'') ->
     answer Samples.runtime cl = Some name).
Proof.
  apply (X14_cache_never_changes_an_answer Samples.runtime Samples.probeUses).
  - exact sample_runtime_entries.
  - vm_compute. reflexivity.
Defined.

Lemma X15_witness :
  (forall c, In c [Cases.directedSite] ->
     exists path file,
       analysed (Samples.oneFileTree VariantA.warmupTemplateData Cases.directedFile
                   (Some Samples.goMod)) VariantA.skippedName "." path file /\
       foundIn (Samples.oneFileTree VariantA.warmupTemplateData Cases.directedFile
                  (Some Samples.goMod)) VariantA.buildFunctionCall anyDecl "." path file c) /\
  (forall k rel, (<["pkg" := "pkg"]> ∅ : gmap string string) !! k = Some rel ->
     exists path file,
       analysed (Samples.oneFileTree VariantA.warmupTemplateData Cases.directedFile
                   (Some Samples.goMod)) VariantA.skippedName "." path file /\
       PkgName file = k /\ rel = "pkg"%string) /\
  (forall alias p, (<["reflecting" := probePath]> ∅ : gmap string string) !! alias = Some p ->
     exists path file,
       analysed (Samples.oneFileTree VariantA.warmupTemplateData Cases.directedFile
                   (Some Samples.goMod)) VariantA.skippedName "." path file /\
       fileImportMap (Imports file) ∅ !! alias = Some p).
Proof.
  apply (X15_scan_holds_only_what_analysed_files_give
           (Samples.oneFileTree VariantA.warmupTemplateData Cases.directedFile
              (Some Samples.goMod)) "."
           [Cases.directedSite] (<["pkg" := "pkg"]> ∅) (<["reflecting" := probePath]> ∅)).
  vm_compute. reflexivity.
Defined.

Lemma X16_witness :
  (forall fd n, usesProbe Cases.directedFile fd n ->
     exists ref, VariantA.buildFunctionCall "pkg" fd = Done ref /\
       In (siteOf (Samples.oneFileTree VariantA.warmupTemplateData Cases.directedFile
                     (Some Samples.goMod)) "." (funcPosFilename "pkg/x.go" fd) ref n)
          [Cases.directedSite]) /\
  is_Some ((<["pkg" := "pkg"]> ∅ : gmap string string) !! "pkg"%string) /\
  (forall alias, is_Some (fileImportMap (Imports Cases.directedFile) ∅ !! alias) ->
     is_Some ((<["reflecting" := probePath]> ∅ : gmap string string) !! alias)).
Proof.
  apply (X16_scan_misses_no_use_of_the_probe
           (Samples.oneFileTree VariantA.warmupTemplateData Cases.directedFile
              (Some Samples.goMod)) "."
           [Cases.directedSite] (<["pkg" := "pkg"]> ∅) (<["reflecting" := probePath]> ∅)
           "pkg/x.go" Cases.directedFile).
  - vm_compute. reflexivity.
  - apply one_file_analysed; discriminate.
Defined.

Lemma X17_witness :
  NoDup (map VariantB.Dir [Cases.directedPackage]) /\
  forall pkg, In pkg [Cases.directedPackage] ->
    (exists path file,
       analysed (Samples.oneFileTree VariantB.warmupTemplateData Cases.directedFile
                   (Some Samples.goMod)) VariantB.skippedName "." path file /\
       "pkg"%string = VariantB.Dir pkg /\ PkgName file = VariantB.PackageName pkg) /\
    (forall c, In c (VariantB.RawCalls pkg) ->
       exists path file,
         analysed (Samples.oneFileTree VariantB.warmupTemplateData Cases.directedFile
                     (Some Samples.goMod)) VariantB.skippedName "." path file /\
         "pkg"%string = VariantB.Dir pkg /\
         foundIn (Samples.oneFileTree VariantB.warmupTemplateData Cases.directedFile
                    (Some Samples.goMod)) VariantB.buildFunctionCall nonGeneric "." path file c) /\
    (forall k rel, VariantB.ImportPaths pkg !! k = Some rel ->
       rel = VariantB.Dir pkg /\
       exists path file,
         analysed (Samples.oneFileTree VariantB.warmupTemplateData Cases.directedFile
                     (Some Samples.goMod)) VariantB.skippedName "." path file /\
         "pkg"%string = VariantB.Dir pkg /\ PkgName file = k).
Proof.
  apply (X17_packages_hold_what_their_directory_gives
           (Samples.oneFileTree VariantB.warmupTemplateData Cases.directedFile
              (Some Samples.goMod)) "." [Cases.directedPackage]).
  - apply inOrder_fair.
  - vm_compute. reflexivity.
Defined.

Lemma X18_witness :
  exists pkg, In pkg [Cases.directedPackage] /\ VariantB.Dir pkg = "pkg"%string /\
    VariantB.ImportPaths pkg !! "pkg"%string = Some "pkg"%string /\
    (forall fd n, usesProbe Cases.directedFile fd n -> TypeParams fd = None ->
       exists ref, VariantB.buildFunctionCall "pkg" fd = Done ref /\
         In (siteOf (Samples.oneFileTree VariantB.warmupTemplateData Cases.directedFile
                       (Some Samples.goMod)) "." (funcPosFilename "pkg/x.go" fd) ref n)
            (VariantB.RawCalls pkg)).
Proof.
  apply (X18_packages_miss_no_use_of_the_probe
           (Samples.oneFileTree VariantB.warmupTemplateData Cases.directedFile
              (Some Samples.goMod)) "." [Cases.directedPackage] "pkg/x.go" Cases.directedFile).
  - apply inOrder_fair.
  - vm_compute. reflexivity.
  - apply one_file_analysed; discriminate.
Defined.

Lemma X19_witness :
  Commonutils.RemoveFromStringRune "f(*x)" [42; 40; 41]%Z
  = keep (fun a => negb (removed [42; 40; 41]%Z a)) "f(*x)" /\
  (forall cs', [42; 40; 41]%Z ≡ₚ cs' ->
     Commonutils.RemoveFromStringRune "f(*x)" cs'
     = Commonutils.RemoveFromStringRune "f(*x)" [42; 40; 41]%Z) /\
  Commonutils.RemoveFromStringRune ("f(*x)" ++ ").y") [42; 40; 41]%Z
  = (Commonutils.RemoveFromStringRune "f(*x)" [42; 40; 41]%Z
     ++ Commonutils.RemoveFromStringRune ").y" [42; 40; 41]%Z)%string /\
  Commonutils.RemoveFromStringRune
    (Commonutils.RemoveFromStringRune "f(*x)" [42; 40; 41]%Z) [42; 40; 41]%Z
  = Commonutils.RemoveFromStringRune "f(*x)" [42; 40; 41]%Z /\
  Commonutils.RemoveFromStringRune "f(*x)" [] = "f(*x)"%string.
Proof.
  apply (X19_RemoveFromStringRune_filters_bytes [42; 40; 41]%Z "f(*x)" ").y").
  repeat constructor; lia.
Defined.

Lemma X24_witness :
  expand (deduplicateCalls (Samples.emptyTree unit Samples.backwards) Samples.threeCalls)
    ≡ₚ Samples.threeCalls /\
  expand (VariantA.tpl_WarmupCalls
            (VariantA.templateData []
               (deduplicateCalls (Samples.emptyTree unit Samples.backwards) Samples.threeCalls)))
    ≡ₚ Samples.threeCalls /\
  expand (VariantB.tpl_WarmupCalls
            (VariantB.templateData Cases.methodPackage []
               (deduplicateCalls (Samples.emptyTree unit Samples.backwards) Samples.threeCalls)))
    ≡ₚ Samples.threeCalls /\
  list_sum (map (fun wc => length (Comments wc))
              (deduplicateCalls (Samples.emptyTree unit Samples.backwards) Samples.threeCalls))
  = length Samples.threeCalls.
Proof.
  apply (X24_deduplicated_calls_spell_out_the_raw_calls unit
           (Samples.emptyTree unit Samples.backwards) Samples.threeCalls [] []
           Cases.methodPackage).
  apply backwards_fair.
Defined.

Lemma X25_witness :
  VariantB.run (Cases.siblings Cases.fixesA) "."
  = (Fatal "goimports failed",
     [WriteFile "a/warmup.gen.go" "package foo"; RunGoimports "a/warmup.gen.go"]
     ++ [WriteFile (filepath_Join (Cases.siblings Cases.fixesA)
                      (VariantB.Dir Cases.packageB) VariantB.outputName) "package pkg"]).
Proof.
  apply (X25_failing_fixer_leaves_the_files_written (Cases.siblings Cases.fixesA) "."
           [Cases.packageA] [] Cases.packageB "example.com/m" "package pkg" "package pkg").
  - apply siblings_fair.
  - vm_compute. reflexivity.
  - vm_compute. reflexivity.
  - vm_compute. reflexivity.
  - discriminate.
  - reflexivity.
  - reflexivity.
  - reflexivity.
  - reflexivity.
Defined.

Lemma X26_witness :
  NoDup (map Alias [ {| Alias := "pkg"; Path := "example.com/m/pkg" |} ]) /\
  (forall line, In line [ {| Alias := "pkg"; Path := "example.com/m/pkg" |} ] ->
     exists modulePrefix path file,
       getGoModModuleName (Samples.oneFileTree VariantA.warmupTemplateData Samples.methodFile
                             (Some Samples.goMod)) "." = Done modulePrefix /\
       analysed (Samples.oneFileTree VariantA.warmupTemplateData Samples.methodFile
                   (Some Samples.goMod)) VariantA.skippedName "." path file /\
       Alias line = PkgName file /\
       Path line = (modulePrefix ++ "/" ++ "pkg")%string) /\
  (forall path file,
     analysed (Samples.oneFileTree VariantA.warmupTemplateData Samples.methodFile
                 (Some Samples.goMod)) VariantA.skippedName "." path file ->
     In (PkgName file) (map Alias [ {| Alias := "pkg"; Path := "example.com/m/pkg" |} ])).
Proof.
  apply (X26_import_lines_of_the_first_generator
           (Samples.oneFileTree VariantA.warmupTemplateData Samples.methodFile
              (Some Samples.goMod)) "."
           [Cases.methodSite] (<["pkg" := "pkg"]> ∅) (<["reflecting" := probePath]> ∅)).
  - apply inOrder_fair.
  - vm_compute. reflexivity.
  - vm_compute. reflexivity.
Defined.

Lemma X27_witness :
  NoDup (map Alias
           (VariantB.buildImportLines
              (Samples.oneFileTree VariantB.warmupTemplateData Samples.methodFile
                 (Some Samples.goMod))
              (VariantB.ImportPaths Cases.methodPackage) "example.com/m")) /\
  forall line,
    In line (VariantB.buildImportLines
               (Samples.oneFileTree VariantB.warmupTemplateData Samples.methodFile
                  (Some Samples.goMod))
               (VariantB.ImportPaths Cases.methodPackage) "example.com/m") ->
    Path line = ("example.com/m" ++ "/" ++ "pkg")%string /\
    exists path file,
      analysed (Samples.oneFileTree VariantB.warmupTemplateData Samples.methodFile
                  (Some Samples.goMod)) VariantB.skippedName "." path file /\
      "pkg"%string = VariantB.Dir Cases.methodPackage /\ PkgName file = Alias line.
Proof.
  apply (X27_import_lines_of_a_package_share_one_path
           (Samples.oneFileTree VariantB.warmupTemplateData Samples.methodFile
              (Some Samples.goMod)) "." [Cases.methodPackage] Cases.methodPackage
           "example.com/m").
  - apply inOrder_fair.
  - vm_compute. reflexivity.
  - now left.
Defined.

Lemma X28_witness :
  (VariantA.scanDecl (Samples.oneFileTree _ Samples.methodFile (Some Samples.goMod))
     "." "pkg/x.go" "pkg" (<["reflecting" := probePath]> ∅) (FuncD Cases.methodM) = Panicked /\
   VariantB.scanDecl (Samples.oneFileTree _ Samples.methodFile (Some Samples.goMod))
     "." "pkg/x.go" "pkg" (<["reflecting" := probePath]> ∅) (FuncD Cases.methodM) = Panicked) \/
  (exists a b,
     VariantA.scanDecl (Samples.oneFileTree _ Samples.methodFile (Some Samples.goMod))
       "." "pkg/x.go" "pkg" (<["reflecting" := probePath]> ∅) (FuncD Cases.methodM) = Done a /\
     VariantB.scanDecl (Samples.oneFileTree _ Samples.methodFile (Some Samples.goMod))
       "." "pkg/x.go" "pkg" (<["reflecting" := probePath]> ∅) (FuncD Cases.methodM) = Done b /\
     map rc_Comment a = map rc_Comment b /\
     (forall ra rb, VariantA.buildFunctionCall "pkg" Cases.methodM = Done ra ->
                    VariantB.buildFunctionCall "pkg" Cases.methodM = Done rb ->
                    Forall (fun c => rc_Expr c = ra) a /\ Forall (fun c => rc_Expr c = rb) b)).
Proof.
  apply (X28_generators_find_the_same_call_sites
           (Samples.oneFileTree _ Samples.methodFile (Some Samples.goMod))
           (Samples.oneFileTree _ Samples.methodFile (Some Samples.goMod))
           "." "pkg/x.go" "pkg" (<["reflecting" := probePath]> ∅) Cases.methodM).
  - reflexivity.
  - reflexivity.
Defined.

End Instances.
